(** * dualread/voice: a shallow embedding of the two scripts

    - [convert_words_to_mp3.py]: word list -> bilingual audio (Pipeline A)
    - [longman3000/categorize_words.py]: word list -> category files (Pipeline B)

    Python [str] values are sequences of Unicode code points, so a string is
    a [list N] here.  External collaborators (the voice backend, ffmpeg, the
    translation backend, WordNet) are oracles collected in a record; every
    call to one of them is recorded in the log of the world. *)

From Stdlib Require Import Ascii String.
From stdpp Require Import base numbers list gmap pretty sorting.

Open Scope N_scope.
Open Scope nat_scope.

(** ** Python strings *)

Abbreviation pystr := (list N).

Fixpoint py (s : string) : pystr :=
  match s with
  | EmptyString => []
  | String a s' => N_of_ascii a :: py s'
  end.

(** The characters [str.strip()] and [str.split(None)] treat as whitespace
    (CPython's [_PyUnicode_IsWhitespace]). *)
Definition isspace (c : N) : bool :=
  ((9 <=? c) && (c <=? 13) || (28 <=? c) && (c <=? 32) ||
   (c =? 133) || (c =? 160) || (c =? 5760) ||
   (8192 <=? c) && (c <=? 8202) ||
   (c =? 8232) || (c =? 8233) || (c =? 8239) || (c =? 8287) ||
   (c =? 12288))%N.

Fixpoint lstrip (s : pystr) : pystr :=
  match s with
  | c :: s' => if isspace c then lstrip s' else s
  | [] => []
  end.

Definition rstrip (s : pystr) : pystr := rev (lstrip (rev s)).

(** [line.strip()] *)
Definition strip (s : pystr) : pystr := rstrip (lstrip s).

(** The maximal whitespace-free prefix of [s], and what follows it. *)
Fixpoint span_word (s : pystr) : pystr * pystr :=
  match s with
  | c :: s' =>
      if isspace c then ([], s)
      else let '(w, r) := span_word s' in (c :: w, r)
  | [] => ([], [])
  end.

(** [s.split(None, maxsplit)]: leading whitespace is skipped; once
    [maxsplit] splits are done the remainder is kept as it is. *)
Fixpoint split_none (maxsplit : nat) (s : pystr) : list pystr :=
  match lstrip s with
  | [] => []
  | s1 =>
      match maxsplit with
      | O => [s1]
      | S m => let '(w, r) := span_word s1 in w :: split_none m r
      end
  end.

(** [s.startswith(p)] *)
Fixpoint startswith (p s : pystr) : bool :=
  match p, s with
  | [], _ => true
  | a :: p', b :: s' => (a =? b)%N && startswith p' s'
  | _ :: _, [] => false
  end.

(** [sep.join(parts)] *)
Fixpoint join {A} (sep : list A) (parts : list (list A)) : list A :=
  match parts with
  | [] => []
  | [p] => p
  | p :: rest => p ++ sep ++ join sep rest
  end.

(** Iterating over a file opened in text mode: the content is cut after
    every line terminator; with universal newlines CR and CR LF are read
    as LF. *)
Fixpoint readlines_go (cur : pystr) (s : pystr) : list pystr :=
  match s with
  | [] => match cur with [] => [] | _ => [cur] end
  | c :: s' =>
      if (c =? 10)%N then (cur ++ [10%N]) :: readlines_go [] s'
      else if (c =? 13)%N then
        match s' with
        | d :: s'' =>
            if (d =? 10)%N then (cur ++ [10%N]) :: readlines_go [] s''
            else (cur ++ [10%N]) :: readlines_go [] s'
        | [] => [cur ++ [10%N]]
        end
      else readlines_go (cur ++ [c]) s'
  end.

Definition readlines (content : pystr) : list pystr := readlines_go [] content.

(** ** convert_words_to_mp3.py: the parser *)

(** A word entry [(chinese, english)]; [english] is [None] for a title. *)
Definition entry : Type := pystr * option pystr.

(** The body of the loop of [parse_word_file] for one line. *)
Definition parse_line (words : list entry) (line : pystr) : list entry :=
  let line := strip line in
  if bool_decide (line = []) || startswith (py "#") line then words
  else
    let parts := split_none 1 line in
    match parts with
    | chinese :: english :: _ => words ++ [(chinese, Some english)]
    | [chinese] => words ++ [(chinese, None)]
    | [] => words
    end.

Definition parse_lines (lines : list pystr) : list entry :=
  foldl parse_line [] lines.

(** ** The world of a run *)

(** Files: text, or audio clips described by what they contain. *)
Inductive file : Type :=
  | Text (content : pystr)
  | Speech (text voice rate : pystr)
  | Silence (duration_ms : N)
  | Merged (playlist : option pystr).

(** A file that was opened for writing and never written to. *)
Definition empty_file : file := Text [].

Definition text_of (f : option file) : option pystr :=
  match f with
  | Some (Text content) => Some content
  | _ => None
  end.

(** An ffmpeg command line.  [GenSilence] is the [lavfi anullsrc] command
    of [generate_silence]; [Concat] is the [-f concat] command of
    [merge_audio_files], which reads the list file it names. *)
Inductive ffmpeg_cmd : Type :=
  | GenSilence (output_file : pystr) (duration_ms : N)
  | Concat (list_file output_file : pystr).

Inductive exn : Type :=
  | CalledProcessError (cmd : ffmpeg_cmd)
  | FileNotFoundError (path : pystr)
  | UnicodeDecodeError (path : pystr).

Inductive outcome (A : Type) : Type :=
  | Ok (a : A)
  | Raise (e : exn).
Arguments Ok {A} a.
Arguments Raise {A} e.

(** What the converter prints. *)
Inductive message : Type :=
  | MsgProcessing (input_file : pystr)
  | MsgOutput (output_file : pystr)
  | MsgNoWords
  | MsgFound (n : nat)
  | MsgEntry (i n : nat) (chinese : pystr) (english : option pystr)
  | MsgMerging
  | MsgDone (output_file : pystr)
  | MsgRetry (attempt max : nat) (text : pystr)
  | MsgWarning (text : pystr)
  | MsgNoTxt (directory : pystr)
  | MsgFoundTxt (n : nat)
  | MsgBlank.

Inductive event : Type :=
  | Print (m : message)
  | Sleep (seconds : nat)
  | TtsCall (text voice rate output_file : pystr) (ok : bool)
  | Ffmpeg (cmd : ffmpeg_cmd) (reads : option pystr) (ok : bool).

(** The external collaborators.  The [n]-th call to the voice backend
    succeeds or raises as [tts_backend n] says; when it raises,
    [tts_left n] is what it leaves at the output path: nothing when it
    failed before [save] had opened the file, otherwise the file as far as
    it was written ([save] opens it for writing before the audio is
    streamed, so it is empty when nothing had arrived).
    The [n]-th ffmpeg process exits with status zero or not as
    [ffmpeg_exit n] says. *)
Record services : Type := {
  tts_backend : nat → pystr → pystr → pystr → bool;
  tts_left : nat → pystr → pystr → pystr → option file;
  ffmpeg_exit : nat → ffmpeg_cmd → bool;
  mkdtemp : nat → pystr;
  glob_txt : pystr → list pystr;
}.

Record world : Type := {
  fs : gmap pystr file;
  log : list event;
  tts_calls : nat;
  ffmpeg_calls : nat;
  tmp_dirs : nat;
}.

Definition set_fs (f : gmap pystr file → gmap pystr file) (w : world) : world :=
  {| fs := f (fs w); log := log w; tts_calls := tts_calls w;
     ffmpeg_calls := ffmpeg_calls w; tmp_dirs := tmp_dirs w |}.
Definition add_log (e : event) (w : world) : world :=
  {| fs := fs w; log := log w ++ [e]; tts_calls := tts_calls w;
     ffmpeg_calls := ffmpeg_calls w; tmp_dirs := tmp_dirs w |}.
Definition tick_tts (w : world) : world :=
  {| fs := fs w; log := log w; tts_calls := S (tts_calls w);
     ffmpeg_calls := ffmpeg_calls w; tmp_dirs := tmp_dirs w |}.
Definition tick_ffmpeg (w : world) : world :=
  {| fs := fs w; log := log w; tts_calls := tts_calls w;
     ffmpeg_calls := S (ffmpeg_calls w); tmp_dirs := tmp_dirs w |}.
Definition tick_tmp (w : world) : world :=
  {| fs := fs w; log := log w; tts_calls := tts_calls w;
     ffmpeg_calls := ffmpeg_calls w; tmp_dirs := S (tmp_dirs w) |}.

(** Computations: state passing with exceptions. *)
Definition M (A : Type) : Type := world → outcome A * world.

Definition run {A} (m : M A) (w : world) : outcome A * world := m w.

Global Instance M_ret : MRet M := λ A a w, (Ok a, w).
Global Instance M_bind : MBind M := λ A B f m w,
  match m w with
  | (Ok a, w') => f a w'
  | (Raise e, w') => (Raise e, w')
  end.

Definition raise {A} (e : exn) : M A := λ w, (Raise e, w).
Definition emit (e : event) : M unit := λ w, (Ok (), add_log e w).
Definition print (m : message) : M unit := emit (Print m).
Definition sleep (seconds : nat) : M unit := emit (Sleep seconds).
Definition write_file (path : pystr) (f : file) : M unit :=
  λ w, (Ok (), set_fs (insert path f) w).

(** ** Paths *)

Definition slash : N := 47%N.
Definition dot : N := 46%N.
Definition underscore : N := 95%N.
Definition newline : N := 10%N.

(** [os.path.join(a, b)] on POSIX. *)
Definition path_join (a b : pystr) : pystr :=
  if startswith [slash] b then b
  else if bool_decide (a = []) || startswith [slash] (rev a) then a ++ b
  else a ++ [slash] ++ b.

(** [s.rfind(c)], [None] for -1. *)
Fixpoint rfind (c : N) (s : pystr) : option nat :=
  match s with
  | [] => None
  | d :: s' =>
      match rfind c s' with
      | Some i => Some (S i)
      | None => if (d =? c)%N then Some 0 else None
      end
  end.

Fixpoint splitext_scan (p : pystr) (dotIndex : nat) (indices : list nat)
  : option pystr :=
  match indices with
  | [] => None
  | filenameIndex :: rest =>
      if bool_decide (take 1 (drop filenameIndex p) ≠ [dot])
      then Some (take dotIndex p)
      else splitext_scan p dotIndex rest
  end.

(** [os.path.splitext(p)[0]] *)
Definition splitext_root (p : pystr) : pystr :=
  match rfind dot p with
  | None => p
  | Some dotIndex =>
      let first := match rfind slash p with Some i => S i | None => 0 end in
      if first <=? dotIndex then
        match splitext_scan p dotIndex (seq first (dotIndex - first)) with
        | Some root => root
        | None => p
        end
      else p
  end.

(** True when [p] lies inside directory [d]. *)
Definition inside (d p : pystr) : bool :=
  startswith (if startswith [slash] (rev d) then d else d ++ [slash]) p.

(** [with tempfile.TemporaryDirectory() as temp_dir]: the directory and all
    it holds are removed on exit, also when the body raises. *)
Definition with_temp_dir {A} (sv : services) (body : pystr → M A) : M A :=
  λ w,
    let temp_dir := mkdtemp sv (tmp_dirs w) in
    let '(r, w') := body temp_dir (tick_tmp w) in
    (r, set_fs (filter (λ kv, inside temp_dir kv.1 = false)) w').

(** ** convert_words_to_mp3.py *)

Definition CHINESE_VOICE : pystr := py "zh-CN-XiaoxiaoNeural".
Definition ENGLISH_VOICE : pystr := py "en-US-JennyNeural".
Definition RATE : pystr := py "-10%".
Definition PAUSE_BETWEEN_WORDS : N := 800.
Definition PAUSE_BETWEEN_LANGUAGES : N := 500.
Definition MAX_RETRIES : nat := 3.

(** [subprocess.run(cmd, capture_output=True, check=True)] for ffmpeg. *)
Definition run_ffmpeg (sv : services) (cmd : ffmpeg_cmd) : M unit :=
  λ w,
    let ok := ffmpeg_exit sv (ffmpeg_calls w) cmd in
    let reads :=
      match cmd with
      | GenSilence _ _ => None
      | Concat list_file _ => text_of (fs w !! list_file)
      end in
    let w1 := add_log (Ffmpeg cmd reads ok) (tick_ffmpeg w) in
    if ok then
      match cmd with
      | GenSilence output_file duration_ms =>
          (Ok (), set_fs (insert output_file (Silence duration_ms)) w1)
      | Concat _ output_file =>
          (Ok (), set_fs (insert output_file (Merged reads)) w1)
      end
    else (Raise (CalledProcessError cmd), w1).

Definition generate_silence (sv : services) (output_file : pystr)
    (duration_ms : N) : M unit :=
  run_ffmpeg sv (GenSilence output_file duration_ms).

(** What a failed [save] leaves of the files: the output file as far as it
    was written, when it had been opened. *)
Definition leave (left : option file) (output_file : pystr) (m : gmap pystr file)
  : gmap pystr file :=
  match left with
  | Some f => <[output_file := f]> m
  | None => m
  end.

(** [edge_tts.Communicate(text, voice, rate=RATE).save(output_file)] inside
    [try]: [true] when the clip was saved, [false] when an exception was
    caught. *)
Definition communicate_save (sv : services) (text voice output_file : pystr)
  : M bool :=
  λ w,
    let ok := tts_backend sv (tts_calls w) text voice RATE in
    let left := tts_left sv (tts_calls w) text voice RATE in
    let w1 := add_log (TtsCall text voice RATE output_file ok) (tick_tts w) in
    if ok then (Ok true, set_fs (insert output_file (Speech text voice RATE)) w1)
    else (Ok false, set_fs (leave left output_file) w1).

(** The [for attempt in range(MAX_RETRIES)] loop of [text_to_speech]. *)
Fixpoint text_to_speech_loop (sv : services) (attempts : list nat)
    (text voice output_file : pystr) : M bool :=
  match attempts with
  | [] => mret false
  | attempt :: rest =>
      saved ← communicate_save sv text voice output_file;
      if saved : bool then mret true
      else if attempt <? MAX_RETRIES - 1 then
        print (MsgRetry (attempt + 1) MAX_RETRIES text);;
        sleep 1;;
        text_to_speech_loop sv rest text voice output_file
      else
        print (MsgWarning text);;
        generate_silence sv output_file 100;;
        mret false
  end.

Definition text_to_speech (sv : services) (text voice output_file : pystr)
  : M bool :=
  text_to_speech_loop sv (seq 0 MAX_RETRIES) text voice output_file.

(** [generate_word_audio]; its [output_file] argument is not used.  As in
    the word loop, the two requests of [asyncio.gather] are run one after
    the other. *)
Definition generate_word_audio (sv : services)
    (chinese english output_file temp_dir : pystr) : M (pystr * pystr) :=
  let chinese_file := path_join temp_dir (py "chinese_temp.mp3") in
  let english_file := path_join temp_dir (py "english_temp.mp3") in
  text_to_speech sv chinese CHINESE_VOICE chinese_file;;
  text_to_speech sv english ENGLISH_VOICE english_file;;
  mret (chinese_file, english_file).

(** [parse_word_file]: opening a missing file raises. *)
Definition parse_word_file (file_path : pystr) : M (list entry) :=
  λ w,
    match fs w !! file_path with
    | Some (Text content) => (Ok (parse_lines (readlines content)), w)
    | Some _ => (Raise (UnicodeDecodeError file_path), w)
    | None => (Raise (FileNotFoundError file_path), w)
    end.

(** [merge_audio_files]: write the list file, then one ffmpeg process. *)
Definition playlist (audio_files : list pystr) : pystr :=
  concat ((λ audio_file, py "file '" ++ audio_file ++ py "'" ++ [newline])
            <$> audio_files).

Definition merge_audio_files (sv : services) (audio_files : list pystr)
    (output_file temp_dir : pystr) : M unit :=
  let list_file := path_join temp_dir (py "filelist.txt") in
  write_file list_file (Text (playlist audio_files));;
  run_ffmpeg sv (Concat list_file output_file).

Definition word_file (temp_dir : pystr) (i : nat) (lang : string) : pystr :=
  path_join temp_dir (py "word_" ++ py (pretty i) ++ py "_" ++ py lang ++ py ".mp3").

(** The loop over [enumerate(words)] in [convert_file_to_mp3]; [n] is
    [len(words)].  The two requests of [asyncio.gather] are run one after
    the other. *)
Fixpoint word_loop (sv : services) (temp_dir silence_file short_silence_file : pystr)
    (n : nat) (items : list (nat * entry)) (audio_files : list pystr)
  : M (list pystr) :=
  match items with
  | [] => mret audio_files
  | (i, (chinese, english)) :: rest =>
      audio_files ←
        match english with
        | None =>
            print (MsgEntry (i + 1) n chinese None);;
            let chinese_file := word_file temp_dir i "zh" in
            text_to_speech sv chinese CHINESE_VOICE chinese_file;;
            mret (audio_files ++ [chinese_file])
        | Some english =>
            print (MsgEntry (i + 1) n chinese (Some english));;
            let chinese_file := word_file temp_dir i "zh" in
            let english_file := word_file temp_dir i "en" in
            text_to_speech sv chinese CHINESE_VOICE chinese_file;;
            text_to_speech sv english ENGLISH_VOICE english_file;;
            mret (audio_files ++ [chinese_file; short_silence_file; english_file])
        end;
      let audio_files :=
        if i <? n - 1 then audio_files ++ [silence_file] else audio_files in
      word_loop sv temp_dir silence_file short_silence_file n rest audio_files
  end.

Definition enumerate {A} (l : list A) : list (nat * A) := zip (seq 0 (length l)) l.

(** The body of the [with tempfile.TemporaryDirectory() as temp_dir] block
    of [convert_file_to_mp3]. *)
Definition assemble (sv : services) (words : list entry) (output_file : pystr)
    (temp_dir : pystr) : M unit :=
  let silence_file := path_join temp_dir (py "silence.mp3") in
  let short_silence_file := path_join temp_dir (py "short_silence.mp3") in
  generate_silence sv silence_file PAUSE_BETWEEN_WORDS;;
  generate_silence sv short_silence_file PAUSE_BETWEEN_LANGUAGES;;
  audio_files ← word_loop sv temp_dir silence_file short_silence_file
                  (length words) (enumerate words) [];
  print MsgMerging;;
  merge_audio_files sv audio_files output_file temp_dir.

(** [output_file] when given, else the input path with its extension
    replaced. *)
Definition output_path (input_file : pystr) (output_file : option pystr) : pystr :=
  match output_file with
  | None => splitext_root input_file ++ py ".mp3"
  | Some o => o
  end.

Definition convert_file_to_mp3 (sv : services) (input_file : pystr)
    (output_file : option pystr) : M bool :=
  let output_file := output_path input_file output_file in
  print (MsgProcessing input_file);;
  print (MsgOutput output_file);;
  words ← parse_word_file input_file;
  match words with
  | [] => print MsgNoWords;; mret false
  | _ =>
      print (MsgFound (length words));;
      with_temp_dir sv (assemble sv words output_file);;
      print (MsgDone output_file);;
      mret true
  end.

(** [process_directory] *)
Fixpoint process_files (sv : services) (txt_files : list pystr) : M unit :=
  match txt_files with
  | [] => mret ()
  | txt_file :: rest =>
      convert_file_to_mp3 sv txt_file None;;
      print MsgBlank;;
      process_files sv rest
  end.

Definition process_directory (sv : services) (directory : pystr) : M unit :=
  let txt_files := glob_txt sv directory in
  match txt_files with
  | [] => print (MsgNoTxt directory)
  | _ =>
      print (MsgFoundTxt (length txt_files));;
      process_files sv txt_files
  end.

(** * categorize_words.py *)

(** A Python [dict] keeps its keys in insertion order: an association list
    in which [dict_set] overwrites in place or appends. *)
Definition dict (V : Type) : Type := list (pystr * V).

Fixpoint dict_get {V} (d : dict V) (k : pystr) : option V :=
  match d with
  | [] => None
  | (k', v) :: d' => if decide (k' = k) then Some v else dict_get d' k
  end.

Fixpoint dict_set {V} (k : pystr) (v : V) (d : dict V) : dict V :=
  match d with
  | [] => [(k, v)]
  | (k', v') :: d' =>
      if decide (k' = k) then (k, v) :: d' else (k', v') :: dict_set k v d'
  end.

(** [k in d] *)
Definition dict_in {V} (k : pystr) (d : dict V) : bool :=
  match dict_get d k with Some _ => true | None => false end.

(** [s[start:end]] for indices that are not negative. *)
Definition slice {A} (l : list A) (start end_ : nat) : list A :=
  drop start (take end_ l).

(** [range(0, stop, step)] *)
Definition py_range (stop step : nat) : list nat :=
  (λ k, k * step) <$> seq 0 ((stop + step - 1) / step).

(** [s.split(sep)] for a one-character separator. *)
Fixpoint split_on (sep : N) (s : pystr) : list pystr :=
  match s with
  | [] => [[]]
  | c :: s' =>
      if (c =? sep)%N then [] :: split_on sep s'
      else match split_on sep s' with
           | part :: parts => (c :: part) :: parts
           | [] => [[c]]
           end
  end.

(** Comparison of [str] values: lexicographic on code points. *)
Fixpoint str_leb (a b : pystr) : bool :=
  match a, b with
  | [], _ => true
  | _ :: _, [] => false
  | x :: a', y :: b' =>
      if (x <? y)%N then true
      else if (x =? y)%N then str_leb a' b' else false
  end.

(** [sorted]: a stable sort, by insertion. *)
Fixpoint sorted_insert {A} (leb : A → A → bool) (x : A) (l : list A) : list A :=
  match l with
  | [] => [x]
  | y :: l' => if leb x y then x :: y :: l' else y :: sorted_insert leb x l'
  end.

Definition sorted_by {A} (leb : A → A → bool) (l : list A) : list A :=
  foldr (sorted_insert leb) [] l.

(** [needle in s] for two strings. *)
Fixpoint contains (s needle : pystr) : bool :=
  startswith needle s ||
  match s with
  | [] => false
  | _ :: s' => contains s' needle
  end.

(** What [json.load] returns, as far as the script uses it.  Of an object
    it uses the keys and, when a line of a category file is formatted, the
    text [str()] gives for a value, which for a string is the string: an
    object is kept as the dict from its keys to these texts.  Of an array it
    uses the length and which items are equal to a given string: its items
    are kept, [None] for one that is not a string.  The other values are a
    string and, with nothing the script can do to them but fail, [null], a
    boolean or a number. *)
Inductive json : Type :=
  | JObject (members : dict pystr)
  | JArray (items : list (option pystr))
  | JString (s : pystr)
  | JOther.

(** The files of the categorizer.  A file is known by its text, which
    [json.load] does not accept, or by the value [json.load] returns for it;
    the characters of such a JSON document are not kept, so it cannot stand
    for a word list. *)
Inductive document : Type :=
  | Plain (content : pystr)
  | Json (value : json).

(** The exceptions that leave the categorizer. *)
Inductive py_error : Type :=
  | TypeError
  | AttributeError
  | ZeroDivisionError
  | OSError.

Inductive result (A : Type) : Type :=
  | Done (a : A)
  | Failed (e : py_error).
Arguments Done {A} a.
Arguments Failed {A} e.

Inductive notice : Type :=
  | CacheLoaded (n : nat)
  | Translating (n : nat)
  | Progress (done total : nat)
  | BatchFailed
  | CacheSaved (cache_file : pystr)
  | Saved (cat_name : pystr) (n : nat)
  | Loading
  | Loaded (n : nat)
  | TranslatingWords
  | Classifying
  | Statistics
  | CategoryCount (cat_name : pystr) (n : nat)
  | UncategorizedCount (n : nat)
  | Splitting
  | FinalCount (n : nat)
  | Saving
  | Finished (output_dir : pystr).

(** What the categorizer does to the outside: calls of the translation
    backend, with what came back ([None] when it raised), and prints. *)
Inductive cat_event : Type :=
  | TranslateBatch (batch : list pystr) (result : option pystr)
  | TranslateWord (word : pystr) (result : option pystr)
  | Say (m : notice).

(** The translation backend answers its [n]-th call as [translator n]
    says; [synsets] gives the lexicographer files of the synsets WordNet
    has for a lemma, most frequent sense first. *)
Record lexicon : Type := {
  translator : nat → pystr → option pystr;
  synsets : pystr → list pystr;
}.

Record cat_world : Type := {
  docs : gmap pystr document;
  journal : list cat_event;
  translator_calls : nat;
}.

Definition record (e : cat_event) (w : cat_world) : cat_world :=
  {| docs := docs w; journal := journal w ++ [e];
     translator_calls := translator_calls w |}.
Definition say (m : notice) (w : cat_world) : cat_world := record (Say m) w.
Definition write_doc (path : pystr) (d : document) (w : cat_world) : cat_world :=
  {| docs := <[path := d]> (docs w); journal := journal w;
     translator_calls := translator_calls w |}.

(** [translator.translate(text)] *)
Definition translate (L : lexicon) (w : cat_world) (text : pystr)
  : option pystr * cat_world :=
  (translator L (translator_calls w) text,
   {| docs := docs w; journal := journal w;
      translator_calls := S (translator_calls w) |}).

(** WordNet lexicographer file -> Chinese category, and the coarser
    categories these are merged into. *)
Definition LEXNAME_TO_CHINESE : dict pystr :=
  [ (py "noun.Tops", [22522; 30784; 27010; 24565]%N);
    (py "noun.act", [34892; 20026; 21160; 20316]%N);
    (py "noun.animal", [21160; 29289]%N);
    (py "noun.artifact", [20154; 36896; 29289; 21697]%N);
    (py "noun.attribute", [23646; 24615; 29305; 24449]%N);
    (py "noun.body", [36523; 20307; 37096; 20301]%N);
    (py "noun.cognition", [35748; 30693; 24605; 32500]%N);
    (py "noun.communication", [20132; 27969; 36890; 35759]%N);
    (py "noun.event", [20107; 20214]%N);
    (py "noun.feeling", [24773; 24863; 24863; 21463]%N);
    (py "noun.food", [39135; 29289; 39278; 21697]%N);
    (py "noun.group", [32676; 20307; 32452; 32455]%N);
    (py "noun.location", [22320; 28857; 20301; 32622]%N);
    (py "noun.motive", [21160; 26426; 30446; 30340]%N);
    (py "noun.object", [33258; 28982; 29289; 20307]%N);
    (py "noun.person", [20154; 29289; 35282; 33394]%N);
    (py "noun.phenomenon", [33258; 28982; 29616; 35937]%N);
    (py "noun.plant", [26893; 29289]%N);
    (py "noun.possession", [36130; 20135; 25152; 26377]%N);
    (py "noun.process", [36807; 31243; 21464; 21270]%N);
    (py "noun.quantity", [25968; 37327; 24230; 37327]%N);
    (py "noun.relation", [20851; 31995]%N);
    (py "noun.shape", [24418; 29366]%N);
    (py "noun.state", [29366; 24577; 24773; 20917]%N);
    (py "noun.substance", [29289; 36136; 26448; 26009]%N);
    (py "noun.time", [26102; 38388]%N);
    (py "verb.body", [36523; 20307; 21160; 20316]%N);
    (py "verb.change", [21464; 21270; 25913; 21464]%N);
    (py "verb.cognition", [24605; 32771; 35748; 30693]%N);
    (py "verb.communication", [35328; 35821; 20132; 27969]%N);
    (py "verb.competition", [31454; 20105; 27604; 36187]%N);
    (py "verb.consumption", [28040; 36153; 20351; 29992]%N);
    (py "verb.contact", [25509; 35302; 21160; 20316]%N);
    (py "verb.creation", [21019; 36896; 21046; 20316]%N);
    (py "verb.emotion", [24773; 24863; 34920; 36798]%N);
    (py "verb.motion", [31227; 21160; 36816; 21160]%N);
    (py "verb.perception", [24863; 30693; 24863; 35273]%N);
    (py "verb.possession", [25317; 26377; 33719; 21462]%N);
    (py "verb.social", [31038; 20250; 20132; 24448]%N);
    (py "verb.stative", [29366; 24577; 25551; 36848]%N);
    (py "verb.weather", [22825; 27668; 30456; 20851]%N);
    (py "adj.all", [24418; 23481; 35789; 36890; 29992]%N);
    (py "adj.pert", [24418; 23481; 35789; 20851; 31995]%N);
    (py "adj.ppl", [20998; 35789; 24418; 23481; 35789]%N);
    (py "adv.all", [21103; 35789]%N) ].

Definition CATEGORY_MERGE : dict pystr :=
  [ ([22522; 30784; 27010; 24565]%N, [22522; 30784; 35789; 27719]%N);
    ([34892; 20026; 21160; 20316]%N, [34892; 20026; 21160; 20316]%N);
    ([21160; 29289]%N, [21160; 29289; 33258; 28982]%N);
    ([20154; 36896; 29289; 21697]%N, [26085; 24120; 29289; 21697]%N);
    ([23646; 24615; 29305; 24449]%N, [23646; 24615; 29305; 24449]%N);
    ([36523; 20307; 37096; 20301]%N, [36523; 20307; 20581; 24247]%N);
    ([35748; 30693; 24605; 32500]%N, [24605; 32500; 35748; 30693]%N);
    ([20132; 27969; 36890; 35759]%N, [35821; 35328; 20132; 27969]%N);
    ([20107; 20214]%N, [20107; 20214; 27963; 21160]%N);
    ([24773; 24863; 24863; 21463]%N, [24773; 24863; 24515; 29702]%N);
    ([39135; 29289; 39278; 21697]%N, [39135; 29289; 39278; 21697]%N);
    ([32676; 20307; 32452; 32455]%N, [31038; 20250; 32452; 32455]%N);
    ([22320; 28857; 20301; 32622]%N, [22320; 28857; 22330; 25152]%N);
    ([21160; 26426; 30446; 30340]%N, [24605; 32500; 35748; 30693]%N);
    ([33258; 28982; 29289; 20307]%N, [33258; 28982; 29615; 22659]%N);
    ([20154; 29289; 35282; 33394]%N, [20154; 29289; 32844; 19994]%N);
    ([33258; 28982; 29616; 35937]%N, [33258; 28982; 29615; 22659]%N);
    ([26893; 29289]%N, [21160; 29289; 33258; 28982]%N);
    ([36130; 20135; 25152; 26377]%N, [32463; 27982; 21830; 19994]%N);
    ([36807; 31243; 21464; 21270]%N, [21464; 21270; 21457; 23637]%N);
    ([25968; 37327; 24230; 37327]%N, [25968; 37327; 24230; 37327]%N);
    ([20851; 31995]%N, [20851; 31995; 36830; 25509]%N);
    ([24418; 29366]%N, [24418; 29366; 22806; 35266]%N);
    ([29366; 24577; 24773; 20917]%N, [29366; 24577; 24773; 20917]%N);
    ([29289; 36136; 26448; 26009]%N, [29289; 36136; 26448; 26009]%N);
    ([26102; 38388]%N, [26102; 38388]%N);
    ([36523; 20307; 21160; 20316]%N, [36523; 20307; 20581; 24247]%N);
    ([21464; 21270; 25913; 21464]%N, [21464; 21270; 21457; 23637]%N);
    ([24605; 32771; 35748; 30693]%N, [24605; 32500; 35748; 30693]%N);
    ([35328; 35821; 20132; 27969]%N, [35821; 35328; 20132; 27969]%N);
    ([31454; 20105; 27604; 36187]%N, [31454; 20105; 27604; 36187]%N);
    ([28040; 36153; 20351; 29992]%N, [26085; 24120; 29983; 27963]%N);
    ([25509; 35302; 21160; 20316]%N, [34892; 20026; 21160; 20316]%N);
    ([21019; 36896; 21046; 20316]%N, [21019; 36896; 33402; 26415]%N);
    ([24773; 24863; 34920; 36798]%N, [24773; 24863; 24515; 29702]%N);
    ([31227; 21160; 36816; 21160]%N, [36816; 21160; 20986; 34892]%N);
    ([24863; 30693; 24863; 35273]%N, [24863; 30693; 24863; 35273]%N);
    ([25317; 26377; 33719; 21462]%N, [32463; 27982; 21830; 19994]%N);
    ([31038; 20250; 20132; 24448]%N, [31038; 20250; 32452; 32455]%N);
    ([29366; 24577; 25551; 36848]%N, [29366; 24577; 24773; 20917]%N);
    ([22825; 27668; 30456; 20851]%N, [33258; 28982; 29615; 22659]%N);
    ([24418; 23481; 35789; 36890; 29992]%N, [25551; 36848; 24418; 23481]%N);
    ([24418; 23481; 35789; 20851; 31995]%N, [25551; 36848; 24418; 23481]%N);
    ([20998; 35789; 24418; 23481; 35789]%N, [25551; 36848; 24418; 23481]%N);
    ([21103; 35789]%N, [31243; 24230; 26041; 24335]%N) ].

Definition OTHER : pystr := [20854; 20182]%N.
Definition UNCATEGORIZED : pystr := [26410; 20998; 31867; 35789; 27719]%N.

(** [s.replace(old, new)] for a one-character [old]. *)
Definition replace_char (old : N) (new : pystr) (s : pystr) : pystr :=
  concat ((λ c, if (c =? old)%N then new else [c]) <$> s).

Definition get_word_category (L : lexicon) (word : pystr) : option pystr :=
  let word_clean := replace_char 32 [underscore] word in
  let found := synsets L word_clean in
  let found :=
    match found with
    | [] => synsets L (replace_char 32 [] word)
    | _ => found
    end in
  match found with
  | [] => None
  | lexname :: _ =>
      let chinese_cat := default OTHER (dict_get LEXNAME_TO_CHINESE lexname) in
      Some (default chinese_cat (dict_get CATEGORY_MERGE chinese_cat))
  end.

(** The loop of [load_words] over the lines of the file. *)
Definition load_line (words : list pystr) (line : pystr) : list pystr :=
  let word := strip line in
  if negb (bool_decide (word = [])) && negb (bool_decide (word ∈ words))
  then words ++ [word] else words.

(** [load_words]; the [utf-8-sig] codec drops a leading byte order mark.
    [None] when there is no text to read at [filepath]: [open] raises for a
    missing file. *)
Definition load_words (filepath : pystr) (w : cat_world) : option (list pystr) :=
  match docs w !! filepath with
  | Some (Plain content) =>
      let content :=
        match content with
        | c :: rest => if (c =? 65279)%N then rest else content
        | [] => []
        end in
      Some (foldl load_line [] (readlines content))
  | _ => None
  end.

(** The per-word fallback of [translate_words]. *)
Definition translate_word (L : lexicon) (st : dict pystr * cat_world)
    (word : pystr) : dict pystr * cat_world :=
  let '(translations, w) := st in
  let '(result, w) := translate L w word in
  let w := record (TranslateWord word result) w in
  match result with
  | Some trans => (dict_set word trans translations, w)
  | None => (dict_set word word translations, w)
  end.

Definition batch_size : nat := 50.

(** One round of the batch loop of [translate_words], for index [i]. *)
Definition translate_batch (L : lexicon) (words_to_translate : list pystr)
    (st : dict pystr * cat_world) (i : nat) : dict pystr * cat_world :=
  let '(translations, w) := st in
  let batch := slice words_to_translate i (i + batch_size) in
  let text := join [newline] batch in
  let '(result, w) := translate L w text in
  let w := record (TranslateBatch batch result) w in
  match result with
  | Some result =>
      let translated := split_on newline result in
      let translations :=
        foldl (λ translations wt, dict_set wt.1 (strip wt.2) translations)
          translations (zip batch translated) in
      let w :=
        if (i + batch_size) mod 200 =? 0
        then say (Progress (min (i + batch_size) (length words_to_translate))
                    (length words_to_translate)) w
        else w in
      (translations, w)
  | None => foldl (translate_word L) (translations, say BatchFailed w) batch
  end.

(** The value of [translations] once the cache was tried: the empty dict
    unless a cache file name is given and the file is there and holds JSON;
    then whatever [json.load] returned, of any type, announced when it has
    a length. *)
Definition load_cache (cache_file : option pystr) (w : cat_world)
  : json * cat_world :=
  match cache_file with
  | Some (c :: p) =>
      match docs w !! (c :: p) with
      | Some (Json translations) =>
          (translations,
           match translations with
           | JObject members => say (CacheLoaded (length members)) w
           | JArray items => say (CacheLoaded (length items)) w
           | JString s => say (CacheLoaded (length s)) w
           | JOther => w
           end)
      | _ => (JObject [], w)
      end
  | _ => (JObject [], w)
  end.

(** [translate_words] from the list comprehension on, for [translations] a
    dict. *)
Definition translate_missing (L : lexicon) (words : list pystr)
    (cache_file : option pystr) (translations : dict pystr) (w : cat_world)
  : dict pystr * cat_world :=
  let words_to_translate :=
    List.filter (λ x, negb (dict_in x translations)) words in
  match words_to_translate with
  | [] => (translations, w)
  | _ =>
      let w := say (Translating (length words_to_translate)) w in
      let '(translations, w) :=
        foldl (translate_batch L words_to_translate) (translations, w)
          (py_range (length words_to_translate) batch_size) in
      match cache_file with
      | Some (c :: p) =>
          (translations,
           say (CacheSaved (c :: p))
             (write_doc (c :: p) (Json (JObject translations)) w))
      | _ => (translations, w)
      end
  end.

(** The same for [translations] a list or a string, which take no item
    assignment with a string as index: in the first batch the assignment in
    the [try] block raises [TypeError], if the backend has not raised
    before; the handler prints, calls the backend for the first word, and
    its own [translations[word] = word] raises [TypeError] out of
    [translate_words]. *)
Definition translate_unassignable (L : lexicon) (words_to_translate : list pystr)
    (translations : json) (w : cat_world) : result json * cat_world :=
  match words_to_translate with
  | [] => (Done translations, w)
  | word :: _ =>
      let w := say (Translating (length words_to_translate)) w in
      let batch := slice words_to_translate 0 (0 + batch_size) in
      let '(result, w) := translate L w (join [newline] batch) in
      let w := say BatchFailed (record (TranslateBatch batch result) w) in
      let '(result, w) := translate L w word in
      (Failed TypeError, record (TranslateWord word result) w)
  end.

Definition translate_words (L : lexicon) (words : list pystr)
    (cache_file : option pystr) (w : cat_world) : result json * cat_world :=
  let '(translations, w) := load_cache cache_file w in
  match translations with
  | JObject members =>
      let '(members, w) := translate_missing L words cache_file members w in
      (Done (JObject members), w)
  | JArray items =>
      translate_unassignable L
        (List.filter (λ x, negb (bool_decide (Some x ∈ items))) words)
        translations w
  | JString s =>
      translate_unassignable L
        (List.filter (λ x, negb (contains s x)) words) translations w
  | JOther =>
      (* [w not in translations] raises for the first word *)
      match words with
      | [] => (Done JOther, w)
      | _ => (Failed TypeError, w)
      end
  end.

(** The loop of [categorize_words]. *)
Definition categorize_word (L : lexicon)
    (st : dict (list pystr) * list pystr) (word : pystr)
  : dict (list pystr) * list pystr :=
  let '(categories, uncategorized) := st in
  match get_word_category L word with
  | Some (c :: name) =>
      (dict_set (c :: name)
         (default [] (dict_get categories (c :: name)) ++ [word]) categories,
       uncategorized)
  | _ => (categories, uncategorized ++ [word])
  end.

Definition categorize_words (L : lexicon) (words : list pystr)
  : dict (list pystr) * list pystr :=
  foldl (categorize_word L) ([], []) words.

(** The inner loop of [split_large_categories] for one oversized category. *)
Definition split_part (max_size num_parts : nat) (cat_name : pystr)
    (words : list pystr) (result : dict (list pystr)) (i : nat)
  : dict (list pystr) :=
  let start := i * max_size in
  let end_ := min ((i + 1) * max_size) (length words) in
  let sub_words := slice words start end_ in
  let sub_name :=
    if 1 <? num_parts then cat_name ++ [underscore] ++ py (pretty (i + 1))
    else cat_name in
  dict_set sub_name sub_words result.

(** One round of the outer loop; [None] stands for the [ZeroDivisionError]
    of [// max_size]. *)
Definition split_category (max_size : nat) (result : dict (list pystr))
    (item : pystr * list pystr) : option (dict (list pystr)) :=
  let '(cat_name, words) := item in
  if length words <=? max_size then Some (dict_set cat_name words result)
  else
    match max_size with
    | 0 => None
    | _ =>
        let num_parts := (length words + max_size - 1) / max_size in
        Some (foldl (split_part max_size num_parts cat_name words) result
                (seq 0 num_parts))
    end.

Fixpoint split_loop (max_size : nat) (items : dict (list pystr))
    (result : dict (list pystr)) : option (dict (list pystr)) :=
  match items with
  | [] => Some result
  | item :: rest =>
      match split_category max_size result item with
      | Some result => split_loop max_size rest result
      | None => None
      end
  end.

Definition split_large_categories (categories : dict (list pystr))
    (max_size : nat) : option (dict (list pystr)) :=
  split_loop max_size categories [].

(** The text [save_categories] writes for one category. *)
Definition category_text (translations : dict pystr) (cat_name : pystr)
    (words : list pystr) : pystr :=
  let display_name := replace_char underscore [] cat_name in
  (display_name ++ [newline]) ++
  concat ((λ word,
             let chinese := default word (dict_get translations word) in
             chinese ++ py " " ++ word ++ [newline])
          <$> sorted_by str_leb words).

Definition save_category (output_dir : pystr) (translations : dict pystr)
    (w : cat_world) (item : pystr * list pystr) : cat_world :=
  let '(cat_name, words) := item in
  let filename := path_join output_dir (cat_name ++ py ".txt") in
  say (Saved cat_name (length words))
    (write_doc filename (Plain (category_text translations cat_name words)) w).

Definition save_categories (categories : dict (list pystr)) (output_dir : pystr)
    (translations : dict pystr) (w : cat_world) : cat_world :=
  foldl (save_category output_dir translations) w categories.




(** * The vocabulary of the statements *)

Definition is_space (c : N) : Prop := isspace c = true.
Definition non_space (c : N) : Prop := isspace c = false.

(** The two shapes a stripped, non-empty line can have: one word, or a
    word, a run of whitespace and a remainder that starts with a
    non-whitespace character. *)
Inductive splits_as (t : pystr) : entry → Prop :=
  | splits_one :
      t ≠ [] → Forall non_space t → splits_as t (t, None)
  | splits_two chinese gap english c rest :
      t = chinese ++ gap ++ english →
      chinese ≠ [] → Forall non_space chinese →
      gap ≠ [] → Forall is_space gap →
      english = c :: rest → non_space c →
      splits_as t (chinese, Some english).

(** A line is kept when, once stripped, it is neither empty nor a comment. *)
Definition kept (line : pystr) : bool :=
  negb (bool_decide (strip line = [])) && negb (startswith (py "#") (strip line)).

(** The whole file of the end-to-end example. *)
Definition example_words : pystr :=
  [33529; 26524]%N ++ py " apple" ++ [newline] ++
  [39321; 34121]%N ++ py " banana" ++ [newline].

(** [emits P m]: whatever [m] does, it only appends events satisfying [P]
    to the log. *)
Definition emits {A} (P : event → Prop) (m : M A) : Prop :=
  ∀ w, ∃ evs, log (run m w).2 = log w ++ evs ∧ Forall P evs.

(** The events of one synthesis request. *)
Definition synthesis_event (output_file : pystr) (e : event) : Prop :=
  match e with
  | TtsCall _ _ _ o _ => o = output_file
  | Sleep _ => True
  | Print (MsgRetry _ _ _) | Print (MsgWarning _) => True
  | Ffmpeg (GenSilence o d) _ _ => o = output_file ∧ d = 100%N
  | _ => False
  end.

(** The file for the clip of entry [i] in one language. *)
Definition clip_path (temp_dir : pystr) (i : nat) (lang : string) : pystr :=
  path_join temp_dir
    (py "word_" ++ py (pretty i) ++ py "_" ++ py lang ++ py ".mp3").

(** The fragments one entry contributes. *)
Definition entry_fragments (temp_dir : pystr) (i : nat) (e : entry) : list pystr :=
  match e.2 with
  | None => [clip_path temp_dir i "zh"]
  | Some _ =>
      [clip_path temp_dir i "zh";
       path_join temp_dir (py "short_silence.mp3");
       clip_path temp_dir i "en"]
  end.

(** The entries' fragments in document order, the inter-word silence
    between consecutive entries. *)
Definition fragments (temp_dir : pystr) (words : list entry) : list pystr :=
  join [path_join temp_dir (py "silence.mp3")]
    (imap (entry_fragments temp_dir) words).

Definition bilingual (e : entry) : Prop := is_Some e.2.

(** The list file of ffmpeg's concat demuxer for a sequence of files: one
    line [file '<path>'] per file. *)
Definition listing (paths : list pystr) : pystr :=
  concat ((λ p, py "file '" ++ p ++ py "'" ++ [newline]) <$> paths).

(** What a fragment is to hold: a text spoken by a voice, or a pause. *)
Inductive slot : Type :=
  | Spoken (text voice : pystr)
  | Pause (duration_ms : N).

(** The slots of one entry: its primary text and, for a bilingual entry,
    the inter-language pause and its secondary text. *)
Definition entry_slots (e : entry) : list slot :=
  match e.2 with
  | None => [Spoken e.1 CHINESE_VOICE]
  | Some english =>
      [Spoken e.1 CHINESE_VOICE; Pause 500; Spoken english ENGLISH_VOICE]
  end.

(** The slots of a word list: those of its entries in document order, the
    inter-word pause between consecutive entries. *)
Definition slots (words : list entry) : list slot :=
  join [Pause 800] (entry_slots <$> words).

(** The file [f] fills the slot: a pause by silence of its duration, a
    spoken text by the clip of that text in that voice, or by the 100 ms
    silence that stands for it when the voice backend failed. *)
Definition fills (f : option file) (s : slot) : Prop :=
  match s with
  | Spoken text voice => f = Some (Speech text voice RATE) ∨ f = Some (Silence 100)
  | Pause duration_ms => f = Some (Silence duration_ms)
  end.

(** The two shared silences and the clips of the entries [done], each
    numbered, are in place. *)
Definition slot_files (temp_dir : pystr) (done : list (nat * entry)) (w : world)
  : Prop :=
  fills (fs w !! path_join temp_dir (py "silence.mp3")) (Pause 800) ∧
  fills (fs w !! path_join temp_dir (py "short_silence.mp3")) (Pause 500) ∧
  ∀ j e, (j, e) ∈ done →
    fills (fs w !! clip_path temp_dir j "zh") (Spoken e.1 CHINESE_VOICE) ∧
    match e.2 with
    | Some english =>
        fills (fs w !! clip_path temp_dir j "en") (Spoken english ENGLISH_VOICE)
    | None => True
    end.

Definition entry_size (e : entry) : nat :=
  match e.2 with None => 1 | Some _ => 3 end.

(** What the word loop prints and calls. *)
Definition loop_event (e : event) : Prop :=
  match e with
  | Print (MsgEntry _ _ _ _) => True
  | _ => ∃ output_file, synthesis_event output_file e
  end.

(** The backend calls and the waits among the events of a request. *)
Definition attempt_of (e : event) : option (bool + nat) :=
  match e with
  | TtsCall _ _ _ _ ok => Some (inl ok)
  | Sleep seconds => Some (inr seconds)
  | _ => None
  end.

Definition schedule (evs : list event) : list (bool + nat) := omap attempt_of evs.

Definition new_events (w w' : world) : list event := drop (length (log w)) (log w').

(** What ffmpeg was handed by the [concat] commands among [evs]. *)
Definition concat_reads (evs : list event) : list (option pystr) :=
  omap (λ e, match e with
             | Ffmpeg (Concat _ _) reads _ => Some reads
             | _ => None
             end) evs.


(** The input files of the jobs started among [evs], in order. *)
Definition started (evs : list event) : list pystr :=
  omap (λ e, match e with
             | Print (MsgProcessing input_file) => Some input_file
             | _ => None
             end) evs.

Definition str_le (a b : pystr) : Prop := str_leb a b = true.

(** The line of one word: its translation, or the word itself when it has
    none, a space, and the word. *)
Definition word_line (translations : dict pystr) (word : pystr) : pystr :=
  default word (dict_get translations word) ++ py " " ++ word ++ [newline].

(** [d] is the file of the category [cat_name]: the name without its
    underscores as title line, then the lines of the words in sorted order. *)
Definition category_file (translations : dict pystr) (cat_name : pystr)
    (words : list pystr) (d : document) : Prop :=
  ∃ sorted_words,
    Sorted str_le sorted_words ∧ sorted_words ≡ₚ words ∧
    d = Plain ((filter (λ x, x ≠ underscore) cat_name ++ [newline]) ++
               concat (word_line translations <$> sorted_words)).

Definition category_path (output_dir cat_name : pystr) : pystr :=
  path_join output_dir (cat_name ++ py ".txt").

Definition num_parts (words : list pystr) : nat := (length words + 60 - 1) / 60.

(** The [i]-th slice of an oversized category and the name it gets. *)
Definition part (words : list pystr) (i : nat) : list pystr :=
  slice words (i * 60) (min ((i + 1) * 60) (length words)).

Definition part_name (cat_name : pystr) (i : nat) : pystr :=
  cat_name ++ [underscore] ++ py (pretty (i + 1)).

(** What one category puts into the result, in order. *)
Definition category_assignments (item : pystr * list pystr)
  : list (pystr * list pystr) :=
  if length item.2 <=? 60 then [item]
  else (λ i, (part_name item.1 i, part item.2 i)) <$> seq 0 (num_parts item.2).

Definition assignments (categories : dict (list pystr)) : list (pystr * list pystr) :=
  concat (category_assignments <$> categories).

(** The names of the output categories, one per assignment. *)
Definition output_names (categories : dict (list pystr)) : list pystr :=
  (assignments categories).*1.

Definition assign (result : dict (list pystr)) (kv : pystr * list pystr)
  : dict (list pystr) :=
  dict_set kv.1 kv.2 result.

(** What is loaded from the cache file is the dict [cache]: the file holds
    a JSON object, or there is no cache file that can be read as JSON and
    [cache] is empty. *)
Definition loads_dict (cache_file : option pystr) (w : cat_world)
    (cache : dict pystr) : Prop :=
  (load_cache cache_file w).1 = JObject cache.

Definition new_journal (w w' : cat_world) : list cat_event :=
  drop (length (journal w)) (journal w').

(** The batches sent to the backend among [evs], and the words sent one
    by one. *)
Definition batches_sent (evs : list cat_event) : list (list pystr) :=
  omap (λ e, match e with TranslateBatch b _ => Some b | _ => None end) evs.

Definition words_retried (evs : list cat_event) : list pystr :=
  omap (λ e, match e with TranslateWord x _ => Some x | _ => None end) evs.

(** Every call among [evs] that carried [x] failed. *)
Definition fails_for (x : pystr) (e : cat_event) : Prop :=
  match e with
  | TranslateBatch b result => x ∈ b → result = None
  | TranslateWord y result => y = x → result = None
  | Say _ => True
  end.

(** Services whose voice backend and ffmpeg always succeed or always fail. *)
Definition demo_services (tts ffmpeg : bool) : services :=
  {| tts_backend := λ _ _ _ _, tts;
     tts_left := λ _ _ _ _, Some empty_file;
     ffmpeg_exit := λ _ _, ffmpeg;
     mkdtemp := λ n, py "/tmp/tmp" ++ py (pretty n);
     glob_txt := λ d, [path_join d (py "empty.txt"); path_join d (py "words.txt")] |}.

(** A directory with the word list of the example and a list that holds
    only a comment and blank lines. *)
Definition demo_world : world :=
  {| fs := {[ py "lists/words.txt" := Text example_words;
              py "lists/empty.txt" :=
                Text (py "# title" ++ [newline; 32%N; newline]) ]};
     log := []; tts_calls := 0; ffmpeg_calls := 0; tmp_dirs := 0 |}.


Definition demo_cat_world : cat_world :=
  {| docs := ∅; journal := []; translator_calls := 0 |}.

(** A small category named like the first part of a large one. *)
Definition demo_categories : dict (list pystr) :=
  [ (py "A_1", [py "x"]); (py "A", replicate 61 (py "w")) ].

(** ** Frames, postconditions and counts *)

(** What every parsed entry looks like. *)
Definition entry_ok (e : entry) : Prop :=
  e.1 ≠ [] ∧ Forall non_space e.1 ∧ startswith (py "#") e.1 = false ∧
  match e.2 with
  | None => True
  | Some english =>
      (∃ c rest, english = c :: rest ∧ non_space c) ∧
      (∃ d front, english = front ++ [d] ∧ non_space d)
  end.

(** The line an entry comes from, in its plainest form. *)
Definition render_entry (e : entry) : pystr :=
  match e.2 with
  | None => e.1 ++ [newline]
  | Some english => e.1 ++ py " " ++ english ++ [newline]
  end.

(** [steps R m]: running [m] takes every world to one related to it by [R]. *)
Definition steps {A} (R : world → world → Prop) (m : M A) : Prop :=
  ∀ w, R w (run m w).2.

(** Files other than those satisfying [P] are as they were. *)
Definition same_outside (P : pystr → Prop) (w w' : world) : Prop :=
  ∀ p, ¬ P p → fs w' !! p = fs w !! p.

(** No file disappears. *)
Definition keeps_files (w w' : world) : Prop :=
  ∀ p, is_Some (fs w !! p) → is_Some (fs w' !! p).

(** At most [a] more backend calls and [b] more ffmpeg runs. *)
Definition calls_within (a b : nat) {A} (m : M A) : Prop :=
  ∀ w,
    tts_calls w ≤ tts_calls (run m w).2 ≤ tts_calls w + a ∧
    ffmpeg_calls w ≤ ffmpeg_calls (run m w).2 ≤ ffmpeg_calls w + b.

(** Files satisfying [P] may be written, nothing is removed. *)
Definition grows_within (P : pystr → Prop) (w w' : world) : Prop :=
  same_outside P w w' ∧ keeps_files w w'.

(** The file an ffmpeg command writes. *)
Definition cmd_output (cmd : ffmpeg_cmd) : pystr :=
  match cmd with
  | GenSilence output_file _ => output_file
  | Concat _ output_file => output_file
  end.

(** From a world satisfying [P], [m] returns [a] in a world satisfying
    [Q a], or raises [e] in a world satisfying [E e]. *)
Definition hoare {A} (P : world → Prop) (m : M A)
    (Q : A → world → Prop) (E : exn → world → Prop) : Prop :=
  ∀ w, P w →
    match run m w with
    | (Ok a, w') => Q a w'
    | (Raise e, w') => E e w'
    end.

(** An audio clip made by the voice backend or by [generate_silence]. *)
Definition is_clip (f : option file) : Prop :=
  match f with
  | Some (Speech _ _ _) | Some (Silence _) => True
  | _ => False
  end.

(** Each path of [paths] holds a clip and is not the list file [lf]. *)
Definition clips (lf : pystr) (paths : list pystr) (w : world) : Prop :=
  Forall (λ p, p ≠ lf ∧ is_clip (fs w !! p)) paths.

(** On return [m] has written a clip to [o] and nothing else; when it
    raises it has at most left something at [o]. *)
Definition writes_clip {A} (o : pystr) (m : M A) : Prop :=
  ∀ w,
    match run m w with
    | (Ok _, w') => ∃ f, is_clip (Some f) ∧ fs w' = <[o := f]> (fs w)
    | (Raise _, w') => ∃ left, fs w' = leave left o (fs w)
    end.

(** The texts of a word list: one for a title line, two for a bilingual
    entry. *)
Definition texts (words : list entry) : nat :=
  sum_list ((λ e : entry, match e.2 with None => 1 | Some _ => 2 end) <$> words).

(** The numbers of backend calls and of ffmpeg runs made so far. *)
Definition counters (c k : nat) (w : world) : Prop :=
  tts_calls w = c ∧ ffmpeg_calls w = k.

(** A string that is not empty and neither starts nor ends with
    whitespace. *)
Definition trimmed (x : pystr) : Prop :=
  (∃ c rest, x = c :: rest ∧ non_space c) ∧
  (∃ front d, x = front ++ [d] ∧ non_space d).

(** The lines of the file [load_words] reads, without the byte order
    mark. *)
Definition lines_of (filepath : pystr) (w : cat_world) : list pystr :=
  match docs w !! filepath with
  | Some (Plain (c :: rest)) =>
      readlines (if (c =? 65279)%N then rest else c :: rest)
  | _ => []
  end.

(** The categories a word can be put in: the values of [CATEGORY_MERGE],
    or the fallback name. *)
Definition category_names : list pystr := OTHER :: CATEGORY_MERGE.*2.

(** The words of [words] whose category is [category], in order. *)
Definition words_of (L : lexicon) (category : option pystr) (words : list pystr)
  : list pystr :=
  filter (λ x, get_word_category L x = category) words.

(** A category exists once it has a word. *)
Definition bucket (ws : list pystr) : option (list pystr) :=
  match ws with [] => None | _ => Some ws end.



(** A cache file that holds a JSON object. *)
Definition demo_cache : cat_world :=
  {| docs := {[ py "c.json" := Json (JObject [(py "cat", py "mao")]) ]};
     journal := []; translator_calls := 0 |}.


(** A backend that answers every text with the same two lines. *)
Definition demo_translator : lexicon :=
  {| translator := λ _ _, Some (py "mao" ++ [newline] ++ py " gou ");
     synsets := λ _, [] |}.

(** * Properties *)

(** ** Whitespace stripping and splitting *)

Lemma lstrip_head s :
  match lstrip s with [] => True | c :: _ => non_space c end.
Proof.
  induction s as [|c s IH]; simpl; [done|].
  destruct (isspace c) eqn:Hc; [exact IH | exact Hc].
Qed.

Lemma lstrip_gap s :
  ∃ gap, s = gap ++ lstrip s ∧ Forall is_space gap.
Proof.
  induction s as [|c s (gap & Hs & Hgap)]; simpl.
  - by exists [].
  - destruct (isspace c) eqn:Hc.
    + exists (c :: gap). split; [by rewrite <- app_comm_cons, <- Hs|].
      by constructor.
    + by exists [].
Qed.

Lemma lstrip_non_space c s : non_space c → lstrip (c :: s) = c :: s.
Proof. unfold non_space. simpl. by intros ->. Qed.

Lemma lstrip_snoc s c : non_space c → lstrip (s ++ [c]) = lstrip s ++ [c].
Proof.
  intros Hc. induction s as [|d s IH]; simpl.
  - by rewrite Hc.
  - by destruct (isspace d).
Qed.

Lemma rstrip_cons c s : non_space c → rstrip (c :: s) = c :: rstrip s.
Proof.
  intros Hc. unfold rstrip. simpl.
  by rewrite lstrip_snoc, rev_app_distr.
Qed.

Lemma rstrip_last s : rstrip s = [] ∨ ∃ t d, rstrip s = t ++ [d] ∧ non_space d.
Proof.
  unfold rstrip. pose proof (lstrip_head (rev s)) as H.
  destruct (lstrip (rev s)) as [|d v]; [by left|].
  right. by exists (rev v), d.
Qed.

(** A stripped line is empty or has no whitespace at either end. *)
Lemma strip_ends s :
  strip s = [] ∨
  ∃ c t d u, strip s = c :: t ∧ non_space c ∧ strip s = u ++ [d] ∧ non_space d.
Proof.
  unfold strip. pose proof (lstrip_head s) as Hh.
  destruct (lstrip s) as [|c u]; [by left|].
  right. destruct (rstrip_last (c :: u)) as [He|(t & d & Ht & Hd)].
  - rewrite rstrip_cons in He by done. discriminate.
  - exists c, (rstrip u), d, t. by rewrite <- Ht, rstrip_cons.
Qed.

Lemma span_word_spec s w r :
  span_word s = (w, r) →
  s = w ++ r ∧ Forall non_space w ∧
  match r with [] => True | c :: _ => is_space c end.
Proof.
  revert w r. induction s as [|c s IH]; simpl; intros w r.
  - by intros [= <- <-].
  - destruct (isspace c) eqn:Hc.
    + by intros [= <- <-].
    + destruct (span_word s) as [w' r'] eqn:Hs. intros [= <- <-].
      destruct (IH _ _ eq_refl) as (-> & Hw & Hr).
      repeat split; [by constructor | done].
Qed.

Lemma run_unique (P Q : N → Prop) (a a' r r' : pystr) x x' :
  (∀ c, P c → Q c → False) →
  Forall P a → Forall P a' → Q x → Q x' →
  a ++ x :: r = a' ++ x' :: r' → a = a' ∧ x :: r = x' :: r'.
Proof.
  intros Hdisj Ha. revert a'.
  induction Ha as [|c a Hc Ha IH]; intros a' Ha' Hx Hx'; destruct Ha' as [|c' a' Hc' Ha'];
    simpl.
  - done.
  - intros [= -> _]. destruct (Hdisj _ Hc' Hx).
  - intros [= -> _]. destruct (Hdisj _ Hc Hx').
  - intros [= -> H]. destruct (IH a' Ha' Hx Hx' H) as [-> ?]. done.
Qed.

Lemma space_or_not c : is_space c → non_space c → False.
Proof. unfold is_space, non_space. congruence. Qed.

(** The shape of a line determines its entry. *)
Lemma splits_as_unique t e1 e2 : splits_as t e1 → splits_as t e2 → e1 = e2.
Proof.
  intros H1 H2.
  destruct H1 as [Hne Hall|ch gap en c rest Ht Hch Hchs Hgap Hgaps Hen Hc].
  - destruct H2 as [|ch gap en c rest Ht Hch Hchs Hgap Hgaps Hen Hc]; [done|].
    rewrite Ht in Hall. apply Forall_app in Hall as [_ [Hg _]%Forall_app].
    destruct gap as [|g gap]; [done|].
    apply Forall_cons in Hg as [Hg _]. apply Forall_cons in Hgaps as [Hs _].
    destruct (space_or_not _ Hs Hg).
  - destruct H2 as [Hne Hall|ch' gap' en' c' rest' Ht' Hch' Hchs' Hgap' Hgaps' Hen' Hc'].
    + rewrite Ht in Hall. apply Forall_app in Hall as [_ [Hg _]%Forall_app].
      destruct gap as [|g gap]; [done|].
      apply Forall_cons in Hg as [Hg _]. apply Forall_cons in Hgaps as [Hs _].
      destruct (space_or_not _ Hs Hg).
    + rewrite Ht in Ht'. destruct gap as [|g gap]; [done|].
      destruct gap' as [|g' gap']; [done|].
      apply Forall_cons in Hgaps as [Hg Hgaps].
      apply Forall_cons in Hgaps' as [Hg' Hgaps'].
      apply (run_unique non_space is_space) in Ht' as [-> Ht'];
        [|intros; by eapply space_or_not|done..].
      injection Ht' as -> Ht'. subst en en'.
      apply (run_unique is_space non_space) in Ht' as [-> ->]; try done.
      intros; by eapply space_or_not.
Qed.

Lemma split_none_once t :
  (∃ c u, t = c :: u ∧ non_space c) →
  (∃ d v, t = v ++ [d] ∧ non_space d) →
  ∃ e, splits_as t e ∧
       split_none 1 t = match e.2 with
                        | None => [e.1]
                        | Some english => [e.1; english]
                        end.
Proof.
  intros (c & u & -> & Hc) (d & v & Hv & Hd).
  cbn [split_none]. rewrite lstrip_non_space by done.
  destruct (span_word (c :: u)) as [w r] eqn:Hs.
  destruct (span_word_spec _ _ _ Hs) as (Ht & Hw & Hr).
  assert (w ≠ []) as Hwne.
  { simpl in Hs. rewrite Hc in Hs. destruct (span_word u). by injection Hs as <- _. }
  destruct r as [|x r].
  - exists (w, None). rewrite app_nil_r in Ht. subst w. split; [by constructor|done].
  - assert (∃ y, x :: r = y ++ [d]) as [y Hy].
    { rewrite Ht in Hv. destruct (rev (x :: r)) as [|z zs] eqn:Hrev.
      - apply (f_equal (@rev N)) in Hrev. rewrite rev_involutive in Hrev. discriminate.
      - apply (f_equal (@rev N)) in Hv.
        rewrite !rev_app_distr, Hrev in Hv. simpl in Hv. injection Hv as -> _.
        exists (rev zs). apply (f_equal (@rev N)) in Hrev.
        by rewrite rev_involutive in Hrev. }
    destruct (lstrip_gap (x :: r)) as (gap & Hgap & Hsp).
    pose proof (lstrip_head (x :: r)) as Hhead.
    assert (lstrip (x :: r) ≠ []) as Hne.
    { rewrite Hy, lstrip_snoc by done. by destruct (lstrip y). }
    destruct (lstrip (x :: r)) as [|c' rest] eqn:Hl; [done|].
    exists (w, Some (c' :: rest)). split.
    + apply (splits_two _ w gap (c' :: rest) c' rest); try done.
      * by rewrite Ht, Hgap.
      * intros ->. simpl in Hgap. injection Hgap as -> _.
        unfold is_space, non_space in *. congruence.
    + done.
Qed.

Lemma parse_line_dropped words line :
  kept line = false → parse_line words line = words.
Proof.
  unfold kept, parse_line. intros H.
  destruct (bool_decide (strip line = [])); [done|].
  by destruct (startswith (py "#") (strip line)).
Qed.

Lemma parse_line_kept words line :
  kept line = true →
  ∃ e, parse_line words line = words ++ [e] ∧ splits_as (strip line) e.
Proof.
  unfold kept, parse_line. intros H.
  destruct (bool_decide (strip line = [])) eqn:He; [done|].
  destruct (startswith (py "#") (strip line)); [done|]. cbv zeta. cbn [orb].
  apply bool_decide_eq_false in He.
  destruct (strip_ends line) as [?|(c & t & d & u & Hc & ? & Hu & ?)]; [done|].
  destruct (split_none_once (strip line)) as ([ch [en|]] & Hsp & ->);
    [by eauto | by eauto | ..]; by eexists.
Qed.

Lemma parse_lines_from words lines :
  ∃ entries,
    foldl parse_line words lines = words ++ entries ∧
    Forall2 (λ line e, splits_as (strip line) e) (List.filter kept lines) entries.
Proof.
  revert words. induction lines as [|line lines IH]; intros words; simpl.
  - exists []. by rewrite app_nil_r.
  - destruct (kept line) eqn:Hk.
    + destruct (parse_line_kept words line Hk) as (e & -> & He).
      destruct (IH (words ++ [e])) as (es & -> & Hes).
      exists (e :: es). by rewrite <- app_assoc; split; [|constructor].
    + rewrite parse_line_dropped by done. apply IH.
Qed.

Lemma blank_not_kept line : strip line = [] → kept line = false.
Proof. unfold kept. intros ->. by rewrite bool_decide_eq_true_2. Qed.

Lemma comment_not_kept line : startswith (py "#") line = true → kept line = false.
Proof.
  destruct line as [|c line]; [done|]. cbn [py startswith].
  rewrite andb_true_r. intros Hc%N.eqb_eq. subst c.
  unfold kept, strip. rewrite lstrip_non_space, rstrip_cons by (by vm_compute).
  cbn [py startswith]. by rewrite N.eqb_refl, andb_false_r.
Qed.

(** [C2] Parsing a readable file never fails and yields one entry per kept
    line, in line order: a kept line is a line that is neither blank nor a
    comment once stripped; its entry is the stripped line itself with no
    secondary text when it holds no whitespace, otherwise the text before
    the first run of whitespace and the text after that run, and this
    shape leaves no choice for the entry.  Lines that
    strip to nothing and lines starting with [#] are never kept.  The file
    with the two lines of the example parses to the two expected pairs. *)
Theorem parse_word_file_spec (w : world) (file_path content : pystr) :
  fs w !! file_path = Some (Text content) →
  run (parse_word_file file_path) w = (Ok (parse_lines (readlines content)), w)
  ∧ Forall2 (λ line e, splits_as (strip line) e)
      (List.filter kept (readlines content)) (parse_lines (readlines content))
  ∧ (∀ t e1 e2, splits_as t e1 → splits_as t e2 → e1 = e2)
  ∧ (∀ line, strip line = [] → kept line = false)
  ∧ (∀ line, startswith (py "#") line = true → kept line = false)
  ∧ parse_lines (readlines example_words)
    = [([33529; 26524]%N, Some (py "apple"));
       ([39321; 34121]%N, Some (py "banana"))].
Proof.
  intros Hf. split; [|split; [|split; [|split; [|split]]]].
  - unfold run, parse_word_file. by rewrite Hf.
  - destruct (parse_lines_from [] (readlines content)) as (es & Hes & HF).
    unfold parse_lines. by rewrite Hes.
  - apply splits_as_unique.
  - apply blank_not_kept.
  - apply comment_not_kept.
  - vm_compute. reflexivity.
Qed.

(** ** Running computations *)

Lemma run_ret {A} (a : A) w : run (mret a) w = (Ok a, w).
Proof. reflexivity. Qed.

Lemma run_bind {A B} (m : M A) (f : A → M B) w :
  run (m ≫= f) w =
  match run m w with
  | (Ok a, w') => run (f a) w'
  | (Raise e, w') => (Raise e, w')
  end.
Proof. reflexivity. Qed.

Lemma run_print m w : run (print m) w = (Ok (), add_log (Print m) w).
Proof. reflexivity. Qed.

Lemma run_sleep n w : run (sleep n) w = (Ok (), add_log (Sleep n) w).
Proof. reflexivity. Qed.

Ltac run_simpl :=
  repeat first
    [ rewrite run_bind | rewrite run_print | rewrite run_sleep | rewrite run_ret ].

Lemma emits_ret {A} P (a : A) : emits P (mret a).
Proof. intros w. exists []. by rewrite app_nil_r. Qed.

Lemma emits_bind {A B} P (m : M A) (f : A → M B) :
  emits P m → (∀ a, emits P (f a)) → emits P (m ≫= f).
Proof.
  intros Hm Hf w. rewrite run_bind.
  destruct (Hm w) as (evs & Hlog & Hevs).
  destruct (run m w) as [[a|e] w1]; simpl in *.
  - destruct (Hf a w1) as (evs' & Hlog' & Hevs').
    exists (evs ++ evs'). rewrite Hlog', Hlog, app_assoc.
    split; [done | by apply Forall_app].
  - by exists evs.
Qed.

Lemma emits_emit (P : event → Prop) e : P e → emits P (emit e).
Proof. intros He w. exists [e]. split; [done | by constructor]. Qed.


Lemma emits_run_ffmpeg (P : event → Prop) sv cmd :
  (∀ reads ok, P (Ffmpeg cmd reads ok)) → emits P (run_ffmpeg sv cmd).
Proof.
  intros HP w. unfold run, run_ffmpeg.
  exists [Ffmpeg cmd
            match cmd with
            | GenSilence _ _ => None
            | Concat list_file _ => text_of (fs w !! list_file)
            end (ffmpeg_exit sv (ffmpeg_calls w) cmd)].
  split; [|by repeat constructor].
  by destruct (ffmpeg_exit sv (ffmpeg_calls w) cmd), cmd.
Qed.

Lemma emits_communicate_save (P : event → Prop) sv text voice output_file :
  (∀ ok, P (TtsCall text voice RATE output_file ok)) →
  emits P (communicate_save sv text voice output_file).
Proof.
  intros HP w. unfold run, communicate_save.
  exists [TtsCall text voice RATE output_file
            (tts_backend sv (tts_calls w) text voice RATE)].
  split; [|by repeat constructor].
  by destruct (tts_backend sv (tts_calls w) text voice RATE).
Qed.


Lemma emits_weaken {A} (P Q : event → Prop) (m : M A) :
  (∀ e, P e → Q e) → emits P m → emits Q m.
Proof.
  intros HPQ Hm w. destruct (Hm w) as (evs & ? & ?).
  exists evs. split; [done | by eapply Forall_impl].
Qed.

Lemma text_to_speech_loop_emits sv attempts text voice output_file :
  emits (synthesis_event output_file)
    (text_to_speech_loop sv attempts text voice output_file).
Proof.
  induction attempts as [|attempt rest IH]; cbn [text_to_speech_loop].
  - apply emits_ret.
  - apply emits_bind; [by apply emits_communicate_save|].
    intros [|]; [apply emits_ret|].
    destruct (attempt <? MAX_RETRIES - 1).
    + do 2 (apply emits_bind; [by apply emits_emit|]; intros _). exact IH.
    + apply emits_bind; [by apply emits_emit|]; intros _.
      apply emits_bind; [by apply emits_run_ffmpeg|]; intros _.
      apply emits_ret.
Qed.

Lemma text_to_speech_emits sv text voice output_file :
  emits (synthesis_event output_file) (text_to_speech sv text voice output_file).
Proof. apply text_to_speech_loop_emits. Qed.

(** ** The fragment sequence *)

Lemma join_cons {A} (sep x : list A) rest :
  join sep (x :: rest) =
  x ++ match rest with [] => [] | _ => sep ++ join sep rest end.
Proof. destruct rest; simpl; [by rewrite app_nil_r | done]. Qed.

Lemma length_join_singleton {A} (s : A) (parts : list (list A)) :
  length (join [s] parts) = sum_list (length <$> parts) + (length parts - 1).
Proof.
  induction parts as [|x rest IH]; [done|].
  rewrite join_cons. destruct rest as [|y rest].
  - simpl. rewrite app_nil_r. lia.
  - rewrite length_app, length_app, IH. simpl. lia.
Qed.

Lemma entry_fragments_length temp_dir i e :
  length (entry_fragments temp_dir i e) = entry_size e.
Proof. unfold entry_fragments, entry_size. by destruct (e.2). Qed.

Lemma imap_entry_sizes (f : nat → entry → list pystr) words :
  (∀ i e, length (f i e) = entry_size e) →
  length <$> imap f words = entry_size <$> words.
Proof.
  revert f. induction words as [|e words IH]; intros f Hf; [done|].
  rewrite imap_cons, !fmap_cons, Hf. f_equal. apply IH. intros i e'. apply Hf.
Qed.

Lemma fragments_length temp_dir words :
  length (fragments temp_dir words)
  = sum_list (entry_size <$> words) + (length words - 1).
Proof.
  unfold fragments. rewrite length_join_singleton, length_imap.
  by rewrite imap_entry_sizes by apply entry_fragments_length.
Qed.

Lemma fragments_length_bilingual temp_dir words :
  Forall bilingual words →
  length (fragments temp_dir words) = 3 * length words + (length words - 1).
Proof.
  intros Hb. rewrite fragments_length. f_equal.
  induction Hb as [|e words [en He] _ IH]; [done|].
  rewrite fmap_cons. simpl. rewrite IH.
  unfold entry_size. rewrite He. lia.
Qed.

Lemma synthesis_loop_event o e : synthesis_event o e → loop_event e.
Proof. destruct e as [[]| | |]; simpl; eauto. Qed.

Lemma word_loop_emits sv temp_dir silence_file short_silence_file n items acc :
  emits loop_event
    (word_loop sv temp_dir silence_file short_silence_file n items acc).
Proof.
  revert acc. induction items as [|[i [chinese english]] rest IH]; intros acc.
  - apply emits_ret.
  - cbn [word_loop]. apply emits_bind; [|intros fr; apply IH].
    destruct english as [english|].
    + apply emits_bind; [by apply emits_emit|]; intros _.
      do 2 (apply emits_bind;
            [eapply emits_weaken;
               [apply synthesis_loop_event | apply text_to_speech_emits]|];
            intros _).
      apply emits_ret.
    + apply emits_bind; [by apply emits_emit|]; intros _.
      apply emits_bind;
        [eapply emits_weaken;
           [apply synthesis_loop_event | apply text_to_speech_emits]|];
        intros _.
      apply emits_ret.
Qed.

(** The loop hands back the fragments of the entries it went through,
    whatever the voice backend did. *)
Lemma word_loop_value sv temp_dir n words :
  ∀ i acc w fr w',
    i + length words = n →
    run (word_loop sv temp_dir (path_join temp_dir (py "silence.mp3"))
           (path_join temp_dir (py "short_silence.mp3")) n
           (zip (seq i (length words)) words) acc) w = (Ok fr, w') →
    fr = acc ++ join [path_join temp_dir (py "silence.mp3")]
                  (imap (λ k, entry_fragments temp_dir (i + k)) words).
Proof.
  induction words as [|[chinese english] rest IH]; intros i acc w fr w' Hn.
  - cbn. intros [= <- <-]. by rewrite app_nil_r.
  - cbn [length seq zip zip_with word_loop]. rewrite run_bind.
    assert ((i <? n - 1) = negb (bool_decide (rest = []))) as Hlast.
    { destruct rest; simpl in *; [apply Nat.ltb_ge | apply Nat.ltb_lt]; lia. }
    rewrite imap_cons, join_cons, Nat.add_0_r.
    assert (imap ((λ k, entry_fragments temp_dir (i + k)) ∘ S) rest
            = imap (λ k, entry_fragments temp_dir (S i + k)) rest) as ->.
    { apply imap_ext. intros k e _. simpl. f_equal. lia. }
    destruct english as [english|]; run_simpl.
    + destruct (run (text_to_speech _ chinese _ _) _) as [[b1|e1] w1];
        cbv beta iota; run_simpl; [|done].
      destruct (run (text_to_speech _ english _ _) _) as [[b2|e2] w2];
        cbv beta iota; run_simpl; [|done].
      rewrite Hlast. intros Hrun.
      apply IH in Hrun; [|simpl in Hn; lia]. rewrite Hrun.
      unfold entry_fragments; simpl. destruct rest; simpl.
      * by rewrite app_nil_r.
      * by rewrite <- !app_assoc.
    + destruct (run (text_to_speech _ chinese _ _) _) as [[b1|e1] w1];
        cbv beta iota; run_simpl; [|done].
      rewrite Hlast. intros Hrun.
      apply IH in Hrun; [|simpl in Hn; lia]. rewrite Hrun.
      unfold entry_fragments; simpl. destruct rest; simpl.
      * by rewrite app_nil_r.
      * by rewrite <- !app_assoc.
Qed.

(** ** Synthesis with retries *)

Lemma new_events_app w w' evs : log w' = log w ++ evs → new_events w w' = evs.
Proof. unfold new_events. intros ->. by rewrite drop_app_length. Qed.

Lemma run_communicate_save sv text voice output_file w :
  run (communicate_save sv text voice output_file) w =
  if tts_backend sv (tts_calls w) text voice RATE
  then (Ok true,
        set_fs (insert output_file (Speech text voice RATE))
          (add_log (TtsCall text voice RATE output_file true) (tick_tts w)))
  else (Ok false,
        set_fs (leave (tts_left sv (tts_calls w) text voice RATE) output_file)
          (add_log (TtsCall text voice RATE output_file false) (tick_tts w))).
Proof.
  unfold run, communicate_save.
  by destruct (tts_backend sv (tts_calls w) text voice RATE).
Qed.

Lemma insert_leave (left : option file) (o : pystr) (f : file)
    (m : gmap pystr file) :
  <[o := f]> (leave left o m) = <[o := f]> m.
Proof. destruct left; [apply insert_insert_eq | done]. Qed.

Lemma leave_leave (a b : option file) (o : pystr) (m : gmap pystr file) :
  leave a o (leave b o m)
  = leave (match a with Some f => Some f | None => b end) o m.
Proof. destruct a, b; cbn [leave]; by rewrite ?insert_insert_eq. Qed.

Lemma lookup_leave_ne (left : option file) (o p : pystr) (m : gmap pystr file) :
  p ≠ o → leave left o m !! p = m !! p.
Proof. intros Hp. destruct left; [by apply lookup_insert_ne | done]. Qed.

Lemma lookup_leave (left : option file) (o : pystr) (m : gmap pystr file) :
  leave left o m !! o = match left with Some f => Some f | None => m !! o end.
Proof. destruct left; [apply lookup_insert_eq | done]. Qed.

Lemma run_generate_silence sv output_file duration_ms w :
  run (generate_silence sv output_file duration_ms) w =
  let cmd := GenSilence output_file duration_ms in
  if ffmpeg_exit sv (ffmpeg_calls w) cmd
  then (Ok (),
        set_fs (insert output_file (Silence duration_ms))
          (add_log (Ffmpeg cmd None true) (tick_ffmpeg w)))
  else (Raise (CalledProcessError cmd),
        add_log (Ffmpeg cmd None false) (tick_ffmpeg w)).
Proof.
  unfold run, generate_silence, run_ffmpeg. cbv zeta.
  by destruct (ffmpeg_exit sv (ffmpeg_calls w) _).
Qed.

Ltac world_norm :=
  cbn [tts_calls tick_tts tick_ffmpeg tick_tmp add_log set_fs ffmpeg_calls
       tmp_dirs fs log fst snd Nat.add].

(** The five ways a request can go: saved at the first, second or third
    attempt; three failures and the fallback clip; three failures and a
    failing fallback, after which the output file is what the attempts
    left of it, one after the other. *)
Lemma text_to_speech_cases sv text voice output_file w :
  let ok k := tts_backend sv (k + tts_calls w) text voice RATE in
  let left k := tts_left sv (k + tts_calls w) text voice RATE in
  let call b := TtsCall text voice RATE output_file b in
  let retry k := [call false; Print (MsgRetry k MAX_RETRIES text); Sleep 1] in
  let fallback := GenSilence output_file 100 in
  let r := run (text_to_speech sv text voice output_file) w in
  (ok 0 = true ∧ r.1 = Ok true ∧
   log r.2 = log w ++ [call true] ∧
   fs r.2 = <[output_file := Speech text voice RATE]> (fs w))
  ∨ (ok 0 = false ∧ ok 1 = true ∧ r.1 = Ok true ∧
     log r.2 = log w ++ retry 1 ++ [call true] ∧
     fs r.2 = <[output_file := Speech text voice RATE]> (fs w))
  ∨ (ok 0 = false ∧ ok 1 = false ∧ ok 2 = true ∧ r.1 = Ok true ∧
     log r.2 = log w ++ retry 1 ++ retry 2 ++ [call true] ∧
     fs r.2 = <[output_file := Speech text voice RATE]> (fs w))
  ∨ (ok 0 = false ∧ ok 1 = false ∧ ok 2 = false ∧
     ffmpeg_exit sv (ffmpeg_calls w) fallback = true ∧ r.1 = Ok false ∧
     log r.2 = log w ++ retry 1 ++ retry 2 ++
                 [call false; Print (MsgWarning text); Ffmpeg fallback None true] ∧
     fs r.2 = <[output_file := Silence 100]> (fs w))
  ∨ (ok 0 = false ∧ ok 1 = false ∧ ok 2 = false ∧
     ffmpeg_exit sv (ffmpeg_calls w) fallback = false ∧
     r.1 = Raise (CalledProcessError fallback) ∧
     log r.2 = log w ++ retry 1 ++ retry 2 ++
                 [call false; Print (MsgWarning text); Ffmpeg fallback None false] ∧
     fs r.2 = leave (left 2) output_file
                (leave (left 1) output_file (leave (left 0) output_file (fs w)))).
Proof.
  intros ok left call retry fallback r. subst r ok left call retry fallback.
  unfold text_to_speech. change (seq 0 MAX_RETRIES) with [0; 1; 2].
  cbn [text_to_speech_loop].
  change (0 <? MAX_RETRIES - 1) with true.
  change (1 <? MAX_RETRIES - 1) with true.
  change (2 <? MAX_RETRIES - 1) with false.
  cbv beta iota. run_simpl. rewrite run_communicate_save. world_norm.
  destruct (tts_backend sv (tts_calls w) text voice RATE) eqn:H0;
    cbv beta iota; run_simpl; world_norm.
  { left. by repeat split. }
  right. rewrite run_communicate_save. world_norm.
  destruct (tts_backend sv (S (tts_calls w)) text voice RATE) eqn:H1;
    cbv beta iota; run_simpl; world_norm.
  { left. repeat split; try done; [by rewrite <- !app_assoc|].
    by rewrite insert_leave. }
  right. rewrite run_communicate_save. world_norm.
  destruct (tts_backend sv (S (S (tts_calls w))) text voice RATE) eqn:H2;
    cbv beta iota; run_simpl; world_norm.
  { left. repeat split; try done; [by rewrite <- !app_assoc|].
    by rewrite !insert_leave. }
  right. rewrite run_generate_silence. world_norm.
  destruct (ffmpeg_exit sv (ffmpeg_calls w) (GenSilence output_file 100)) eqn:H3;
    cbv beta iota; run_simpl; world_norm.
  { left. repeat split; try done; [by rewrite <- !app_assoc|].
    by rewrite !insert_leave. }
  right. repeat split; try done;
    by rewrite <- !app_assoc.
Qed.

Lemma text_to_speech_total sv text voice output_file w :
  ffmpeg_exit sv (ffmpeg_calls w) (GenSilence output_file 100) = true →
  ∃ saved, (run (text_to_speech sv text voice output_file) w).1 = Ok saved.
Proof.
  intros Hff.
  destruct (text_to_speech_cases sv text voice output_file w)
    as [H|[H|[H|[H|H]]]]; cbv zeta in H.
  - exists true. by destruct H as (_ & ? & _).
  - exists true. by destruct H as (_ & _ & ? & _).
  - exists true. by destruct H as (_ & _ & _ & ? & _).
  - exists false. by destruct H as (_ & _ & _ & _ & ? & _).
  - destruct H as (_ & _ & _ & Hbad & _). congruence.
Qed.

(** ** The conversion job *)

Lemma concat_reads_app evs1 evs2 :
  concat_reads (evs1 ++ evs2) = concat_reads evs1 ++ concat_reads evs2.
Proof. apply omap_app. Qed.

Lemma concat_reads_cons e evs :
  concat_reads (e :: evs) =
  match e with Ffmpeg (Concat _ _) reads _ => [reads] | _ => [] end
  ++ concat_reads evs.
Proof. by destruct e as [| | |[]]. Qed.

Lemma loop_events_no_concat evs : Forall loop_event evs → concat_reads evs = [].
Proof.
  induction 1 as [|e evs He _ IH]; [done|].
  unfold concat_reads in *. cbn [omap list_omap]. rewrite IH.
  destruct e as [[]| | |[]]; try done; by destruct He as [? []].
Qed.

Lemma run_merge_audio_files sv audio_files output_file temp_dir w :
  run (merge_audio_files sv audio_files output_file temp_dir) w =
  let list_file := path_join temp_dir (py "filelist.txt") in
  let cmd := Concat list_file output_file in
  let reads := Some (playlist audio_files) in
  let w1 := set_fs (insert list_file (Text (playlist audio_files))) w in
  if ffmpeg_exit sv (ffmpeg_calls w) cmd
  then (Ok (),
        set_fs (insert output_file (Merged reads))
          (add_log (Ffmpeg cmd reads true) (tick_ffmpeg w1)))
  else (Raise (CalledProcessError cmd),
        add_log (Ffmpeg cmd reads false) (tick_ffmpeg w1)).
Proof.
  unfold merge_audio_files. cbv zeta. rewrite run_bind.
  unfold write_file at 1, run at 1. cbv beta iota.
  unfold run, run_ffmpeg. world_norm.
  rewrite lookup_insert_eq. cbn [text_of].
  by destruct (ffmpeg_exit sv (ffmpeg_calls w) _).
Qed.

(** The job, one stage after the other. *)
Lemma convert_file_to_mp3_run sv input_file output_file content w :
  fs w !! input_file = Some (Text content) →
  let words := parse_lines (readlines content) in
  let out := output_path input_file output_file in
  let w0 := add_log (Print (MsgOutput out))
              (add_log (Print (MsgProcessing input_file)) w) in
  run (convert_file_to_mp3 sv input_file output_file) w =
  match words with
  | [] => (Ok false, add_log (Print MsgNoWords) w0)
  | _ =>
      let temp_dir := mkdtemp sv (tmp_dirs w) in
      let ra := run (assemble sv words out temp_dir)
                  (tick_tmp (add_log (Print (MsgFound (length words))) w0)) in
      let w2 := set_fs (filter (λ kv, inside temp_dir kv.1 = false)) ra.2 in
      match ra.1 with
      | Ok _ => (Ok true, add_log (Print (MsgDone out)) w2)
      | Raise e => (Raise e, w2)
      end
  end.
Proof.
  intros Hf words out w0. unfold convert_file_to_mp3. fold out. cbv zeta.
  run_simpl. fold w0.
  assert (run (parse_word_file input_file) w0 = (Ok words, w0)) as ->.
  { unfold run, parse_word_file. subst w0. world_norm. by rewrite Hf. }
  cbv beta iota. destruct words as [|e ws] eqn:Hw; [by run_simpl|].
  run_simpl. unfold run at 1, with_temp_dir. world_norm.
  unfold run. by destruct (assemble _ _ _ _ _) as [[[]|e'] w1].
Qed.

Lemma assemble_handed sv words output_file temp_dir w :
  let r := run (assemble sv words output_file temp_dir) w in
  ∃ evs,
    log r.2 = log w ++ evs ∧
    match r.1 with
    | Ok _ => concat_reads evs = [Some (playlist (fragments temp_dir words))]
    | Raise _ =>
        concat_reads evs = [] ∨
        concat_reads evs = [Some (playlist (fragments temp_dir words))]
    end.
Proof.
  cbv zeta. unfold assemble. cbv zeta. run_simpl.
  rewrite run_generate_silence. cbv zeta.
  destruct (ffmpeg_exit sv (ffmpeg_calls w) _); cbv beta iota.
  2: { eexists [_]. split; [done | by left]. }
  run_simpl. rewrite run_generate_silence. cbv zeta.
  destruct (ffmpeg_exit sv _ _); cbv beta iota.
  2: { eexists [_; _]. world_norm. rewrite <- app_assoc. split; [done | by left]. }
  run_simpl.
  match goal with
  | |- context [run (word_loop ?a ?b ?c ?d ?e ?f ?g) ?w2] =>
      destruct (word_loop_emits a b c d e f g w2) as (evs & Hlog & Hevs);
      destruct (run (word_loop a b c d e f g) w2) as [[fr|e'] w3] eqn:Hval
  end; cbv beta iota; cbn [fst snd] in *.
  2: { eexists (_ :: _ :: evs). rewrite Hlog. world_norm.
       rewrite <- !app_assoc. split; [done | left].
       by rewrite 2!concat_reads_cons, loop_events_no_concat by done. }
  apply (word_loop_value _ _ _ words 0 []) in Hval; [|done].
  change (fr = fragments temp_dir words) in Hval. subst fr.
  run_simpl. rewrite run_merge_audio_files. cbv zeta.
  destruct (ffmpeg_exit sv _ _); cbv beta iota; world_norm;
    rewrite Hlog; world_norm.
  - eexists (_ :: _ :: evs ++ [_; _]). rewrite <- !app_assoc. split; [done|].
    by rewrite 2!concat_reads_cons, concat_reads_app, loop_events_no_concat,
      2!concat_reads_cons by done.
  - eexists (_ :: _ :: evs ++ [_; _]). rewrite <- !app_assoc. split; [done|right].
    by rewrite 2!concat_reads_cons, concat_reads_app, loop_events_no_concat,
      2!concat_reads_cons by done.
Qed.

Lemma word_loop_total sv temp_dir silence_file short_silence_file n items :
  (∀ k o, ffmpeg_exit sv k (GenSilence o 100) = true) →
  ∀ acc w, ∃ fr,
    (run (word_loop sv temp_dir silence_file short_silence_file n items acc) w).1
    = Ok fr.
Proof.
  intros Hff. induction items as [|[i [chinese english]] rest IH]; intros acc w.
  - by exists acc.
  - cbn [word_loop]. destruct english as [english|]; run_simpl.
    + destruct (text_to_speech_total sv chinese CHINESE_VOICE
                  (word_file temp_dir i "zh")
                  (add_log (Print (MsgEntry (i + 1) n chinese (Some english))) w))
        as [b1 H1]; [apply Hff|].
      destruct (run (text_to_speech sv chinese _ _) _) as [[?|?] w1];
        [|done]; cbv beta iota; run_simpl.
      destruct (text_to_speech_total sv english ENGLISH_VOICE
                  (word_file temp_dir i "en") w1) as [b2 H2]; [apply Hff|].
      destruct (run (text_to_speech sv english _ _) _) as [[?|?] w2];
        [|done]; cbv beta iota; run_simpl.
      apply IH.
    + destruct (text_to_speech_total sv chinese CHINESE_VOICE
                  (word_file temp_dir i "zh")
                  (add_log (Print (MsgEntry (i + 1) n chinese None)) w))
        as [b1 H1]; [apply Hff|].
      destruct (run (text_to_speech sv chinese _ _) _) as [[?|?] w1];
        [|done]; cbv beta iota; run_simpl.
      apply IH.
Qed.

(** With a working audio tool the block completes, whatever the voice
    backend does. *)
Lemma assemble_total sv words output_file temp_dir w :
  (∀ k cmd, ffmpeg_exit sv k cmd = true) →
  (run (assemble sv words output_file temp_dir) w).1 = Ok ().
Proof.
  intros Hff. unfold assemble. cbv zeta. run_simpl.
  rewrite run_generate_silence. cbv zeta. rewrite Hff. cbv beta iota. run_simpl.
  rewrite run_generate_silence. cbv zeta. rewrite Hff. cbv beta iota. run_simpl.
  match goal with
  | |- context [run (word_loop ?a ?b ?c ?d ?e ?f ?g) ?w2] =>
      destruct (word_loop_total a b c d e f (λ k o, Hff k _) g w2) as [fr Hfr];
      destruct (run (word_loop a b c d e f g) w2) as [[?|?] w3]
  end; [|done]. cbv beta iota. run_simpl.
  rewrite run_merge_audio_files. cbv zeta. by rewrite Hff.
Qed.

Lemma assemble_silence_fails sv words output_file temp_dir w :
  let silence := GenSilence (path_join temp_dir (py "silence.mp3"))
                   PAUSE_BETWEEN_WORDS in
  ffmpeg_exit sv (ffmpeg_calls w) silence = false →
  (run (assemble sv words output_file temp_dir) w).1
  = Raise (CalledProcessError silence).
Proof.
  intros silence Hff. unfold assemble. cbv zeta. run_simpl.
  rewrite run_generate_silence. cbv zeta. fold silence. by rewrite Hff.
Qed.

Lemma assemble_short_silence_fails sv words output_file temp_dir w :
  let silence := GenSilence (path_join temp_dir (py "silence.mp3"))
                   PAUSE_BETWEEN_WORDS in
  let short := GenSilence (path_join temp_dir (py "short_silence.mp3"))
                 PAUSE_BETWEEN_LANGUAGES in
  ffmpeg_exit sv (ffmpeg_calls w) silence = true →
  ffmpeg_exit sv (S (ffmpeg_calls w)) short = false →
  (run (assemble sv words output_file temp_dir) w).1
  = Raise (CalledProcessError short).
Proof.
  intros silence short H1 H2. unfold assemble. cbv zeta. run_simpl.
  rewrite run_generate_silence. cbv zeta. fold silence. rewrite H1.
  cbv beta iota. run_simpl. rewrite run_generate_silence. cbv zeta.
  world_norm. fold short. by rewrite H2.
Qed.

Lemma assemble_merge_fails sv words output_file temp_dir w :
  let merge := Concat (path_join temp_dir (py "filelist.txt")) output_file in
  (∀ k o d, ffmpeg_exit sv k (GenSilence o d) = true) →
  (∀ k, ffmpeg_exit sv k merge = false) →
  (run (assemble sv words output_file temp_dir) w).1
  = Raise (CalledProcessError merge).
Proof.
  intros merge Hsil Hmerge. unfold assemble. cbv zeta. run_simpl.
  rewrite run_generate_silence. cbv zeta. rewrite Hsil. cbv beta iota. run_simpl.
  rewrite run_generate_silence. cbv zeta. rewrite Hsil. cbv beta iota. run_simpl.
  match goal with
  | |- context [run (word_loop ?a ?b ?c ?d ?e ?f ?g) ?w2] =>
      destruct (word_loop_total a b c d e f (λ k o, Hsil k _ _) g w2) as [fr Hfr];
      destruct (run (word_loop a b c d e f g) w2) as [[?|?] w3]
  end; [|done]. cbv beta iota. run_simpl.
  rewrite run_merge_audio_files. cbv zeta. fold merge. by rewrite Hmerge.
Qed.

(** ** Directory mode *)









Lemma parse_lines_nil lines : List.filter kept lines = [] ↔ parse_lines lines = [].
Proof.
  destruct (parse_lines_from [] lines) as (es & Hes & HF).
  unfold parse_lines. rewrite Hes. simpl.
  apply Forall2_length in HF. split; intros H; rewrite H in HF.
  - by destruct es.
  - by destruct (List.filter kept lines).
Qed.

Lemma convert_file_to_mp3_handed sv input_file output_file content w :
  fs w !! input_file = Some (Text content) →
  let words := parse_lines (readlines content) in
  let temp_dir := mkdtemp sv (tmp_dirs w) in
  let r := run (convert_file_to_mp3 sv input_file output_file) w in
  ∃ evs,
    log r.2 = log w ++ evs
    ∧ (r.1 = Ok true →
       concat_reads evs = [Some (playlist (fragments temp_dir words))])
    ∧ (concat_reads evs = [] ∨
       concat_reads evs = [Some (playlist (fragments temp_dir words))]).
Proof.
  intros Hf words temp_dir r. subst r.
  rewrite (convert_file_to_mp3_run sv _ _ _ _ Hf). cbv zeta. fold words temp_dir.
  destruct words as [|e ws] eqn:Hw.
  { eexists [_; _; _]. world_norm. rewrite <- !app_assoc.
    split; [done|]. split; [done | by left]. }
  rewrite <- Hw.
  match goal with
  | |- context [run (assemble ?a ?b ?c ?d) ?w1] =>
      destruct (assemble_handed a b c d w1) as (evs & Hlog & Hh);
      cbv zeta in Hlog, Hh;
      destruct (run (assemble a b c d) w1) as [[[]|e'] w2]
  end; cbn [fst snd] in *; world_norm; rewrite Hlog; world_norm.
  - eexists (_ :: _ :: _ :: evs ++ [_]). rewrite <- !app_assoc.
    split; [done|].
    rewrite 3!concat_reads_cons, concat_reads_app, Hh. simpl. by split; [|right].
  - eexists (_ :: _ :: _ :: evs). rewrite <- !app_assoc.
    split; [done|]. rewrite 3!concat_reads_cons. simpl. by split.
Qed.

(** [C3] A request calls the voice backend at most three times and sleeps
    one second between two consecutive attempts, never after the last.
    When the three attempts fail a warning is printed and ffmpeg is asked
    for a 100 ms silent clip at the requested path: if that succeeds the
    request returns [False] without raising and the clip is in place; if
    ffmpeg fails, its [CalledProcessError] reaches the caller, no other
    file has changed, and the output path holds what the last attempt that
    had opened it left there (an empty file when no audio had arrived) and
    is as before when none had.  A job whose ffmpeg calls all succeed
    completes whatever the voice backend does. *)
Theorem text_to_speech_retry_policy sv text voice output_file w :
  let r := run (text_to_speech sv text voice output_file) w in
  let failed k := tts_backend sv (k + tts_calls w) text voice RATE = false in
  let left k := tts_left sv (k + tts_calls w) text voice RATE in
  let fallback := GenSilence output_file 100 in
  schedule (new_events w r.2) ∈
    [ [inl true];
      [inl false; inr 1; inl true];
      [inl false; inr 1; inl false; inr 1; inl true];
      [inl false; inr 1; inl false; inr 1; inl false] ]
  ∧ (failed 0 → failed 1 → failed 2 →
     ffmpeg_exit sv (ffmpeg_calls w) fallback = true →
     r.1 = Ok false
     ∧ fs r.2 = <[output_file := Silence 100]> (fs w)
     ∧ Print (MsgWarning text) ∈ new_events w r.2)
  ∧ (failed 0 → failed 1 → failed 2 →
     ffmpeg_exit sv (ffmpeg_calls w) fallback = false →
     r.1 = Raise (CalledProcessError fallback)
     ∧ (∀ p, p ≠ output_file → fs r.2 !! p = fs w !! p)
     ∧ fs r.2 !! output_file
       = match left 2, left 1, left 0 with
         | Some f, _, _ | None, Some f, _ | None, None, Some f => Some f
         | None, None, None => fs w !! output_file
         end)
  ∧ (∀ input_file out content,
       fs w !! input_file = Some (Text content) →
       parse_lines (readlines content) ≠ [] →
       (∀ k cmd, ffmpeg_exit sv k cmd = true) →
       (run (convert_file_to_mp3 sv input_file out) w).1 = Ok true).
Proof.
  intros r failed left fallback. subst r failed left fallback.
  pose proof (text_to_speech_cases sv text voice output_file w) as H.
  cbv zeta in H. cbv beta.
  split; [|split; [|split]].
  - destruct H as [H|[H|[H|[H|H]]]];
      repeat match goal with H : _ ∧ _ |- _ => destruct H as [? H] end;
      match goal with
      | Hl : log _ = log _ ++ _ |- _ => rewrite (new_events_app _ _ _ Hl)
      end.
    + set_solver.
    + set_solver.
    + set_solver.
    + cbn. set_solver.
    + cbn. set_solver.
  - intros F0 F1 F2 Hff.
    destruct H as [H|[H|[H|[H|H]]]];
      repeat match goal with H : _ ∧ _ |- _ => destruct H as [? H] end;
      try congruence.
    match goal with
    | Hl : log _ = log _ ++ _ |- _ => rewrite (new_events_app _ _ _ Hl)
    end.
    split; [done|]. split; [done|]. set_solver.
  - intros F0 F1 F2 Hff.
    destruct H as [H|[H|[H|[H|H]]]];
      repeat match goal with H : _ ∧ _ |- _ => destruct H as [? H] end;
      try congruence.
    split; [done|]. rewrite H. split.
    + intros p Hp. by rewrite !lookup_leave_ne.
    + rewrite !lookup_leave.
      by destruct (tts_left sv (2 + tts_calls w) text voice RATE),
                  (tts_left sv (1 + tts_calls w) text voice RATE),
                  (tts_left sv (0 + tts_calls w) text voice RATE).
  - intros input_file out content Hf Hne Hff.
    rewrite (convert_file_to_mp3_run sv _ _ _ _ Hf). cbv zeta.
    destruct (parse_lines (readlines content)); [done|].
    by rewrite assemble_total.
Qed.

Lemma convert_file_to_mp3_empty sv input_file output_file content w :
  fs w !! input_file = Some (Text content) →
  List.filter kept (readlines content) = [] →
  run (convert_file_to_mp3 sv input_file output_file) w
  = (Ok false,
     add_log (Print MsgNoWords)
       (add_log (Print (MsgOutput (output_path input_file output_file)))
          (add_log (Print (MsgProcessing input_file)) w))).
Proof.
  intros Hf Hk. apply parse_lines_nil in Hk.
  rewrite (convert_file_to_mp3_run sv _ _ _ _ Hf). cbv zeta. by rewrite Hk.
Qed.

(** [C4] A readable file without any kept line parses to the empty list;
    the parser does not raise.  The job then prints that the file holds no
    valid word and returns [False]: nothing else is logged, no backend or
    ffmpeg call is made and the file system is left as it was. *)
Theorem empty_input_returns_false sv input_file output_file content w :
  fs w !! input_file = Some (Text content) →
  List.filter kept (readlines content) = [] →
  run (parse_word_file input_file) w = (Ok [], w)
  ∧ run (convert_file_to_mp3 sv input_file output_file) w
    = (Ok false,
       add_log (Print MsgNoWords)
         (add_log (Print (MsgOutput (output_path input_file output_file)))
            (add_log (Print (MsgProcessing input_file)) w))).
Proof.
  intros Hf Hk. split.
  - apply parse_lines_nil in Hk. unfold run, parse_word_file. by rewrite Hf, Hk.
  - by apply (convert_file_to_mp3_empty sv _ _ content).
Qed.

Lemma process_files_raise sv f rest w e :
  (run (convert_file_to_mp3 sv f None) w).1 = Raise e →
  run (process_files sv (f :: rest)) w
  = (Raise e, (run (convert_file_to_mp3 sv f None) w).2).
Proof.
  intros H. cbn [process_files]. rewrite run_bind.
  destruct (run (convert_file_to_mp3 sv f None) w) as [[b|e'] w1];
    cbn [fst snd] in *; congruence.
Qed.

(** [C8] A failing ffmpeg is not recovered.  [generate_silence] and
    [merge_audio_files] raise [CalledProcessError] when the process fails;
    in a job, a failure while generating either shared silence or while
    concatenating makes [convert_file_to_mp3] raise that error, and in
    directory mode the error ends the run.  In contrast, when ffmpeg does
    not fail the job completes whatever the voice backend does. *)
Theorem audio_tool_failure_is_fatal sv input_file content w :
  fs w !! input_file = Some (Text content) →
  parse_lines (readlines content) ≠ [] →
  let temp_dir := mkdtemp sv (tmp_dirs w) in
  let out := output_path input_file None in
  let job := run (convert_file_to_mp3 sv input_file None) w in
  let silence := GenSilence (path_join temp_dir (py "silence.mp3"))
                   PAUSE_BETWEEN_WORDS in
  let short := GenSilence (path_join temp_dir (py "short_silence.mp3"))
                 PAUSE_BETWEEN_LANGUAGES in
  let merge := Concat (path_join temp_dir (py "filelist.txt")) out in
  (∀ w1 o d, ffmpeg_exit sv (ffmpeg_calls w1) (GenSilence o d) = false →
     (run (generate_silence sv o d) w1).1
     = Raise (CalledProcessError (GenSilence o d)))
  ∧ (∀ w1 audio_files o d,
       ffmpeg_exit sv (ffmpeg_calls w1) (Concat (path_join d (py "filelist.txt")) o)
       = false →
       (run (merge_audio_files sv audio_files o d) w1).1
       = Raise (CalledProcessError (Concat (path_join d (py "filelist.txt")) o)))
  ∧ (ffmpeg_exit sv (ffmpeg_calls w) silence = false →
     job.1 = Raise (CalledProcessError silence))
  ∧ (ffmpeg_exit sv (ffmpeg_calls w) silence = true →
     ffmpeg_exit sv (S (ffmpeg_calls w)) short = false →
     job.1 = Raise (CalledProcessError short))
  ∧ ((∀ k o d, ffmpeg_exit sv k (GenSilence o d) = true) →
     (∀ k, ffmpeg_exit sv k merge = false) →
     job.1 = Raise (CalledProcessError merge))
  ∧ (∀ e rest, job.1 = Raise e →
     run (process_files sv (input_file :: rest)) w = (Raise e, job.2))
  ∧ ((∀ k cmd, ffmpeg_exit sv k cmd = true) → job.1 = Ok true).
Proof.
  intros Hf Hne temp_dir out job silence short merge.
  set (w0 := tick_tmp
          (add_log (Print (MsgFound (length (parse_lines (readlines content)))))
             (add_log (Print (MsgOutput out))
                (add_log (Print (MsgProcessing input_file)) w)))).
  assert (∀ e,
    (run (assemble sv (parse_lines (readlines content)) out temp_dir) w0).1 = e →
    job.1 = match e with Ok _ => Ok true | Raise e' => Raise e' end) as Hjob.
  { intros e He. subst job. rewrite (convert_file_to_mp3_run sv _ _ _ _ Hf).
    cbv zeta. fold out temp_dir. fold w0.
    destruct (parse_lines (readlines content)); [done|].
    rewrite He. by destruct e. }
  split; [|split; [|split; [|split; [|split; [|split]]]]].
  - intros w1 o d Hff. rewrite run_generate_silence. cbv zeta. by rewrite Hff.
  - intros w1 audio_files o d Hff. rewrite run_merge_audio_files. cbv zeta.
    by rewrite Hff.
  - intros Hff. by rewrite (Hjob _ (assemble_silence_fails sv _ _ _ w0 Hff)).
  - intros H1 H2.
    by rewrite (Hjob _ (assemble_short_silence_fails sv _ _ _ w0 H1 H2)).
  - intros H1 H2. by rewrite (Hjob _ (assemble_merge_fails sv _ _ _ w0 H1 H2)).
  - intros e rest He. by apply process_files_raise.
  - intros Hff. by rewrite (Hjob _ (assemble_total sv _ _ _ w0 Hff)).
Qed.




(** * categorize_words.py: properties *)

(** ** Dictionaries *)

Lemma dict_get_set {V} (d : dict V) k v k' :
  dict_get (dict_set k v d) k' = if decide (k = k') then Some v else dict_get d k'.
Proof.
  induction d as [|[k0 v0] d IH]; simpl.
  - by destruct (decide (k = k')).
  - destruct (decide (k0 = k)) as [->|Hne]; simpl.
    + by destruct (decide (k = k')).
    + destruct (decide (k0 = k')) as [->|Hne'].
      * by destruct (decide (k = k')); [congruence|].
      * apply IH.
Qed.

Lemma dict_get_set_eq {V} (d : dict V) k v : dict_get (dict_set k v d) k = Some v.
Proof. rewrite dict_get_set. by destruct (decide (k = k)). Qed.

Lemma dict_get_set_ne {V} (d : dict V) k v k' :
  k ≠ k' → dict_get (dict_set k v d) k' = dict_get d k'.
Proof. intros. rewrite dict_get_set. by destruct (decide (k = k')). Qed.

Lemma dict_set_Forall {V} (Q : V → Prop) (d : dict V) k v :
  Forall (λ kv, Q kv.2) d → Q v → Forall (λ kv, Q kv.2) (dict_set k v d).
Proof.
  intros Hd Hv. induction Hd as [|[k0 v0] d H0 Hd IH]; simpl.
  - by repeat constructor.
  - destruct (decide (k0 = k)); by constructor.
Qed.

Lemma dict_get_elem_of {V} (d : dict V) k v : dict_get d k = Some v → (k, v) ∈ d.
Proof.
  induction d as [|[k0 v0] d IH]; simpl; [done|].
  destruct (decide (k0 = k)) as [->|].
  - intros [= ->]. left.
  - intros. right. by apply IH.
Qed.

(** ** Sorting *)

Lemma str_leb_total a b : str_leb a b = true ∨ str_leb b a = true.
Proof.
  revert b. induction a as [|x a IH]; intros [|y b]; simpl; auto.
  destruct (N.ltb_spec x y), (N.ltb_spec y x), (N.eqb_spec x y),
    (N.eqb_spec y x); auto; lia.
Qed.

Lemma str_leb_trans a b c :
  str_leb a b = true → str_leb b c = true → str_leb a c = true.
Proof.
  revert b c. induction a as [|x a IH]; intros [|y b] [|z c]; simpl; try done.
  destruct (N.ltb_spec x y), (N.ltb_spec y z), (N.ltb_spec x z),
    (N.eqb_spec x y), (N.eqb_spec y z), (N.eqb_spec x z);
    try done; try lia; eauto.
Qed.

Lemma str_leb_antisym a b : str_leb a b = true → str_leb b a = true → a = b.
Proof.
  revert b. induction a as [|x a IH]; intros [|y b]; simpl; try done.
  destruct (N.ltb_spec x y), (N.ltb_spec y x), (N.eqb_spec x y),
    (N.eqb_spec y x); try done; try lia.
  intros. subst. f_equal. eauto.
Qed.

Global Instance str_le_trans : Transitive str_le.
Proof. intros a b c. apply str_leb_trans. Qed.

Global Instance str_le_antisym : AntiSymm (=) str_le.
Proof. intros a b. apply str_leb_antisym. Qed.

Section sorted_by.
Context {A : Type} (leb : A → A → bool).
Hypothesis leb_total : ∀ a b, leb a b = true ∨ leb b a = true.

Lemma sorted_insert_perm x l : sorted_insert leb x l ≡ₚ x :: l.
Proof.
  induction l as [|y l IH]; simpl; [done|].
  destruct (leb x y); [done|]. by rewrite IH, Permutation_swap.
Qed.

Lemma sorted_by_perm l : sorted_by leb l ≡ₚ l.
Proof.
  induction l as [|x l IH]; simpl; [done|].
  by rewrite sorted_insert_perm, IH.
Qed.

Lemma sorted_insert_hd x y l :
  leb y x = true →
  HdRel (λ a b, leb a b = true) y l →
  HdRel (λ a b, leb a b = true) y (sorted_insert leb x l).
Proof. intros Hyx [|z l' Hz]; simpl; [|destruct (leb x z)]; by constructor. Qed.

Lemma sorted_insert_sorted x l :
  Sorted (λ a b, leb a b = true) l →
  Sorted (λ a b, leb a b = true) (sorted_insert leb x l).
Proof.
  induction 1 as [|y l Hl IH Hy]; simpl; [by repeat constructor|].
  destruct (leb x y) eqn:Hxy.
  - by repeat constructor.
  - constructor; [done|]. apply sorted_insert_hd; [|done].
    by destruct (leb_total x y) as [Hc|Hc]; [congruence|].
Qed.

Lemma sorted_by_sorted l : Sorted (λ a b, leb a b = true) (sorted_by leb l).
Proof.
  induction l as [|x l IH]; simpl; [constructor|].
  by apply sorted_insert_sorted.
Qed.
End sorted_by.

(** ** Category files *)

Lemma replace_char_remove c s : replace_char c [] s = filter (λ x, x ≠ c) s.
Proof.
  unfold replace_char. induction s as [|x s IH]; [done|].
  rewrite fmap_cons, filter_cons. cbn [concat]. rewrite IH.
  destruct (N.eqb_spec x c); by destruct (decide (x ≠ c)).
Qed.

Lemma category_text_file translations cat_name words :
  category_file translations cat_name words
    (Plain (category_text translations cat_name words)).
Proof.
  exists (sorted_by str_leb words). split; [|split].
  - apply sorted_by_sorted, str_leb_total.
  - apply sorted_by_perm.
  - unfold category_text. cbv zeta. by rewrite replace_char_remove.
Qed.

Lemma save_categories_spec output_dir translations categories :
  ∀ w,
    let w' := save_categories categories output_dir translations w in
    (∀ p, docs w' !! p = docs w !! p ∨
          ∃ cat_name words d,
            (cat_name, words) ∈ categories ∧ p = category_path output_dir cat_name ∧
            docs w' !! p = Some d ∧ category_file translations cat_name words d)
    ∧ (∀ cat_name words,
         (cat_name, words) ∈ categories →
         ∃ cat_name' words' d,
           (cat_name', words') ∈ categories ∧
           category_path output_dir cat_name' = category_path output_dir cat_name ∧
           docs w' !! category_path output_dir cat_name = Some d ∧
           category_file translations cat_name' words' d).
Proof.
  induction categories as [|[c ws] rest IH]; intros w; cbv zeta.
  - split; [by left | intros ?? H; by apply elem_of_nil in H].
  - unfold save_categories. cbn [foldl].
    set (w1 := save_category output_dir translations w (c, ws)).
    destruct (IH w1) as [IHa IHb]. cbv zeta in IHa, IHb.
    fold (save_categories rest output_dir translations w1).
    assert (∀ p, docs w1 !! p =
                 if decide (category_path output_dir c = p)
                 then Some (Plain (category_text translations c ws))
                 else docs w !! p) as Hw1.
    { intros p. subst w1. unfold save_category, say, record, write_doc.
      cbn [docs]. fold (category_path output_dir c). apply lookup_insert. }
    assert (∀ p, docs (save_categories rest output_dir translations w1) !! p
                 = docs w !! p ∨
                 ∃ cat_name words d,
                   (cat_name, words) ∈ (c, ws) :: rest ∧
                   p = category_path output_dir cat_name ∧
                   docs (save_categories rest output_dir translations w1) !! p
                   = Some d ∧
                   category_file translations cat_name words d) as Ha.
    { intros p. destruct (IHa p) as [Heq|(n & wds & d & Hin & -> & Hd & Hcf)].
      - rewrite Hw1 in Heq.
        destruct (decide (category_path output_dir c = p)) as [<-|].
        + right. exists c, ws, (Plain (category_text translations c ws)).
          split; [left|]. split; [done|]. split; [done|].
          apply category_text_file.
        + by left.
      - right. exists n, wds, d. split; [by right | done]. }
    split; [exact Ha|].
    intros n wds [[= -> ->]|Hin]%elem_of_cons.
    + destruct (Ha (category_path output_dir c))
        as [Heq|(n' & wds' & d & Hin' & Hp & Hd & Hcf)].
      * destruct (IHa (category_path output_dir c))
          as [Heq1|(n' & wds' & d & Hin' & Hp & Hd & Hcf)].
        -- exists c, ws, (Plain (category_text translations c ws)).
           split; [left|]. split; [done|]. split; [|apply category_text_file].
           rewrite Heq1, Hw1. by destruct (decide _) as [_|[]].
        -- exists n', wds', d. split; [by right | done].
      * by exists n', wds', d.
    + destruct (IHb n wds Hin) as (n' & wds' & d & Hin' & Hp & Hd & Hcf).
      exists n', wds', d. split; [by right | done].
Qed.

(** [C9] Every file [save_categories] writes is the file of one of the
    categories: its first line is the category name with every underscore
    removed, and the lines after it are the lines of the category's words
    in the unique order that is sorted lexicographically by the English
    word, whatever order the words had in the category.  Every category
    has such a file at its path, and all other files are left alone. *)
Theorem save_categories_sorted categories output_dir translations w :
  let w' := save_categories categories output_dir translations w in
  (∀ p, docs w' !! p = docs w !! p ∨
        ∃ cat_name words d,
          (cat_name, words) ∈ categories ∧ p = category_path output_dir cat_name ∧
          docs w' !! p = Some d ∧ category_file translations cat_name words d)
  ∧ (∀ cat_name words,
       (cat_name, words) ∈ categories →
       ∃ cat_name' words' d,
         (cat_name', words') ∈ categories ∧
         category_path output_dir cat_name' = category_path output_dir cat_name ∧
         docs w' !! category_path output_dir cat_name = Some d ∧
         category_file translations cat_name' words' d)
  ∧ (∀ words l1 l2 : list pystr,
       Sorted str_le l1 → l1 ≡ₚ words → Sorted str_le l2 → l2 ≡ₚ words → l1 = l2)
  ∧ (∀ words words' : list pystr,
       words ≡ₚ words' → sorted_by str_leb words = sorted_by str_leb words').
Proof.
  pose proof (save_categories_spec output_dir translations categories w) as [Ha Hb].
  split; [exact Ha|]. split; [exact Hb|].
  assert (∀ words l1 l2 : list pystr,
            Sorted str_le l1 → l1 ≡ₚ words → Sorted str_le l2 → l2 ≡ₚ words →
            l1 = l2) as Huniq.
  { intros words l1 l2 H1 P1 H2 P2. apply (Sorted_unique str_le); [done..|].
    by rewrite P1, P2. }
  split; [exact Huniq|].
  intros words words' Hp. apply (Huniq words).
  - apply sorted_by_sorted, str_leb_total.
  - apply sorted_by_perm.
  - apply sorted_by_sorted, str_leb_total.
  - by rewrite sorted_by_perm.
Qed.

(** ** Slicing a list into consecutive parts *)

Lemma concat_slices {A} (l : list A) m n :
  concat ((λ k, slice l (k * m) (k * m + m)) <$> seq 0 n) = take (n * m) l.
Proof.
  induction n as [|n IH]; [done|].
  rewrite seq_S, fmap_app, concat_app, IH. cbn [fmap list_fmap concat].
  rewrite app_nil_r. unfold slice.
  replace (S n * m) with (n * m + m) by lia.
  by rewrite <- take_drop_commute, take_take_drop.
Qed.

Lemma ceil_div_mul n m : 0 < m → n ≤ (n + m - 1) / m * m.
Proof.
  intros Hm. pose proof (Nat.div_mod (n + m - 1) m) as Hd.
  pose proof (Nat.mod_upper_bound (n + m - 1) m). lia.
Qed.

Lemma concat_slices_all {A} (l : list A) m :
  0 < m →
  concat ((λ k, slice l (k * m) (k * m + m)) <$> seq 0 ((length l + m - 1) / m)) = l.
Proof.
  intros Hm. rewrite concat_slices. apply take_ge. by apply ceil_div_mul.
Qed.

Lemma slice_min {A} (l : list A) a b :
  slice l a (min b (length l)) = slice l a b.
Proof.
  unfold slice. destruct (decide (b ≤ length l)).
  - by rewrite Nat.min_l.
  - rewrite Nat.min_r, !take_ge by lia. done.
Qed.

Lemma length_slice {A} (l : list A) a b :
  length (slice l a b) = min b (length l) - a.
Proof. unfold slice. by rewrite length_drop, length_take. Qed.

(** ** Splitting large categories *)

Lemma num_parts_large words : 60 < length words → 1 < num_parts words.
Proof.
  intros H. unfold num_parts.
  assert (2 ≤ (length words + 60 - 1) / 60); [|lia].
  apply Nat.div_le_lower_bound; lia.
Qed.

Lemma split_category_60 result item :
  split_category 60 result item = Some (foldl assign result (category_assignments item)).
Proof.
  destruct item as [cat_name words]. unfold split_category, category_assignments.
  cbn [fst snd]. destruct (Nat.leb_spec (length words) 60) as [Hle|Hgt]; [done|].
  f_equal. fold (num_parts words). rewrite foldl_fmap.
  pose proof (num_parts_large words Hgt) as Hn.
  apply Nat.ltb_lt in Hn. unfold split_part. by rewrite Hn.
Qed.

Lemma split_loop_60 categories :
  ∀ result,
    split_loop 60 categories result = Some (foldl assign result (assignments categories)).
Proof.
  induction categories as [|item rest IH]; intros result; [done|].
  cbn [split_loop]. rewrite split_category_60, IH.
  unfold assignments. rewrite fmap_cons. cbn [concat].
  by rewrite (foldl_app assign).
Qed.

Lemma foldl_assign_elem_of l :
  ∀ result kv, kv ∈ foldl assign result l → kv ∈ result ∨ kv ∈ l.
Proof.
  induction l as [|[k v] l IH]; intros result kv; simpl; [by left|].
  intros [Hin|Hin]%IH; [|by right; right].
  unfold assign in Hin. cbn [fst snd] in Hin.
  assert (∀ d : dict (list pystr), kv ∈ dict_set k v d → kv ∈ d ∨ kv = (k, v)) as Hset.
  { clear. induction d as [|[k0 v0] d IHd]; simpl.
    - intros ->%list_elem_of_singleton. by right.
    - destruct (decide (k0 = k)).
      + intros [->|?]%elem_of_cons; [by right | left; by right].
      + intros [->|[?| ->]%IHd]%elem_of_cons;
          [left; left | left; by right | by right]. }
  destruct (Hset _ Hin) as [?| ->]; [by left | right; left].
Qed.

Lemma foldl_assign_frame l :
  ∀ result k, k ∉ l.*1 → dict_get (foldl assign result l) k = dict_get result k.
Proof.
  induction l as [|[k0 v0] l IH]; intros result k Hk; [done|].
  rewrite fmap_cons, not_elem_of_cons in Hk. destruct Hk as [Hne Hk].
  cbn [foldl]. rewrite IH by done. unfold assign.
  by rewrite dict_get_set_ne.
Qed.

Lemma foldl_assign_get l :
  ∀ result k v,
    NoDup l.*1 → (k, v) ∈ l → dict_get (foldl assign result l) k = Some v.
Proof.
  induction l as [|[k0 v0] l IH]; intros result k v Hnd Hin.
  - by apply elem_of_nil in Hin.
  - rewrite fmap_cons in Hnd. apply NoDup_cons in Hnd as [Hk0 Hnd].
    cbn [foldl]. apply elem_of_cons in Hin as [[= -> ->]|Hin].
    + rewrite foldl_assign_frame by done. apply dict_get_set_eq.
    + by apply IH.
Qed.

Lemma part_length words i : length (part words i) ≤ 60.
Proof. unfold part. rewrite length_slice. lia. Qed.

Lemma part_nonempty words i : i < num_parts words → 0 < length (part words i).
Proof.
  unfold part, num_parts. rewrite length_slice. intros Hi.
  assert (i * 60 < length words); [|lia].
  pose proof (Nat.Div0.mul_div_le (length words + 60 - 1) 60). nia.
Qed.

Lemma parts_concat words :
  concat (part words <$> seq 0 (num_parts words)) = words.
Proof.
  unfold num_parts. rewrite <- (concat_slices_all words 60) at 3 by lia.
  f_equal. apply list_fmap_ext. intros _ i _. unfold part.
  rewrite slice_min. f_equal. lia.
Qed.

Lemma assignments_small categories :
  Forall (λ kv : pystr * list pystr, length kv.2 ≤ 60) (assignments categories).
Proof.
  unfold assignments. apply List.Forall_concat, Forall_fmap, Forall_forall.
  intros [name words] _. unfold category_assignments. cbn [fst snd compose].
  destruct (Nat.leb_spec (length words) 60).
  - constructor; [done | constructor].
  - apply Forall_fmap, Forall_forall. intros i _. apply part_length.
Qed.

Lemma assignments_elem_of categories item kv :
  item ∈ categories → kv ∈ category_assignments item → kv ∈ assignments categories.
Proof.
  intros Hitem Hkv. unfold assignments. apply list_elem_of_In, in_concat.
  exists (category_assignments item). split; apply list_elem_of_In; [|done].
  by apply list_elem_of_fmap_2.
Qed.

Lemma length_concat_sum {A} (ls : list (list A)) :
  sum_list (length <$> ls) = length (concat ls).
Proof.
  induction ls as [|l ls IH]; [done|].
  rewrite fmap_cons. cbn [concat]. rewrite length_app, <- IH. done.
Qed.

Lemma parts_61 words :
  length words = 61 →
  part words <$> seq 0 (num_parts words) = [take 60 words; drop 60 words].
Proof.
  intros H. unfold num_parts, part. rewrite H.
  change ((61 + 60 - 1) / 60) with 2. cbn [seq fmap list_fmap].
  unfold slice. cbn [Nat.mul Nat.add Nat.min drop].
  by rewrite (take_ge words 61) by lia.
Qed.

(** *** Output names that cannot collide *)

Lemma py_inj s1 s2 : py s1 = py s2 → s1 = s2.
Proof.
  revert s2. induction s1 as [|a s1 IH]; intros [|b s2]; simpl; try done.
  intros [= Hab Hs]. f_equal; [|by apply IH].
  by rewrite <- (ascii_N_embedding a), <- (ascii_N_embedding b), Hab.
Qed.

Lemma pretty_N_go_no_underscore x :
  ∀ s, underscore ∉ py s → underscore ∉ py (pretty_N_go x s).
Proof.
  induction (N.lt_wf_0 x) as [x _ IH]; intros s Hs.
  destruct (decide (x = 0)%N) as [->|Hx]; [by rewrite pretty_N_go_0|].
  rewrite pretty_N_go_step by lia. apply IH; [apply N.div_lt; lia|].
  cbn [py]. apply not_elem_of_cons. split; [|done].
  unfold pretty_N_char. by repeat case_match.
Qed.

Lemma pretty_nat_no_underscore (n : nat) : underscore ∉ py (pretty n).
Proof.
  unfold pretty, pretty_nat, pretty, pretty_N.
  case_decide; [by vm_compute; intros ?%list_elem_of_In; simpl in *; intuition|].
  apply pretty_N_go_no_underscore. apply not_elem_of_nil.
Qed.

Lemma app_underscore_inj (a b c d : pystr) :
  underscore ∉ a → underscore ∉ c →
  a ++ underscore :: b = c ++ underscore :: d → a = c ∧ b = d.
Proof.
  revert c. induction a as [|x a IH]; intros [|y c] Ha Hc; simpl.
  - by intros [= ->].
  - intros [= <- _]. apply not_elem_of_cons in Hc as [[] _]. done.
  - intros [= -> _]. apply not_elem_of_cons in Ha as [[] _]. done.
  - intros [= -> H]. apply not_elem_of_cons in Ha as [_ Ha].
    apply not_elem_of_cons in Hc as [_ Hc].
    destruct (IH c Ha Hc H) as [-> ->]. done.
Qed.

Lemma part_name_inj name name' i i' :
  underscore ∉ name → underscore ∉ name' →
  part_name name i = part_name name' i' → name = name' ∧ i = i'.
Proof.
  unfold part_name. intros Hn Hn' H.
  apply app_underscore_inj in H as [-> H]; [|done..].
  split; [done|]. apply py_inj, (inj pretty) in H. lia.
Qed.

Lemma part_name_underscore name i : underscore ∈ part_name name i.
Proof. unfold part_name. apply elem_of_app. right. left. Qed.

Lemma category_names_cases item x :
  x ∈ (category_assignments item).*1 →
  x = item.1 ∨ ∃ i, x = part_name item.1 i.
Proof.
  unfold category_assignments. destruct (length item.2 <=? 60).
  - intros ->%list_elem_of_singleton. by left.
  - rewrite <- list_fmap_compose. intros (i & -> & _)%list_elem_of_fmap.
    right. by exists i.
Qed.

Lemma category_names_NoDup item :
  underscore ∉ item.1 → NoDup (category_assignments item).*1.
Proof.
  intros Hn. unfold category_assignments. destruct (length item.2 <=? 60).
  - apply NoDup_singleton.
  - rewrite <- list_fmap_compose. apply NoDup_fmap_2_strong; [|apply NoDup_seq].
    intros i i' _ _ H. simpl in H. by apply part_name_inj in H as [_ ?].
Qed.

Lemma elem_of_output_names x categories :
  x ∈ output_names categories →
  ∃ item, item ∈ categories ∧ x ∈ (category_assignments item).*1.
Proof.
  unfold output_names, assignments.
  induction categories as [|item rest IH]; [by intros ?%elem_of_nil|].
  rewrite fmap_cons. cbn [concat]. rewrite fmap_app, elem_of_app.
  intros [?|(item' & ? & ?)%IH].
  - exists item. split; [left | done].
  - exists item'. split; [by right | done].
Qed.

(** Distinct category names without underscores give distinct output
    names. *)
Lemma output_names_NoDup categories :
  NoDup categories.*1 →
  Forall (λ name, underscore ∉ name) categories.*1 →
  NoDup (output_names categories).
Proof.
  induction categories as [|item rest IH]; [constructor|].
  rewrite fmap_cons. intros [Hfresh Hnd]%NoDup_cons [Hitem Hrest]%Forall_cons.
  unfold output_names, assignments. rewrite fmap_cons. cbn [concat].
  rewrite fmap_app. apply NoDup_app.
  split; [by apply category_names_NoDup|]. split; [|by apply IH].
  intros x Hx (item' & Hin' & Hx')%elem_of_output_names.
  assert (underscore ∉ item'.1) as Hitem'.
  { rewrite Forall_forall in Hrest. apply Hrest. by apply list_elem_of_fmap_2. }
  assert (item.1 ≠ item'.1) as Hne.
  { intros Heq. apply Hfresh. rewrite Heq. by apply list_elem_of_fmap_2. }
  destruct (category_names_cases _ _ Hx) as [->|[i ->]],
    (category_names_cases _ _ Hx') as [Heq|[i' Heq]].
  - done.
  - apply Hitem. rewrite Heq. apply part_name_underscore.
  - apply Hitem'. rewrite <- Heq. apply part_name_underscore.
  - by apply part_name_inj in Heq as [? _].
Qed.

Lemma dict_set_keys {V} (d : dict V) k v :
  (dict_set k v d).*1 = if decide (k ∈ d.*1) then d.*1 else d.*1 ++ [k].
Proof.
  induction d as [|[k0 v0] d IH]; cbn [dict_set].
  - by destruct (decide (k ∈ _)) as [?%elem_of_nil|].
  - destruct (decide (k0 = k)) as [->|Hne]; rewrite !fmap_cons; cbn [fst].
    + destruct (decide (k ∈ k :: d.*1)) as [|[]]; [done | left].
    + rewrite IH. destruct (decide (k ∈ d.*1)) as [Hin|Hnin].
      * destruct (decide (k ∈ k0 :: d.*1)) as [|[]]; [done | by right].
      * destruct (decide (k ∈ k0 :: d.*1)) as [[?|?]%elem_of_cons|]; done.
Qed.

Lemma dict_set_keys_good {V} (P : pystr → Prop) (d : dict V) k v :
  NoDup d.*1 → Forall P d.*1 → P k →
  NoDup (dict_set k v d).*1 ∧ Forall P (dict_set k v d).*1.
Proof.
  intros Hnd HP Hk. rewrite dict_set_keys. destruct (decide (k ∈ d.*1)); [done|].
  split.
  - apply NoDup_app. split; [done|]. split; [|apply NoDup_singleton].
    by intros x Hx ->%list_elem_of_singleton.
  - apply Forall_app. split; [done|]. by repeat constructor.
Qed.

Lemma dict_get_value {V} (d : dict V) k v : dict_get d k = Some v → v ∈ d.*2.
Proof.
  intros H%dict_get_elem_of. by apply (list_elem_of_fmap_2 snd) in H.
Qed.

Lemma get_word_category_no_underscore L word name :
  get_word_category L word = Some name → underscore ∉ name.
Proof.
  assert (Forall (λ v, underscore ∉ v) (OTHER :: LEXNAME_TO_CHINESE.*2 ++ CATEGORY_MERGE.*2))
    as Hall by (refine (bool_decide_unpack _ _); vm_compute; exact I).
  rewrite Forall_forall in Hall. intros Hget. apply Hall.
  unfold get_word_category in Hget. cbv zeta in Hget.
  destruct (match synsets L (replace_char 32 [underscore] word) with
            | [] => synsets L (replace_char 32 [] word)
            | _ :: _ => synsets L (replace_char 32 [underscore] word)
            end) as [|lexname ?]; [done|].
  apply (inj Some) in Hget. subst name.
  assert (default OTHER (dict_get LEXNAME_TO_CHINESE lexname)
          ∈ OTHER :: LEXNAME_TO_CHINESE.*2) as Hc.
  { destruct (dict_get LEXNAME_TO_CHINESE lexname) eqn:Hl; cbn [default];
      [right | left].
    by apply dict_get_value in Hl. }
  destruct (dict_get CATEGORY_MERGE
              (default OTHER (dict_get LEXNAME_TO_CHINESE lexname))) eqn:Hm;
    cbn [default].
  - right. apply elem_of_app. right. by apply dict_get_value in Hm.
  - apply elem_of_cons in Hc as [->|Hc]; [left | right].
    apply elem_of_app. by left.
Qed.

Lemma categorize_words_keys L words :
  NoDup (categorize_words L words).1.*1
  ∧ Forall (λ name, underscore ∉ name) (categorize_words L words).1.*1.
Proof.
  unfold categorize_words.
  assert (∀ st : dict (list pystr) * list pystr,
            NoDup st.1.*1 ∧ Forall (λ name, underscore ∉ name) st.1.*1 →
            NoDup (foldl (categorize_word L) st words).1.*1
            ∧ Forall (λ name, underscore ∉ name)
                (foldl (categorize_word L) st words).1.*1) as Hfold.
  { induction words as [|word words IH]; intros [categories uncategorized] Hst;
      [done|].
    cbn [foldl]. apply IH. unfold categorize_word.
    destruct (get_word_category L word) as [[|c name]|] eqn:Hcat; [done| |done].
    cbn [fst snd] in *. destruct Hst as [Hnd HP].
    apply dict_set_keys_good; [done..|].
    by apply (get_word_category_no_underscore L word). }
  apply Hfold. split; [constructor | constructor].
Qed.

(** The categories [main] hands to the split have pairwise distinct
    output names. *)
Lemma main_output_names_NoDup L words :
  let '(categories, uncategorized) := categorize_words L words in
  NoDup (output_names
           match uncategorized with
           | [] => categories
           | _ => dict_set UNCATEGORIZED uncategorized categories
           end).
Proof.
  pose proof (categorize_words_keys L words) as [Hnd HP].
  destruct (categorize_words L words) as [categories uncategorized].
  cbn [fst] in *. destruct uncategorized as [|u us].
  - by apply output_names_NoDup.
  - destruct (dict_set_keys_good (λ name, underscore ∉ name) categories
                UNCATEGORIZED (u :: us) Hnd HP) as [Hnd' HP'].
    { refine (bool_decide_unpack _ _). vm_compute. exact I. }
    by apply output_names_NoDup.
Qed.

(** [C5] With the limit of 60 the split never fails, every output category
    is one of the assignments made and holds at most 60 words; an
    oversized category is cut into consecutive, non-empty slices of at
    most 60 words whose concatenation is the category, two slices of 60
    and 1 words for a category of 61.  When no two output names coincide,
    a category of at most 60 words is in the result whole under its own
    name and the [i]-th slice of an oversized category under the name of
    the category followed by an underscore and [i+1].  Output names
    cannot coincide when the category names are distinct and hold no
    underscore, which is the case for the categories [main] builds. *)
Theorem split_large_categories_spec categories :
  ∃ result,
    split_large_categories categories 60 = Some result
    ∧ (∀ name words,
         (name, words) ∈ result →
         length words ≤ 60 ∧ (name, words) ∈ assignments categories)
    ∧ (∀ name words,
         (name, words) ∈ categories → 60 < length words →
         let parts := part words <$> seq 0 (num_parts words) in
         concat parts = words
         ∧ sum_list (length <$> parts) = length words
         ∧ Forall (λ p, 0 < length p ≤ 60) parts
         ∧ (length words = 61 → parts = [take 60 words; drop 60 words]))
    ∧ (NoDup (output_names categories) →
       ∀ name words,
         (name, words) ∈ categories →
         (length words ≤ 60 → dict_get result name = Some words)
         ∧ (60 < length words →
            ∀ i, i < num_parts words →
                 dict_get result (part_name name i) = Some (part words i)))
    ∧ (NoDup categories.*1 →
       Forall (λ name, underscore ∉ name) categories.*1 →
       NoDup (output_names categories))
    ∧ (∀ L words,
         NoDup (output_names
                  match (categorize_words L words).2 with
                  | [] => (categorize_words L words).1
                  | _ => dict_set UNCATEGORIZED (categorize_words L words).2
                           (categorize_words L words).1
                  end)).
Proof.
  exists (foldl assign [] (assignments categories)).
  split; [apply split_loop_60|]. split; [|split; [|split; [|split]]];
    [| | |apply output_names_NoDup|];
    [| | |intros L words; pose proof (main_output_names_NoDup L words) as H;
          by destruct (categorize_words L words)].
  - intros name words [Hin|Hin]%foldl_assign_elem_of;
      [by apply elem_of_nil in Hin|].
    split; [|done].
    pose proof (assignments_small categories) as Hsmall.
    rewrite Forall_forall in Hsmall. apply (Hsmall _ Hin).
  - intros name words _ Hbig parts. subst parts.
    split; [apply parts_concat|]. split; [|split].
    + by rewrite length_concat_sum, parts_concat.
    + apply Forall_fmap, Forall_forall. intros i Hi%elem_of_seq. simpl.
      split; [apply part_nonempty; lia | apply part_length].
    + apply parts_61.
  - intros Hnd name words Hin. split.
    + intros Hsmall. apply foldl_assign_get; [done|].
      apply (assignments_elem_of _ (name, words)); [done|].
      unfold category_assignments. cbn [snd].
      apply Nat.leb_le in Hsmall. rewrite Hsmall. left.
    + intros Hbig i Hi. apply foldl_assign_get; [done|].
      apply (assignments_elem_of _ (name, words)); [done|].
      unfold category_assignments. cbn [fst snd].
      destruct (Nat.leb_spec (length words) 60); [lia|].
      apply (list_elem_of_fmap_2 (λ i, (part_name name i, part words i))).
      apply elem_of_seq. lia.
Qed.

(** ** Translation with a cache *)

Lemma new_journal_app w w' evs :
  journal w' = journal w ++ evs → new_journal w w' = evs.
Proof. unfold new_journal. intros ->. by rewrite drop_app_length. Qed.

Lemma batches_sent_app evs1 evs2 :
  batches_sent (evs1 ++ evs2) = batches_sent evs1 ++ batches_sent evs2.
Proof. apply omap_app. Qed.

Lemma words_retried_app evs1 evs2 :
  words_retried (evs1 ++ evs2) = words_retried evs1 ++ words_retried evs2.
Proof. apply omap_app. Qed.

Lemma batches_sent_say m evs : batches_sent (Say m :: evs) = batches_sent evs.
Proof. done. Qed.

Lemma words_retried_say m evs : words_retried (Say m :: evs) = words_retried evs.
Proof. done. Qed.

Lemma translate_word_fold L batch :
  ∀ tr w,
    let r := foldl (translate_word L) (tr, w) batch in
    ∃ evs,
      journal r.2 = journal w ++ evs ∧ docs r.2 = docs w
      ∧ batches_sent evs = [] ∧ words_retried evs = batch
      ∧ (∀ k, k ∉ batch → dict_get r.1 k = dict_get tr k)
      ∧ (∀ x, Forall (fails_for x) evs →
              x ∈ batch ∨ dict_get tr x = Some x → dict_get r.1 x = Some x).
Proof.
  induction batch as [|word batch IH]; intros tr w; cbv zeta.
  - exists []. rewrite app_nil_r. repeat split; try done.
    intros x _ [Hin|?]; [by apply elem_of_nil in Hin | done].
  - cbn [foldl].
    set (res := translator L (translator_calls w) word).
    set (w1 := record (TranslateWord word res)
                 {| docs := docs w; journal := journal w;
                    translator_calls := S (translator_calls w) |}).
    set (tr1 := dict_set word (default word res) tr).
    assert (translate_word L (tr, w) word = (tr1, w1)) as ->.
    { unfold translate_word, translate. cbv beta iota zeta.
      fold res. subst tr1 w1. by destruct res. }
    destruct (IH tr1 w1) as (evs & Hj & Hd & Hb & Hw & Hframe & Hfail).
    exists (TranslateWord word res :: evs). rewrite Hj, Hd. subst w1.
    cbn [journal docs record]. rewrite <- app_assoc.
    split; [done|]. split; [done|]. split; [done|].
    split; [by rewrite <- Hw|]. split.
    + intros k [Hne Hk]%not_elem_of_cons. rewrite Hframe by done.
      subst tr1. by rewrite dict_get_set_ne.
    + intros x [Hx Hevs]%Forall_cons Hin. apply Hfail; [done|].
      destruct (decide (word = x)) as [->|Hne].
      * right. subst tr1. rewrite (Hx eq_refl). apply dict_get_set_eq.
      * destruct Hin as [[?|?]%elem_of_cons|?]; [done | by left | right].
        subst tr1. by rewrite dict_get_set_ne.
Qed.

Lemma zip_assign_frame (batch translated : list pystr) :
  ∀ tr k,
    k ∉ batch →
    dict_get (foldl (λ tr (wt : pystr * pystr), dict_set wt.1 (strip wt.2) tr)
                tr (zip batch translated)) k
    = dict_get tr k.
Proof.
  revert translated. induction batch as [|word batch IH];
    intros [|t translated] tr k Hk; try done.
  apply not_elem_of_cons in Hk as [Hne Hk]. cbn [zip zip_with foldl fst snd].
  unfold zip in IH. rewrite IH by done. by rewrite dict_get_set_ne.
Qed.

Lemma translate_batch_step L todo tr w i :
  let batch := slice todo i (i + batch_size) in
  let r := translate_batch L todo (tr, w) i in
  ∃ evs,
    journal r.2 = journal w ++ evs ∧ docs r.2 = docs w
    ∧ batches_sent evs = [batch]
    ∧ (∀ x, x ∈ words_retried evs → x ∈ batch)
    ∧ (∀ k, k ∉ batch → dict_get r.1 k = dict_get tr k)
    ∧ (∀ x, Forall (fails_for x) evs →
            x ∈ batch ∨ dict_get tr x = Some x → dict_get r.1 x = Some x).
Proof.
  intros batch r. subst r. unfold translate_batch, translate.
  cbv beta iota zeta. fold batch.
  set (res := translator L (translator_calls w) (join [newline] batch)).
  destruct res as [result|] eqn:Hres.
  - match goal with
    | |- context [if ?c then say ?m ?w1 else ?w1] =>
        exists (TranslateBatch batch (Some result) ::
                if c then [Say m] else []);
        assert (journal (if c then say m w1 else w1)
                = journal w ++ TranslateBatch batch (Some result) ::
                  (if c then [Say m] else [])) as Hj
          by (destruct c; cbn [journal say record]; by rewrite <- ?app_assoc);
        assert (docs (if c then say m w1 else w1) = docs w) as Hd
          by (by destruct c);
        destruct c
    end; cbn [fst snd];
      (split; [exact Hj|]; split; [exact Hd|]; split; [done|];
       split; [intros x Hx; by apply elem_of_nil in Hx|]; split;
       [intros k Hk; by apply zip_assign_frame|];
       intros x [Hx _]%Forall_cons [Hin|Hkeep]; [by specialize (Hx Hin)|];
       destruct (decide (x ∈ batch)) as [Hin|Hnin]; [by specialize (Hx Hin)|];
       by rewrite zip_assign_frame).
  - destruct (translate_word_fold L batch tr
                (say BatchFailed
                   (record (TranslateBatch batch None)
                      {| docs := docs w; journal := journal w;
                         translator_calls := S (translator_calls w) |})))
      as (evs & Hj & Hd & Hb & Hw & Hframe & Hfail).
    cbv zeta in Hj, Hd, Hframe, Hfail.
    exists (TranslateBatch batch None :: Say BatchFailed :: evs).
    rewrite Hj, Hd. cbn [journal docs say record]. rewrite <- !app_assoc.
    split; [done|]. split; [done|].
    split; [by change (batch :: batches_sent evs = [batch]); rewrite Hb|].
    split; [intros x; by change (x ∈ words_retried evs → x ∈ batch); rewrite Hw|].
    split; [done|].
    intros x [_ [_ Hevs]%Forall_cons]%Forall_cons Hin. by apply Hfail.
Qed.

Lemma translate_batches_fold L todo indices :
  ∀ tr w,
    let batches := (λ i, slice todo i (i + batch_size)) <$> indices in
    let r := foldl (translate_batch L todo) (tr, w) indices in
    ∃ evs,
      journal r.2 = journal w ++ evs ∧ docs r.2 = docs w
      ∧ batches_sent evs = batches
      ∧ (∀ x, x ∈ words_retried evs → x ∈ concat batches)
      ∧ (∀ k, k ∉ concat batches → dict_get r.1 k = dict_get tr k)
      ∧ (∀ x, Forall (fails_for x) evs →
              x ∈ concat batches ∨ dict_get tr x = Some x →
              dict_get r.1 x = Some x).
Proof.
  induction indices as [|i indices IH]; intros tr w; cbv zeta.
  - exists []. rewrite app_nil_r. repeat split; try done.
    intros x _ [Hin|?]; [by apply elem_of_nil in Hin | done].
  - cbn [foldl]. rewrite fmap_cons. cbn [concat].
    destruct (translate_batch_step L todo tr w i)
      as (evs1 & Hj1 & Hd1 & Hb1 & Hw1 & Hframe1 & Hfail1).
    cbv zeta in Hj1, Hd1, Hb1, Hw1, Hframe1, Hfail1.
    destruct (translate_batch L todo (tr, w) i) as [tr1 w1]. cbn [fst snd] in *.
    destruct (IH tr1 w1) as (evs2 & Hj2 & Hd2 & Hb2 & Hw2 & Hframe2 & Hfail2).
    cbv zeta in Hj2, Hd2, Hb2, Hw2, Hframe2, Hfail2.
    exists (evs1 ++ evs2). rewrite Hj2, Hj1, Hd2, Hd1, <- app_assoc.
    split; [done|]. split; [done|].
    split; [by rewrite batches_sent_app, Hb1, Hb2|]. split; [|split].
    + intros x. rewrite words_retried_app, !elem_of_app.
      intros [?|?]; [left | right]; auto.
    + intros k [Hk1 Hk2]%not_elem_of_app.
      by rewrite Hframe2, Hframe1.
    + intros x [He1 He2]%Forall_app Hin. apply Hfail2; [done|].
      destruct (decide (x ∈ concat ((λ i, slice todo i (i + batch_size)) <$> indices)))
        as [?|Hnot]; [by left | right].
      apply Hfail1; [done|].
      destruct Hin as [[?|?]%elem_of_app|?]; [by left | done | by right].
Qed.

Lemma py_range_batches {A} (todo : list A) :
  concat ((λ i, slice todo i (i + batch_size)) <$> py_range (length todo) batch_size)
  = todo.
Proof.
  unfold py_range. rewrite <- list_fmap_compose.
  apply (concat_slices_all todo batch_size). unfold batch_size. lia.
Qed.

Lemma py_range_batches_length {A} (todo : list A) :
  Forall (λ b, 0 < length b ≤ batch_size)
    ((λ i, slice todo i (i + batch_size)) <$> py_range (length todo) batch_size).
Proof.
  unfold py_range. rewrite <- list_fmap_compose.
  apply Forall_fmap, Forall_forall. intros k Hk%elem_of_seq. simpl.
  rewrite length_slice. unfold batch_size in *.
  pose proof (Nat.Div0.mul_div_le (length todo + 50 - 1) 50). nia.
Qed.

Lemma load_cache_world cache_file w :
  docs (load_cache cache_file w).2 = docs w
  ∧ translator_calls (load_cache cache_file w).2 = translator_calls w
  ∧ ∃ evs, journal (load_cache cache_file w).2 = journal w ++ evs
           ∧ batches_sent evs = [] ∧ words_retried evs = []
           ∧ ∀ x, Forall (fails_for x) evs.
Proof.
  assert (∀ w', w' = w ∨ (∃ n, w' = say (CacheLoaded n) w) →
    docs w' = docs w ∧ translator_calls w' = translator_calls w
    ∧ ∃ evs, journal w' = journal w ++ evs
             ∧ batches_sent evs = [] ∧ words_retried evs = []
             ∧ ∀ x, Forall (fails_for x) evs) as H.
  { intros w' [->|[n ->]].
    - split; [done|]. split; [done|]. exists []. by rewrite app_nil_r.
    - split; [done|]. split; [done|]. eexists [_]. split; [done|].
      split; [done|]. split; [done|]. intros x. by repeat constructor. }
  apply H. unfold load_cache. destruct cache_file as [[|c p]|]; try by left.
  destruct (docs w !! (c :: p)) as [[content|[members|items|s|]]|];
    cbn [snd]; try (by left); right; by eexists.
Qed.

Lemma load_cache_docs cache_file w1 w2 :
  docs w1 = docs w2 → (load_cache cache_file w1).1 = (load_cache cache_file w2).1.
Proof.
  intros H. unfold load_cache. destruct cache_file as [[|c p]|]; try done.
  rewrite H. by destruct (docs w2 !! (c :: p)) as [[]|].
Qed.

(** The run of [translate_words] from the list comprehension on, stage by
    stage, when [translations] is a dict. *)
Lemma translate_missing_run L words cache_file cache w :
  let todo := List.filter (λ x, negb (dict_in x cache)) words in
  let r := translate_missing L words cache_file cache w in
  ∃ evs,
    journal r.2 = journal w ++ evs
    ∧ batches_sent evs
      = (λ i, slice todo i (i + batch_size)) <$> py_range (length todo) batch_size
    ∧ (∀ x, x ∈ words_retried evs → x ∈ todo)
    ∧ (∀ k, k ∉ todo → dict_get r.1 k = dict_get cache k)
    ∧ (∀ x, Forall (fails_for x) evs → x ∈ todo → dict_get r.1 x = Some x)
    ∧ (todo = [] → r.1 = cache ∧ docs r.2 = docs w ∧ words_retried evs = [])
    ∧ (∀ c p, cache_file = Some (c :: p) → todo ≠ [] →
              docs r.2 !! (c :: p) = Some (Json (JObject r.1))).
Proof.
  intros todo r. subst r. unfold translate_missing. cbv zeta. fold todo.
  destruct todo as [|x0 todo'] eqn:Htodo.
  { exists []. cbn [fst snd]. rewrite app_nil_r. split; [done|]. split; [done|].
    split; [done|]. split; [done|].
    split; [intros x _ Hx; by apply elem_of_nil in Hx|].
    split; [done|]. by intros c p _ []. }
  rewrite <- Htodo.
  destruct (translate_batches_fold L todo (py_range (length todo) batch_size)
              cache (say (Translating (length todo)) w))
    as (evs & Hj & Hd & Hb & Hw & Hframe & Hfail).
  cbv zeta in Hj, Hd, Hb, Hw, Hframe, Hfail.
  rewrite py_range_batches in Hw, Hframe, Hfail.
  destruct (foldl (translate_batch L todo) _ _) as [tr1 w1]. cbn [fst snd] in *.
  assert (journal w1 = journal w ++ Say (Translating (length todo)) :: evs)
    as Hj1.
  { rewrite Hj. cbn [journal say record]. by rewrite <- !app_assoc. }
  assert (∀ post,
    batches_sent post = [] → words_retried post = [] →
    (∀ x, Forall (fails_for x) post) →
    batches_sent (Say (Translating (length todo)) :: evs ++ post)
    = (λ i, slice todo i (i + batch_size)) <$> py_range (length todo) batch_size
    ∧ (∀ x, x ∈ words_retried (Say (Translating (length todo)) :: evs ++ post) →
            x ∈ todo)
    ∧ (∀ k, k ∉ todo → dict_get tr1 k = dict_get cache k)
    ∧ (∀ x, Forall (fails_for x)
              (Say (Translating (length todo)) :: evs ++ post) →
            x ∈ todo → dict_get tr1 x = Some x)) as Hmain.
  { intros post Hbp Hwp Hfp. split; [|split; [|split]].
    - by rewrite batches_sent_say, batches_sent_app, Hb, Hbp, app_nil_r.
    - intros x. rewrite words_retried_say, words_retried_app, Hwp, app_nil_r.
      apply Hw.
    - exact Hframe.
    - intros x [_ [He _]%Forall_app]%Forall_cons Hin.
      apply Hfail; [done | by left]. }
  destruct cache_file as [[|c p]|].
  - exists (Say (Translating (length todo)) :: evs ++ []).
    rewrite app_nil_r at 1. cbn [fst snd]. split; [done|].
    destruct (Hmain []) as (? & ? & ? & ?); try done.
    repeat (split; [done|]). split; [by rewrite Htodo|]. by intros ??.
  - exists (Say (Translating (length todo)) :: evs ++ [Say (CacheSaved (c :: p))]).
    cbn [fst snd journal say record write_doc]. rewrite Hj1, <- !app_assoc.
    split; [done|].
    destruct (Hmain [Say (CacheSaved (c :: p))]) as (? & ? & ? & ?);
      [done | done | by intros; repeat constructor |].
    repeat (split; [done|]). split; [by rewrite Htodo|].
    intros c' p' [= <- <-] _. cbn [docs say record write_doc].
    by rewrite lookup_insert_eq.
  - exists (Say (Translating (length todo)) :: evs ++ []).
    rewrite app_nil_r at 1. cbn [fst snd]. split; [done|].
    destruct (Hmain []) as (? & ? & ? & ?); try done.
    repeat (split; [done|]). split; [by rewrite Htodo|]. by intros ??.
Qed.

Lemma batches_sent_nil_app evs0 evs :
  batches_sent evs0 = [] → batches_sent (evs0 ++ evs) = batches_sent evs.
Proof. intros H. by rewrite batches_sent_app, H. Qed.

Lemma words_retried_nil_app evs0 evs :
  words_retried evs0 = [] → words_retried (evs0 ++ evs) = words_retried evs.
Proof. intros H. by rewrite words_retried_app, H. Qed.

(** The run of [translate_words] when what the cache gave is a dict. *)
Lemma translate_words_run L words cache_file w cache :
  loads_dict cache_file w cache →
  let todo := List.filter (λ x, negb (dict_in x cache)) words in
  let r := translate_words L words cache_file w in
  ∃ result evs,
    r.1 = Done (JObject result)
    ∧ journal r.2 = journal w ++ evs
    ∧ batches_sent evs
      = (λ i, slice todo i (i + batch_size)) <$> py_range (length todo) batch_size
    ∧ (∀ x, x ∈ words_retried evs → x ∈ todo)
    ∧ (∀ k, k ∉ todo → dict_get result k = dict_get cache k)
    ∧ (∀ x, Forall (fails_for x) evs → x ∈ todo → dict_get result x = Some x)
    ∧ (todo = [] → result = cache ∧ docs r.2 = docs w ∧ words_retried evs = [])
    ∧ (∀ c p, cache_file = Some (c :: p) → loads_dict cache_file r.2 result).
Proof.
  intros Hcache todo r. unfold loads_dict in *. subst r. unfold translate_words.
  destruct (load_cache_world cache_file w)
    as (Hd0 & _ & evs0 & Hj0 & Hb0 & Hw0 & Hf0).
  pose proof (load_cache_docs cache_file) as Hload.
  destruct (load_cache cache_file w) as [v w0] eqn:Hlc.
  cbn [fst snd] in *. subst v.
  destruct (translate_missing_run L words cache_file cache w0)
    as (evs & Hj & Hb & Hw & Hframe & Hfail & Hnil & Hsaved).
  cbv zeta in Hj, Hb, Hw, Hframe, Hfail, Hnil, Hsaved.
  fold todo in Hb, Hw, Hframe, Hfail, Hnil, Hsaved.
  destruct (translate_missing L words cache_file cache w0) as [tr1 w1].
  cbn [fst snd] in *. exists tr1, (evs0 ++ evs).
  split; [done|]. split; [by rewrite Hj, Hj0, <- app_assoc|].
  split; [by rewrite batches_sent_nil_app|].
  split; [by rewrite words_retried_nil_app|]. split; [done|].
  split; [by intros x [_ ?]%Forall_app; apply Hfail|]. split.
  - intros Hnone. destruct (Hnil Hnone) as (? & ? & ?).
    split; [done|]. split; [congruence|]. by rewrite words_retried_nil_app.
  - intros c p Hcf. destruct (decide (todo = [])) as [Hnone|Hsome].
    + destruct (Hnil Hnone) as (-> & Hd1 & _).
      rewrite (Hload w1 w) by congruence. by rewrite Hlc.
    + specialize (Hsaved c p Hcf Hsome). subst cache_file.
      unfold load_cache. by rewrite Hsaved.
Qed.

Lemma elem_of_todo {V} (cache : dict V) words x :
  x ∈ List.filter (λ x, negb (dict_in x cache)) words
  ↔ x ∈ words ∧ dict_get cache x = None.
Proof.
  rewrite list_elem_of_In, filter_In, <- list_elem_of_In. unfold dict_in.
  destruct (dict_get cache x); simpl; split; intros [? ?]; by split.
Qed.

(** [C7] When what is loaded from the cache file is a dict (a JSON
    object, or the empty dict for want of a readable JSON file), the run
    returns a dict and the batches sent to the translation backend are, in
    order, the consecutive slices of at most 50 of the input words that are
    not in the loaded cache; a word is sent, in a batch or alone, exactly
    when it is an input word missing from the cache; every entry of the
    cache is in the resulting mapping unchanged.  When every input word is
    cached nothing is sent and the mapping is the cache.  The cache a run
    leaves behind is the mapping it returns, so a second run sends only the
    words the first one left without a translation. *)
Theorem translate_words_cache L words cache_file w cache :
  loads_dict cache_file w cache →
  let todo := List.filter (λ x, negb (dict_in x cache)) words in
  let r := translate_words L words cache_file w in
  let evs := new_journal w r.2 in
  ∃ result,
    r.1 = Done (JObject result)
    ∧ concat (batches_sent evs) = todo
    ∧ Forall (λ b, 0 < length b ≤ 50) (batches_sent evs)
    ∧ (∀ x, x ∈ concat (batches_sent evs) ∨ x ∈ words_retried evs
            ↔ x ∈ words ∧ dict_get cache x = None)
    ∧ (∀ k v, dict_get cache k = Some v → dict_get result k = Some v)
    ∧ ((∀ x, x ∈ words → is_Some (dict_get cache x)) →
       result = cache ∧ docs r.2 = docs w
       ∧ batches_sent evs = [] ∧ words_retried evs = [])
    ∧ (∀ c p words',
         cache_file = Some (c :: p) →
         let r' := translate_words L words' cache_file r.2 in
         (∃ result', r'.1 = Done (JObject result'))
         ∧ concat (batches_sent (new_journal r.2 r'.2))
           = List.filter (λ x, negb (dict_in x result)) words').
Proof.
  intros Hcache todo r evs.
  destruct (translate_words_run L words cache_file w cache Hcache)
    as (result & evs' & Hr & Hj & Hb & Hw & Hframe & _ & Hnil & Hsaved).
  fold todo r in Hr, Hj, Hb, Hw, Hframe, Hnil, Hsaved.
  exists result. split; [done|].
  subst evs. rewrite (new_journal_app _ _ _ Hj), Hb, py_range_batches.
  split; [done|]. split; [apply py_range_batches_length|]. split; [|split; [|split]].
  - intros x. rewrite <- elem_of_todo. fold todo.
    split; [intros [?|?]; auto | by left].
  - intros k v Hk. rewrite Hframe; [done|].
    intros [_ Hnone]%elem_of_todo. congruence.
  - intros Hall.
    assert (todo = []) as Htodo.
    { destruct todo as [|x todo'] eqn:Ht; [done|].
      assert (x ∈ todo) as [Hx Hnone]%elem_of_todo by (rewrite Ht; left).
      destruct (Hall x Hx). congruence. }
    destruct (Hnil Htodo) as (? & ? & ?). by rewrite Htodo.
  - intros c p words' Hcf r'.
    destruct (translate_words_run L words' cache_file r.2 result (Hsaved c p Hcf))
      as (result' & evs2 & Hr' & Hj2 & Hb2 & _).
    fold r' in Hr', Hj2. split; [by exists result'|].
    subst r'. rewrite (new_journal_app _ _ _ Hj2), Hb2.
    by rewrite py_range_batches.
Qed.

(** * Concrete runs *)

Lemma parse_word_file_example :
  fs demo_world !! py "lists/words.txt" = Some (Text example_words)
  ∧ run (parse_word_file (py "lists/words.txt")) demo_world
    = (Ok [([33529; 26524]%N, Some (py "apple"));
           ([39321; 34121]%N, Some (py "banana"))], demo_world).
Proof.
  assert (fs demo_world !! py "lists/words.txt" = Some (Text example_words)) as H
    by (vm_compute; reflexivity).
  split; [exact H|].
  destruct (parse_word_file_spec demo_world _ _ H) as (Hrun & _ & _ & _ & _ & Hex).
  rewrite Hrun, Hex. reflexivity.
Defined.

Lemma text_to_speech_fallback_raises :
  (∀ n text voice rate, tts_backend (demo_services false false) n text voice rate = false)
  ∧ (run (text_to_speech (demo_services false false) (py "apple") ENGLISH_VOICE
            (py "out.mp3")) demo_world).1
    = Raise (CalledProcessError (GenSilence (py "out.mp3") 100)).
Proof. split; [done|]. vm_compute. reflexivity. Qed.

Lemma parse_word_file_empty_is_ok :
  run (parse_word_file (py "lists/empty.txt")) demo_world = (Ok [], demo_world).
Proof. vm_compute. reflexivity. Qed.

Lemma empty_input_example :
  fs demo_world !! py "lists/empty.txt"
  = Some (Text (py "# title" ++ [newline; 32%N; newline]))
  ∧ (run (convert_file_to_mp3 (demo_services true true)
            (py "lists/empty.txt") None) demo_world).1 = Ok false.
Proof.
  assert (fs demo_world !! py "lists/empty.txt"
          = Some (Text (py "# title" ++ [newline; 32%N; newline]))) as H
    by (vm_compute; reflexivity).
  split; [exact H|].
  destruct (empty_input_returns_false (demo_services true true)
              (py "lists/empty.txt") None _ demo_world H) as [_ Hrun].
  { vm_compute. reflexivity. }
  by rewrite Hrun.
Defined.

Lemma audio_tool_failure_example :
  fs demo_world !! py "lists/words.txt" = Some (Text example_words)
  ∧ (run (convert_file_to_mp3 (demo_services true false)
            (py "lists/words.txt") None) demo_world).1
    = Raise (CalledProcessError
               (GenSilence (path_join (py "/tmp/tmp0") (py "silence.mp3"))
                  PAUSE_BETWEEN_WORDS)).
Proof.
  assert (fs demo_world !! py "lists/words.txt" = Some (Text example_words)) as H
    by (vm_compute; reflexivity).
  split; [exact H|].
  destruct (audio_tool_failure_is_fatal (demo_services true false)
              (py "lists/words.txt") example_words demo_world H)
    as (_ & _ & Hsilence & _).
  { by vm_compute. }
  by apply Hsilence.
Defined.

Lemma split_name_collision :
  dict_get demo_categories (py "A_1") = Some [py "x"]
  ∧ split_large_categories demo_categories 60
    = Some [ (py "A_1", replicate 60 (py "w")); (py "A_2", [py "w"]) ].
Proof. split; vm_compute; reflexivity. Qed.

(** A backend whose first call fails and whose later calls prefix the
    text, and the lexicographer files of two lemmas. *)
Example translate_words_run_example :
  let L := {| translator := λ n text,
                if (n =? 0)%nat then None else Some (py "T:" ++ text);
              synsets := λ _, [] |} in
  let w := {| docs := {[ py "c.json" := Json (JObject [(py "cat", py "mao")]) ]};
              journal := []; translator_calls := 0 |} in
  let r := translate_words L [py "cat"; py "dog"; py "ice cream"]
             (Some (py "c.json")) w in
  r.1 = Done (JObject [(py "cat", py "mao"); (py "dog", py "T:dog");
                       (py "ice cream", py "T:ice cream")])
  ∧ batches_sent (journal r.2) = [[py "dog"; py "ice cream"]]
  ∧ words_retried (journal r.2) = [py "dog"; py "ice cream"]
  ∧ docs r.2 !! py "c.json"
    = Some (Json (JObject [(py "cat", py "mao"); (py "dog", py "T:dog");
                           (py "ice cream", py "T:ice cream")])).
Proof. vm_compute. repeat split; reflexivity. Qed.

Example split_large_categories_example :
  split_large_categories
    [(py "A", replicate 130 (py "w")); (py "B", replicate 60 (py "w"))] 60
  = Some [(py "A_1", replicate 60 (py "w")); (py "A_2", replicate 60 (py "w"));
          (py "A_3", replicate 10 (py "w")); (py "B", replicate 60 (py "w"))].
Proof. vm_compute. reflexivity. Qed.

Example category_text_example :
  category_text [(py "apple", py "PG")] (py "Fruit_2") [py "pear"; py "apple"]
  = py "Fruit2" ++ [newline] ++ py "PG apple" ++ [newline] ++
    py "pear pear" ++ [newline].
Proof. vm_compute. reflexivity. Qed.

Example process_directory_example :
  let r := run (process_directory (demo_services true true) (py "lists")) demo_world in
  r.1 = Ok ()
  ∧ started (log r.2) = [py "lists/empty.txt"; py "lists/words.txt"]
  ∧ is_Some (fs r.2 !! py "lists/words.mp3")
  ∧ fs r.2 !! py "lists/empty.mp3" = None.
Proof. vm_compute. repeat split; try reflexivity. by eexists. Qed.

Example text_to_speech_second_attempt_example :
  let sv := {| tts_backend := λ n _ _ _, bool_decide (n = 1);
               tts_left := λ _ _ _ _, Some empty_file;
               ffmpeg_exit := λ _ _, false;
               mkdtemp := λ _, py "/tmp/t"; glob_txt := λ _, [] |} in
  let r := run (text_to_speech sv (py "apple") ENGLISH_VOICE (py "out.mp3"))
             demo_world in
  r.1 = Ok true
  ∧ schedule (log r.2) = [inl false; inr 1; inl true]
  ∧ fs r.2 !! py "out.mp3" = Some (Speech (py "apple") ENGLISH_VOICE RATE).
Proof. vm_compute. repeat split; reflexivity. Qed.

Example text_to_speech_leaves_empty_file :
  let r := run (text_to_speech (demo_services false false) (py "apple")
                  ENGLISH_VOICE (py "out.xyz")) demo_world in
  fs demo_world !! py "out.xyz" = None
  ∧ r.1 = Raise (CalledProcessError (GenSilence (py "out.xyz") 100))
  ∧ fs r.2 !! py "out.xyz" = Some empty_file.
Proof. vm_compute. repeat split; reflexivity. Qed.

(** * Further properties of convert_words_to_mp3.py *)

(** ** The parser *)

Lemma suffix_last (t u en : pystr) c rest d :
  t = u ++ [d] → en = c :: rest → (∃ front, t = front ++ en) →
  ∃ front', en = front' ++ [d].
Proof.
  intros Ht Hen [front Hfront]. rewrite Ht in Hfront.
  destruct (rev en) as [|z zs] eqn:Hrev.
  - apply (f_equal (@rev N)) in Hrev. rewrite rev_involutive in Hrev.
    subst en. discriminate.
  - apply (f_equal (@rev N)) in Hfront.
    rewrite !rev_app_distr, Hrev in Hfront. simpl in Hfront.
    injection Hfront as -> _. exists (rev zs).
    apply (f_equal (@rev N)) in Hrev. by rewrite rev_involutive in Hrev.
Qed.

Lemma splits_as_entry_ok line e :
  kept line = true → splits_as (strip line) e → entry_ok e.
Proof.
  unfold kept. intros [Hne Hhash]%andb_true_iff Hs.
  apply negb_true_iff in Hhash.
  destruct (strip_ends line) as [Hnil|(c0 & t0 & d & u & Hc & Hc0 & Hu & Hd)].
  { rewrite Hnil in Hne. by rewrite bool_decide_eq_true_2 in Hne. }
  destruct Hs as [Hne' Hall|ch gap en c rest Ht Hch Hchs Hgap Hgaps Hen Hcn].
  - repeat split; done.
  - repeat split; try done.
    + rewrite Ht in Hhash. destruct ch as [|x ch]; [done|].
      simpl in *. by rewrite andb_true_r in *.
    + by exists c, rest.
    + destruct (suffix_last (strip line) u en c rest d Hu Hen) as [front ->].
      { exists (ch ++ gap). by rewrite <- app_assoc. }
      by exists d, front.
Qed.

Lemma parse_lines_entries_ok lines : Forall entry_ok (parse_lines lines).
Proof.
  destruct (parse_lines_from [] lines) as (es & Hes & HF).
  unfold parse_lines. rewrite Hes. simpl.
  assert (Forall (λ line, kept line = true) (List.filter kept lines)) as Hk.
  { apply Forall_forall. intros line Hin%list_elem_of_In.
    by apply filter_In in Hin as [_ ?]. }
  clear Hes. revert Hk.
  induction HF as [|line e ls es' Hs HF IH]; intros Hk; [constructor|].
  apply Forall_cons in Hk as [Hk1 Hk]. constructor; [|by apply IH].
  by eapply splits_as_entry_ok.
Qed.

Lemma strip_line (t : pystr) c rest d front :
  t = c :: rest → non_space c → t = front ++ [d] → non_space d →
  strip (t ++ [newline]) = t.
Proof.
  intros Ht Hc Ht' Hd. unfold strip.
  assert (lstrip (t ++ [newline]) = t ++ [newline]) as ->.
  { rewrite Ht. by apply (lstrip_non_space c). }
  unfold rstrip. rewrite rev_app_distr.
  change (rev [newline] ++ rev t) with (newline :: rev t).
  change (lstrip (newline :: rev t)) with (lstrip (rev t)).
  rewrite Ht' at 1. rewrite rev_app_distr.
  change (rev [d] ++ rev front) with (d :: rev front).
  rewrite lstrip_non_space by done.
  change (rev (d :: rev front)) with (rev (rev front) ++ [d]).
  by rewrite rev_involutive.
Qed.

Lemma parse_line_render words e :
  entry_ok e → parse_line words (render_entry e) = words ++ [e].
Proof.
  destruct e as [ch en]. intros (Hne & Hns & Hhash & Hen). cbn [fst snd] in *.
  destruct ch as [|c0 ch0] eqn:Hch; [done|]. rewrite <- Hch in *.
  assert (non_space c0) as Hc0 by (rewrite Hch in Hns; by apply Forall_cons in Hns as [? _]).
  assert (∃ t c rest d front,
            strip (render_entry (ch, en)) = t ∧ t = c :: rest ∧ non_space c ∧
            t = front ++ [d] ∧ non_space d ∧ startswith (py "#") t = false ∧
            splits_as t (ch, en)) as (t & c & rest & d & front & Hst & Ht & Hc & Ht' & Hd & Hh & Hsp).
  { unfold render_entry. cbn [fst snd]. destruct en as [en|].
    - destruct Hen as [(c & rest & Hen & Hc) (d & front & Hen' & Hd)].
      exists (ch ++ py " " ++ en), c0, (ch0 ++ py " " ++ en), d,
        (ch ++ py " " ++ front).
      split; [|split; [|split; [|split; [|split; [|split]]]]]; try done.
      + rewrite (app_assoc ch), (app_assoc (ch ++ py " ")).
        rewrite <- (app_assoc ch). 
        apply (strip_line _ c0 (ch0 ++ py " " ++ en) d (ch ++ py " " ++ front));
          [by rewrite Hch | done | by rewrite Hen', <- !app_assoc | done].
      + by rewrite Hch.
      + by rewrite Hen', <- !app_assoc.
      + rewrite Hch in *. simpl in *. by rewrite andb_true_r in *.
      + apply (splits_two _ ch (py " ") en c rest); try done.
        by repeat constructor.
    - assert (∃ d front, ch = front ++ [d] ∧ non_space d) as (d & front & Hl & Hd).
      { destruct (rev ch) as [|z zs] eqn:Hrev.
        - apply (f_equal (@rev N)) in Hrev. rewrite rev_involutive in Hrev.
          by subst ch.
        - apply (f_equal (@rev N)) in Hrev. rewrite rev_involutive in Hrev.
          simpl in Hrev. exists z, (rev zs). split; [done|].
          rewrite Hrev in Hns. by apply Forall_app in Hns as [_ [? _]%Forall_cons]. }
      exists ch, c0, ch0, d, front.
      split; [|split; [|split; [|split; [|split; [|split]]]]]; try done.
      + by apply (strip_line _ c0 ch0 d front).
      + by constructor. }
  assert (kept (render_entry (ch, en)) = true) as Hk.
  { unfold kept. rewrite Hst, Hh, Ht. by rewrite bool_decide_eq_false_2. }
  destruct (parse_line_kept words _ Hk) as (e' & -> & He').
  rewrite Hst in He'. by rewrite (splits_as_unique _ _ _ He' Hsp).
Qed.

Lemma parse_lines_render es :
  Forall entry_ok es → parse_lines (render_entry <$> es) = es.
Proof.
  unfold parse_lines. intros Hes.
  assert (∀ acc, foldl parse_line acc (render_entry <$> es) = acc ++ es) as H.
  { induction Hes as [|e es He Hes IH]; intros acc; simpl.
    - by rewrite app_nil_r.
    - rewrite parse_line_render by done. rewrite IH, <- app_assoc. done. }
  apply (H []).
Qed.

Lemma parse_lines_app l1 l2 :
  parse_lines (l1 ++ l2) = parse_lines l1 ++ parse_lines l2.
Proof.
  unfold parse_lines. rewrite foldl_app.
  destruct (parse_lines_from (foldl parse_line [] l1) l2) as (es2 & -> & H2).
  destruct (parse_lines_from [] l2) as (es2' & -> & H2').
  f_equal. simpl. clear -H2 H2'. revert es2' H2'.
  induction H2 as [|line e ls es Hs H2 IH]; intros es2' H2'; inversion H2'; subst;
    [done|].
  f_equal; [by eapply splits_as_unique | by apply IH].
Qed.

Lemma parse_lines_filter lines :
  parse_lines (List.filter kept lines) = parse_lines lines.
Proof.
  induction lines as [|line lines IH]; [done|].
  change (line :: lines) with ([line] ++ lines) at 2.
  rewrite parse_lines_app, <- IH. cbn [List.filter].
  destruct (kept line) eqn:Hk.
  - change (line :: List.filter kept lines) with ([line] ++ List.filter kept lines).
    by rewrite parse_lines_app.
  - unfold parse_lines at 2. cbn [foldl]. by rewrite parse_line_dropped.
Qed.

(** [X1] Every entry the parser returns has a primary text that is not
    empty, holds no whitespace and does not start with [#]; a secondary
    text, when there is one, is not empty and neither starts nor ends with
    whitespace. *)
Theorem parsed_entries_well_formed (content : pystr) :
  Forall entry_ok (parse_lines (readlines content)).
Proof. apply parse_lines_entries_ok. Qed.

(** [X2] Writing parsed entries back, one per line as the primary text, a
    space and the secondary text, and parsing these lines again gives the
    same entries: the parser is idempotent on the format it reads, and any
    list of well-formed entries is the parse of its rendering. *)
Theorem parse_render_round_trip (lines : list pystr) :
  parse_lines (render_entry <$> parse_lines lines) = parse_lines lines
  ∧ (∀ es, Forall entry_ok es → parse_lines (render_entry <$> es) = es).
Proof.
  split; [|apply parse_lines_render].
  apply parse_lines_render, parse_lines_entries_ok.
Qed.

(** [X3] Parsing goes line by line: the entries of a list of lines followed
    by another are the entries of the first followed by those of the
    second, blank lines and comments can be removed or inserted anywhere
    without changing the result, and there are exactly as many entries as
    kept lines. *)
Theorem parse_lines_line_by_line (l1 l2 : list pystr) :
  parse_lines (l1 ++ l2) = parse_lines l1 ++ parse_lines l2
  ∧ parse_lines (List.filter kept l1) = parse_lines l1
  ∧ length (parse_lines l1) = length (List.filter kept l1)
  ∧ (∀ line, kept line = false → parse_lines (l1 ++ line :: l2) = parse_lines (l1 ++ l2)).
Proof.
  split; [apply parse_lines_app|]. split; [apply parse_lines_filter|]. split.
  - destruct (parse_lines_from [] l1) as (es & Hes & HF).
    unfold parse_lines. rewrite Hes. symmetry. by apply Forall2_length in HF.
  - intros line Hk. rewrite !parse_lines_app. f_equal.
    change (line :: l2) with ([line] ++ l2). rewrite parse_lines_app.
    unfold parse_lines at 1. cbn [foldl]. by rewrite parse_line_dropped.
Qed.

(** ** What a computation leaves in place *)

Lemma steps_ret {A} R `{!Reflexive R} (a : A) : steps R (mret a).
Proof. intros w. apply reflexivity. Qed.

Lemma steps_bind {A B} R `{!Transitive R} (m : M A) (f : A → M B) :
  steps R m → (∀ a, steps R (f a)) → steps R (m ≫= f).
Proof.
  intros Hm Hf w. rewrite run_bind. specialize (Hm w).
  destruct (run m w) as [[a|e] w1]; [|done].
  etrans; [exact Hm | apply Hf].
Qed.

Global Instance same_outside_preorder P : PreOrder (same_outside P).
Proof.
  split; [by intros w p _|].
  intros w1 w2 w3 H12 H23 p Hp. by rewrite H23, H12.
Qed.

Global Instance keeps_files_preorder : PreOrder keeps_files.
Proof. split; [by intros w p ?|]. intros w1 w2 w3 H12 H23 p Hp. auto. Qed.

Lemma steps_emit R `{!Reflexive R} e :
  (∀ w, R w (add_log e w)) → steps R (emit e).
Proof. intros H w. apply H. Qed.

Global Instance grows_within_preorder P : PreOrder (grows_within P).
Proof.
  split.
  - intros w. split; reflexivity.
  - intros w1 w2 w3 [? ?] [? ?]. split; etrans; eauto.
Qed.

Lemma grows_within_insert (P : pystr → Prop) w w' path f :
  P path → fs w' = <[path := f]> (fs w) → grows_within P w w'.
Proof.
  intros HP Hfs. split.
  - intros p Hp. rewrite Hfs, lookup_insert_ne; [done|]. by intros ->.
  - intros p Hp. rewrite Hfs. destruct (decide (path = p)) as [->|].
    + by rewrite lookup_insert_eq.
    + by rewrite lookup_insert_ne.
Qed.

Lemma grows_within_same (P : pystr → Prop) w w' :
  fs w' = fs w → grows_within P w w'.
Proof. intros Hfs. split; intros p; by rewrite Hfs. Qed.

Lemma grows_within_weaken (P Q : pystr → Prop) w w' :
  (∀ p, P p → Q p) → grows_within P w w' → grows_within Q w w'.
Proof. intros HPQ [Hs Hk]. split; [|done]. intros p Hp. apply Hs. auto. Qed.

Lemma steps_weaken {A} (R R' : world → world → Prop) (m : M A) :
  (∀ w w', R w w' → R' w w') → steps R m → steps R' m.
Proof. intros HR Hm w. apply HR, Hm. Qed.

Lemma emit_grows P e : steps (grows_within P) (emit e).
Proof. intros w. by apply grows_within_same. Qed.

Lemma write_file_grows (P : pystr → Prop) path f :
  P path → steps (grows_within P) (write_file path f).
Proof. intros HP w. by eapply grows_within_insert. Qed.

Lemma run_ffmpeg_grows (P : pystr → Prop) sv cmd :
  P (cmd_output cmd) → steps (grows_within P) (run_ffmpeg sv cmd).
Proof.
  intros HP w. unfold run, run_ffmpeg. cbv zeta.
  destruct (ffmpeg_exit sv (ffmpeg_calls w) cmd).
  - destruct cmd; by eapply grows_within_insert.
  - by apply grows_within_same.
Qed.

Lemma communicate_save_grows (P : pystr → Prop) sv text voice output_file :
  P output_file → steps (grows_within P) (communicate_save sv text voice output_file).
Proof.
  intros HP w. rewrite run_communicate_save.
  destruct (tts_backend sv (tts_calls w) text voice RATE).
  - by eapply grows_within_insert.
  - cbn [snd]. destruct (tts_left sv (tts_calls w) text voice RATE).
    + by eapply grows_within_insert.
    + by apply grows_within_same.
Qed.

Lemma text_to_speech_loop_grows (P : pystr → Prop) sv attempts text voice output_file :
  P output_file →
  steps (grows_within P) (text_to_speech_loop sv attempts text voice output_file).
Proof.
  intros HP. induction attempts as [|attempt rest IH]; cbn [text_to_speech_loop].
  - apply steps_ret, _.
  - apply steps_bind; [apply _ | by apply communicate_save_grows|].
    intros [|]; [apply steps_ret, _|].
    destruct (attempt <? MAX_RETRIES - 1).
    + do 2 (apply steps_bind; [apply _ | apply emit_grows|]; intros _). exact IH.
    + apply steps_bind; [apply _ | apply emit_grows|]; intros _.
      apply steps_bind; [apply _ | by apply run_ffmpeg_grows|]; intros _.
      apply steps_ret, _.
Qed.

Lemma text_to_speech_grows (P : pystr → Prop) sv text voice output_file :
  P output_file → steps (grows_within P) (text_to_speech sv text voice output_file).
Proof. apply text_to_speech_loop_grows. Qed.

Lemma startswith_app p s : startswith p (p ++ s) = true.
Proof. induction p as [|c p IH]; [done|]. simpl. by rewrite N.eqb_refl. Qed.

(** A name that does not start with a slash, joined to a directory, lies
    inside that directory. *)
Lemma inside_path_join d name :
  d ≠ [] → startswith [slash] name = false → inside d (path_join d name) = true.
Proof.
  intros Hd Hname. unfold inside, path_join. rewrite Hname.
  rewrite bool_decide_eq_false_2 by done. cbn [orb].
  destruct (startswith [slash] (rev d)).
  - apply startswith_app.
  - rewrite app_assoc. apply startswith_app.
Qed.

Lemma inside_word_file d i lang :
  d ≠ [] → inside d (word_file d i lang) = true.
Proof. intros Hd. by apply inside_path_join. Qed.

Lemma word_loop_grows sv temp_dir silence_file short_silence_file n items acc :
  temp_dir ≠ [] →
  steps (grows_within (λ p, inside temp_dir p = true))
    (word_loop sv temp_dir silence_file short_silence_file n items acc).
Proof.
  intros Hd. revert acc.
  induction items as [|[i [chinese english]] rest IH]; intros acc.
  - apply steps_ret, _.
  - cbn [word_loop]. apply steps_bind; [apply _ | |intros fr; apply IH].
    destruct english as [english|].
    + apply steps_bind; [apply _ | apply emit_grows|]; intros _.
      do 2 (apply steps_bind;
            [apply _ | apply text_to_speech_grows; by apply inside_word_file|];
            intros _).
      apply steps_ret, _.
    + apply steps_bind; [apply _ | apply emit_grows|]; intros _.
      apply steps_bind;
        [apply _ | apply text_to_speech_grows; by apply inside_word_file|];
        intros _.
      apply steps_ret, _.
Qed.

(** ** Pre- and postconditions *)

Lemma hoare_ret {A} (P : world → Prop) (a : A) (Q : A → world → Prop) E :
  (∀ w, P w → Q a w) → hoare P (mret a) Q E.
Proof. intros H w Hw. by apply H. Qed.

Lemma hoare_bind {A B} P (m : M A) (f : A → M B) Q Q' E :
  hoare P m Q E → (∀ a, hoare (Q a) (f a) Q' E) → hoare P (m ≫= f) Q' E.
Proof.
  intros Hm Hf w Hw. rewrite run_bind. specialize (Hm w Hw).
  destruct (run m w) as [[a|e] w1]; [|done]. by apply Hf.
Qed.

Lemma hoare_weaken {A} (P P' : world → Prop) (m : M A)
    (Q Q' : A → world → Prop) (E E' : exn → world → Prop) :
  hoare P m Q E →
  (∀ w, P' w → P w) → (∀ a w, Q a w → Q' a w) → (∀ e w, E e w → E' e w) →
  hoare P' m Q' E'.
Proof.
  intros H HP HQ HE w Hw. specialize (H w (HP w Hw)).
  destruct (run m w) as [[a|e] w1]; auto.
Qed.

Lemma hoare_conj {A} P P' (m : M A) (Q Q' : A → world → Prop) (E E' : exn → world → Prop) :
  hoare P m Q E → hoare P' m Q' E' →
  hoare (λ w, P w ∧ P' w) m (λ a w, Q a w ∧ Q' a w) (λ e w, E e w ∧ E' e w).
Proof.
  intros H H' w [Hw Hw']. specialize (H w Hw). specialize (H' w Hw').
  by destruct (run m w) as [[a|e] w1].
Qed.

Lemma hoare_steps {A} R `{!Transitive R} (m : M A) w0 :
  steps R m → hoare (R w0) m (λ _, R w0) (λ _, R w0).
Proof.
  intros Hm w Hw. specialize (Hm w).
  destruct (run m w) as [[a|e] w1]; simpl in Hm; by etrans.
Qed.

Lemma hoare_print {B} (P : world → Prop) m (k : M B) Q E :
  (∀ w, P w → P (add_log (Print m) w)) →
  hoare P k Q E → hoare P (print m ≫= λ _, k) Q E.
Proof. intros H Hk w Hw. rewrite run_bind, run_print. by apply Hk, H. Qed.

(** ** What a synthesis request leaves at its output path *)

Lemma text_to_speech_fs sv text voice output_file w :
  let left k := tts_left sv (k + tts_calls w) text voice RATE in
  let r := run (text_to_speech sv text voice output_file) w in
  match r.1 with
  | Ok true => fs r.2 = <[output_file := Speech text voice RATE]> (fs w)
  | Ok false => fs r.2 = <[output_file := Silence 100]> (fs w)
  | Raise e =>
      fs r.2 = leave (left 2) output_file
                 (leave (left 1) output_file (leave (left 0) output_file (fs w))) ∧
      e = CalledProcessError (GenSilence output_file 100)
  end.
Proof.
  cbv zeta.
  destruct (text_to_speech_cases sv text voice output_file w)
    as [H|[H|[H|[H|H]]]]; cbv zeta in H.
  - destruct H as (_ & -> & _ & Hfs). done.
  - destruct H as (_ & _ & -> & _ & Hfs). done.
  - destruct H as (_ & _ & _ & -> & _ & Hfs). done.
  - destruct H as (_ & _ & _ & _ & -> & _ & Hfs). done.
  - destruct H as (_ & _ & _ & _ & -> & _ & Hfs). done.
Qed.

Lemma text_to_speech_saved sv text voice output_file w :
  (run (text_to_speech sv text voice output_file) w).1 = Ok true ↔
  ∃ k, k < MAX_RETRIES ∧ tts_backend sv (k + tts_calls w) text voice RATE = true.
Proof.
  assert (∀ k, k < MAX_RETRIES → k = 0 ∨ k = 1 ∨ k = 2) as Hk.
  { unfold MAX_RETRIES. lia. }
  destruct (text_to_speech_cases sv text voice output_file w)
    as [H|[H|[H|[H|H]]]]; cbv zeta in H.
  - destruct H as (H0 & -> & _). split; [|done]. intros _. exists 0. by split; [unfold MAX_RETRIES; lia|].
  - destruct H as (_ & H1 & -> & _). split; [|done]. intros _. exists 1. by split; [unfold MAX_RETRIES; lia|].
  - destruct H as (_ & _ & H2 & -> & _). split; [|done]. intros _. exists 2. by split; [unfold MAX_RETRIES; lia|].
  - destruct H as (H0 & H1 & H2 & _ & -> & _). split; [done|].
    intros (k & Hlt & Hok). destruct (Hk k Hlt) as [->|[->| ->]]; congruence.
  - destruct H as (H0 & H1 & H2 & _ & -> & _). split; [done|].
    intros (k & Hlt & Hok). destruct (Hk k Hlt) as [->|[->| ->]]; congruence.
Qed.

(** [X4] A synthesis request touches no file but its output path.  When it
    returns [True] the path holds the spoken text and when it returns
    [False] it holds the 100 ms silent clip.  When it raises, the path holds
    what the last of the three attempts that had opened it left there (an
    empty file when no audio had arrived), and is as before when none had.
    It returns [True] exactly when one of the three attempts of the voice
    backend succeeds. *)
Theorem text_to_speech_output sv text voice output_file w :
  let left k := tts_left sv (k + tts_calls w) text voice RATE in
  let r := run (text_to_speech sv text voice output_file) w in
  (∀ p, p ≠ output_file → fs r.2 !! p = fs w !! p) ∧
  match r.1 with
  | Ok true => fs r.2 !! output_file = Some (Speech text voice RATE)
  | Ok false => fs r.2 !! output_file = Some (Silence 100)
  | Raise _ =>
      fs r.2 !! output_file
      = match left 2, left 1, left 0 with
        | Some f, _, _ | None, Some f, _ | None, None, Some f => Some f
        | None, None, None => fs w !! output_file
        end
  end ∧
  (r.1 = Ok true ↔
   ∃ k, k < MAX_RETRIES ∧ tts_backend sv (k + tts_calls w) text voice RATE = true).
Proof.
  cbv zeta. split; [|split; [|apply text_to_speech_saved]].
  - intros p Hp.
    pose proof (text_to_speech_fs sv text voice output_file w) as H. cbv zeta in H.
    destruct (run (text_to_speech sv text voice output_file) w) as [[[|]|e] w1];
      cbn [fst snd] in *.
    + by rewrite H, lookup_insert_ne.
    + by rewrite H, lookup_insert_ne.
    + destruct H as [-> _]. by rewrite !lookup_leave_ne.
  - pose proof (text_to_speech_fs sv text voice output_file w) as H. cbv zeta in H.
    destruct (run (text_to_speech sv text voice output_file) w) as [[[|]|e] w1];
      cbn [fst snd] in *.
    + by rewrite H, lookup_insert_eq.
    + by rewrite H, lookup_insert_eq.
    + destruct H as [-> _]. rewrite !lookup_leave.
      by destruct (tts_left sv (2 + tts_calls w) text voice RATE),
                  (tts_left sv (1 + tts_calls w) text voice RATE),
                  (tts_left sv (0 + tts_calls w) text voice RATE).
Qed.

(** ** generate_word_audio *)

Lemma path_join_inj d a b :
  startswith [slash] a = false → startswith [slash] b = false →
  path_join d a = path_join d b → a = b.
Proof.
  unfold path_join. intros -> ->.
  destruct (bool_decide (d = []) || startswith [slash] (rev d)).
  - apply app_inv_head.
  - intros H%app_inv_head. by apply app_inv_head in H.
Qed.

(** [X5] The helper for one word writes the Chinese clip to
    [chinese_temp.mp3] and the English clip to [english_temp.mp3] in the
    given directory, whatever the word and whatever [output_file] is: each
    of the two paths ends up holding the spoken text or the silent fallback,
    no other file changes, and the only error that can leave it is the
    failure of ffmpeg on a fallback clip. *)
Theorem generate_word_audio_clips sv chinese english output_file temp_dir w :
  let zh := path_join temp_dir (py "chinese_temp.mp3") in
  let en := path_join temp_dir (py "english_temp.mp3") in
  let r := run (generate_word_audio sv chinese english output_file temp_dir) w in
  (∀ p, p ≠ zh → p ≠ en → fs r.2 !! p = fs w !! p) ∧
  match r.1 with
  | Ok files =>
      files = (zh, en) ∧
      (fs r.2 !! zh = Some (Speech chinese CHINESE_VOICE RATE) ∨
       fs r.2 !! zh = Some (Silence 100)) ∧
      (fs r.2 !! en = Some (Speech english ENGLISH_VOICE RATE) ∨
       fs r.2 !! en = Some (Silence 100))
  | Raise e =>
      e = CalledProcessError (GenSilence zh 100) ∨
      e = CalledProcessError (GenSilence en 100)
  end.
Proof.
  intros zh en. cbv zeta.
  assert (zh ≠ en) as Hne.
  { intros H. apply path_join_inj in H; [|done..].
    apply (f_equal (λ l, l !! 0)) in H. vm_compute in H. discriminate. }
  unfold generate_word_audio. fold zh en. cbv zeta. rewrite run_bind.
  pose proof (text_to_speech_fs sv chinese CHINESE_VOICE zh w) as H1. cbv zeta in H1.
  destruct (run (text_to_speech sv chinese CHINESE_VOICE zh) w) as [[b1|e1] w1];
    cbn [fst snd] in H1.
  2: { destruct H1 as [H1 ->]. cbn [fst snd]. split; [|by left].
       intros p Hp _. by rewrite H1, !lookup_leave_ne. }
  rewrite run_bind.
  pose proof (text_to_speech_fs sv english ENGLISH_VOICE en w1) as H2. cbv zeta in H2.
  destruct (run (text_to_speech sv english ENGLISH_VOICE en) w1) as [[b2|e2] w2];
    cbn [fst snd] in H2.
  2: { destruct H2 as [H2 ->]. cbn [fst snd]. split; [|by right].
       intros p Hp Hp'. rewrite H2, !lookup_leave_ne by done.
       destruct b1; by rewrite H1, lookup_insert_ne. }
  rewrite run_ret. cbn [fst snd].
  assert (∀ p, p ≠ en → fs w2 !! p = fs w1 !! p) as Hf2.
  { intros p Hp. destruct b2; by rewrite H2, lookup_insert_ne. }
  assert (∀ p, p ≠ zh → fs w1 !! p = fs w !! p) as Hf1.
  { intros p Hp. destruct b1; by rewrite H1, lookup_insert_ne. }
  split; [|split; [done|split]].
  - intros p Hzh Hen. by rewrite Hf2, Hf1.
  - rewrite Hf2 by done. destruct b1; rewrite H1, lookup_insert_eq; auto.
  - destruct b2; rewrite H2, lookup_insert_eq; auto.
Qed.

(** ** The clips of the playlist *)

Lemma generate_silence_writes_clip sv o d : writes_clip o (generate_silence sv o d).
Proof.
  intros w. rewrite run_generate_silence. cbv zeta.
  destruct (ffmpeg_exit sv (ffmpeg_calls w) _); [|by exists None].
  by exists (Silence d).
Qed.

Lemma text_to_speech_writes_clip sv text voice o :
  writes_clip o (text_to_speech sv text voice o).
Proof.
  intros w. pose proof (text_to_speech_fs sv text voice o w) as H. cbv zeta in H.
  destruct (run (text_to_speech sv text voice o) w) as [[[|]|e] w1];
    cbn [fst snd] in H.
  - by exists (Speech text voice RATE).
  - by exists (Silence 100).
  - destruct H as [H _]. rewrite !leave_leave in H. by eexists.
Qed.

Lemma clips_insert lf paths w w' o f :
  is_clip (Some f) → o ≠ lf → fs w' = <[o := f]> (fs w) →
  clips lf paths w → clips lf (o :: paths) w'.
Proof.
  intros Hf Ho Hfs Hc. constructor.
  - split; [done|]. by rewrite Hfs, lookup_insert_eq.
  - eapply Forall_impl; [exact Hc|]. intros p [Hp Hclip]. split; [done|].
    rewrite Hfs. destruct (decide (o = p)) as [->|Hne].
    + by rewrite lookup_insert_eq.
    + by rewrite lookup_insert_ne.
Qed.

Lemma writes_clip_post {A} (m : M A) (In : pystr → Prop) w0 lf paths o :
  writes_clip o m → In o → o ≠ lf →
  hoare (λ w, grows_within In w0 w ∧ clips lf paths w) m
    (λ _ w, grows_within In w0 w ∧ clips lf (o :: paths) w)
    (λ _ w, grows_within In w0 w).
Proof.
  intros Hm HIn Ho w [HR Hc]. specialize (Hm w).
  destruct (run m w) as [[a|e] w1].
  - destruct Hm as (f & Hf & Hfs). split.
    + etrans; [exact HR|]. by eapply grows_within_insert.
    + by eapply clips_insert.
  - destruct Hm as [left Hfs]. etrans; [exact HR|].
    destruct left; [by eapply grows_within_insert | by apply grows_within_same].
Qed.

Lemma word_file_not_list_file temp_dir i lang :
  word_file temp_dir i lang ≠ path_join temp_dir (py "filelist.txt").
Proof.
  intros H. apply path_join_inj in H; [|done..].
  apply (f_equal head) in H. discriminate H.
Qed.

Lemma word_loop_post sv temp_dir sil short n items w0 :
  temp_dir ≠ [] →
  let lf := path_join temp_dir (py "filelist.txt") in
  let R := grows_within (λ p, inside temp_dir p = true) w0 in
  ∀ acc,
    hoare (λ w, R w ∧ clips lf (sil :: short :: acc) w)
      (word_loop sv temp_dir sil short n items acc)
      (λ fr w, R w ∧ clips lf fr w)
      (λ _ w, R w).
Proof.
  intros Hd lf R.
  assert (∀ acc,
    hoare (λ w, R w ∧ clips lf (sil :: short :: acc) w)
      (word_loop sv temp_dir sil short n items acc)
      (λ fr w, R w ∧ clips lf (sil :: short :: fr) w)
      (λ _ w, R w)) as H.
  { induction items as [|[i [chinese english]] rest IH]; intros acc.
    - by apply hoare_ret.
    - cbn [word_loop].
      eapply hoare_bind with (Q := λ fr w, R w ∧ clips lf (sil :: short :: fr) w).
      + destruct english as [english|].
        * apply hoare_print; [by intros w Hw|].
          eapply hoare_bind;
            [apply writes_clip_post;
             [apply text_to_speech_writes_clip | by apply inside_word_file
             | apply word_file_not_list_file]|].
          intros ?; cbv beta.
          eapply hoare_bind;
            [apply writes_clip_post;
             [apply text_to_speech_writes_clip | by apply inside_word_file
             | apply word_file_not_list_file]|].
          intros ?; cbv beta. apply hoare_ret. intros w [HR Hc]. split; [done|].
          unfold clips in *.
          rewrite !Forall_cons in Hc. rewrite !Forall_cons, Forall_app, !Forall_cons, Forall_nil.
          tauto.
        * apply hoare_print; [by intros w Hw|].
          eapply hoare_bind;
            [apply writes_clip_post;
             [apply text_to_speech_writes_clip | by apply inside_word_file
             | apply word_file_not_list_file]|].
          intros ?; cbv beta. apply hoare_ret. intros w [HR Hc]. split; [done|].
          unfold clips in *.
          rewrite !Forall_cons in Hc. rewrite !Forall_cons, Forall_app, !Forall_cons, Forall_nil.
          tauto.
      + intros fr. eapply hoare_weaken; [apply IH | | done | done].
        intros w [HR Hc]. split; [done|]. destruct (i <? n - 1); [|done].
        unfold clips in *.
        rewrite !Forall_cons in Hc. rewrite !Forall_cons, Forall_app, !Forall_cons, Forall_nil.
          tauto. }
  intros acc. eapply hoare_weaken; [apply H | done | | done].
  intros fr w [HR Hc]. split; [done|]. unfold clips in *.
  rewrite !Forall_cons in Hc. by destruct Hc as (_ & _ & ?).
Qed.

(** The body of the [with] block: when it returns, the playlist named the
    clips of a world [w3] that extends the initial one inside the temporary
    directory only, and the output was merged from that playlist. *)
Lemma assemble_post sv words out temp_dir w0 :
  temp_dir ≠ [] →
  let lf := path_join temp_dir (py "filelist.txt") in
  let R := grows_within (λ p, inside temp_dir p = true) w0 in
  let text := playlist (fragments temp_dir words) in
  match run (assemble sv words out temp_dir) w0 with
  | (Ok _, w') =>
      ∃ w3, R w3 ∧ clips lf (fragments temp_dir words) w3 ∧
            fs w' = <[out := Merged (Some text)]> (<[lf := Text text]> (fs w3))
  | (Raise _, w') => R w'
  end.
Proof.
  intros Hd lf R text.
  set (sil := path_join temp_dir (py "silence.mp3")).
  set (short := path_join temp_dir (py "short_silence.mp3")).
  assert (sil ≠ lf) as Hsil.
  { intros H. apply path_join_inj in H; [|done..]. discriminate H. }
  assert (short ≠ lf) as Hshort.
  { intros H. apply path_join_inj in H; [|done..]. discriminate H. }
  assert (inside temp_dir lf = true) as Hlf by (by apply inside_path_join).
  enough (hoare (λ w, R w ∧ clips lf [] w) (assemble sv words out temp_dir)
            (λ _ w', ∃ w3, R w3 ∧ clips lf (fragments temp_dir words) w3 ∧
               fs w' = <[out := Merged (Some text)]> (<[lf := Text text]> (fs w3)))
            (λ _ w', R w')) as H.
  { apply (H w0). split; [unfold R; reflexivity | constructor]. }
  unfold assemble. cbv zeta. fold sil short.
  eapply hoare_bind;
    [apply writes_clip_post;
     [apply generate_silence_writes_clip | by apply inside_path_join | done]|].
  intros ?; cbv beta.
  eapply hoare_bind;
    [apply writes_clip_post;
     [apply generate_silence_writes_clip | by apply inside_path_join | done]|].
  intros ?; cbv beta.
  eapply hoare_bind with
    (Q := λ fr w, fr = fragments temp_dir words ∧ R w ∧ clips lf fr w).
  { intros w [HR Hc].
    pose proof (word_loop_post sv temp_dir sil short (length words)
                  (enumerate words) w0 Hd [] w) as Hpost.
    cbv zeta in Hpost.
    pose proof (word_loop_value sv temp_dir (length words) words 0 [] w) as Hval.
    fold sil short in Hval. unfold enumerate in *.
    destruct (run (word_loop sv temp_dir sil short (length words)
                     (zip (seq 0 (length words)) words) []) w) as [[fr|e] w1].
    - split; [by apply (Hval fr w1)|]. apply Hpost. split; [done|].
      unfold clips in *. rewrite !Forall_cons, ?Forall_nil in Hc. rewrite !Forall_cons, ?Forall_nil.
      tauto.
    - apply Hpost. split; [done|].
      unfold clips in *. rewrite !Forall_cons, ?Forall_nil in Hc. rewrite !Forall_cons, ?Forall_nil.
      tauto. }
  intros fr.
  apply hoare_print; [by intros w Hw|].
  intros w (-> & HR & Hc). rewrite run_merge_audio_files. cbv zeta. fold lf text.
  destruct (ffmpeg_exit sv (ffmpeg_calls w) _).
  - exists w. split; [done|]. split; [done|]. reflexivity.
  - unfold R in *. etrans; [exact HR|].
    eapply (grows_within_insert _ _ _ lf); [exact Hlf | reflexivity].
Qed.

Lemma lookup_outside (temp_dir : pystr) (m : gmap pystr file) (p : pystr) :
  filter (λ kv : pystr * file, inside temp_dir kv.1 = false) m !! p
  = if inside temp_dir p then None else m !! p.
Proof.
  rewrite map_lookup_filter. cbn [fst].
  destruct (inside temp_dir p).
  - destruct (m !! p) as [x|]; [|done]. cbn. by rewrite option_guard_False.
  - destruct (m !! p) as [x|]; [|done]. cbn. by rewrite option_guard_True.
Qed.

(** [X6] When the body of the [with] block of a job returns, the output
    was merged from the playlist of the fragment sequence, and every path of
    that playlist (other than the output path itself) holds an audio clip:
    no entry of the playlist is missing.  When the body raises, it has
    changed no file outside the temporary directory. *)
Theorem playlist_names_clips sv words output_file temp_dir w :
  temp_dir ≠ [] →
  let r := run (assemble sv words output_file temp_dir) w in
  match r.1 with
  | Ok _ =>
      fs r.2 !! output_file
      = Some (Merged (Some (playlist (fragments temp_dir words)))) ∧
      Forall (λ p, p = output_file ∨ is_clip (fs r.2 !! p))
        (fragments temp_dir words)
  | Raise _ => ∀ p, inside temp_dir p = false → fs r.2 !! p = fs w !! p
  end.
Proof.
  intros Hd. cbv zeta.
  pose proof (assemble_post sv words output_file temp_dir w Hd) as H.
  cbv zeta in H.
  destruct (run (assemble sv words output_file temp_dir) w) as [[[]|e] w1];
    cbn [fst snd].
  - destruct H as (w3 & _ & Hc & Hfs). rewrite Hfs. split.
    + by rewrite lookup_insert_eq.
    + eapply Forall_impl; [exact Hc|]. intros p [Hlf Hclip].
      destruct (decide (p = output_file)) as [->|Hne]; [by left|right].
      by rewrite !lookup_insert_ne.
  - destruct H as [Hs _]. intros p Hp. apply Hs. by rewrite Hp.
Qed.

(** [X7] What a job leaves on disk, for a readable input and a temporary
    directory with a non-empty name.  Files outside the temporary directory
    other than the output are untouched; once the word list has an entry
    nothing is left inside the temporary directory, whether the job returns
    or raises; and an output path outside the temporary directory holds the
    merge of the playlist when the job returns [True] and is as before
    otherwise. *)
Theorem conversion_leaves_only_output sv input_file output_file content w :
  fs w !! input_file = Some (Text content) →
  mkdtemp sv (tmp_dirs w) ≠ [] →
  let temp_dir := mkdtemp sv (tmp_dirs w) in
  let out := output_path input_file output_file in
  let words := parse_lines (readlines content) in
  let r := run (convert_file_to_mp3 sv input_file output_file) w in
  (∀ p, p ≠ out → inside temp_dir p = false → fs r.2 !! p = fs w !! p) ∧
  (words ≠ [] → ∀ p, inside temp_dir p = true → fs r.2 !! p = None) ∧
  (inside temp_dir out = false →
   match r.1 with
   | Ok true =>
       fs r.2 !! out = Some (Merged (Some (playlist (fragments temp_dir words))))
   | _ => fs r.2 !! out = fs w !! out
   end).
Proof.
  intros Hf Hd temp_dir out words. cbv zeta.
  rewrite (convert_file_to_mp3_run sv _ output_file _ _ Hf). cbv zeta.
  fold out words temp_dir.
  destruct words as [|e ws] eqn:Hw.
  { cbn [fst snd]. split; [done|]. split; [done|]. done. }
  rewrite <- Hw. clear Hw.
  match goal with
  | |- context [run (assemble sv words out temp_dir) ?w0] =>
      pose proof (assemble_post sv words out temp_dir w0 Hd) as H;
      cbv zeta in H;
      destruct (run (assemble sv words out temp_dir) w0) as [[[]|e'] w1]
  end; cbn [fst snd add_log set_fs fs] in *.
  - destruct H as (w3 & [Hs _] & _ & Hfs). rewrite Hfs.
    split; [|split].
    + intros p Hp Hin. rewrite lookup_outside, Hin.
      rewrite lookup_insert_ne by done.
      destruct (decide (path_join temp_dir (py "filelist.txt") = p)) as [<-|Hne].
      { rewrite inside_path_join in Hin; done. }
      rewrite lookup_insert_ne by done. apply Hs. by rewrite Hin.
    + intros _ p Hin. by rewrite lookup_outside, Hin.
    + intros Hout. by rewrite lookup_outside, Hout, lookup_insert_eq.
  - destruct H as [Hs _]. split; [|split].
    + intros p Hp Hin. rewrite lookup_outside, Hin. apply Hs. by rewrite Hin.
    + intros _ p Hin. by rewrite lookup_outside, Hin.
    + intros Hout. rewrite lookup_outside, Hout. apply Hs. by rewrite Hout.
Qed.

(** ** What the slots of the sequence hold *)

Lemma playlist_listing audio_files : playlist audio_files = listing audio_files.
Proof. reflexivity. Qed.

Lemma word_file_clip_path temp_dir i lang :
  word_file temp_dir i lang = clip_path temp_dir i lang.
Proof. reflexivity. Qed.

Lemma clip_path_inj temp_dir i j lang lang' :
  clip_path temp_dir i lang = clip_path temp_dir j lang' → i = j ∧ lang = lang'.
Proof.
  unfold clip_path. intros H. apply path_join_inj in H; [|done..].
  apply app_inv_head in H.
  change (py "_") with [underscore] in H. cbn [app] in H.
  apply app_underscore_inj in H as [Hi Hl]; [|apply pretty_nat_no_underscore..].
  apply py_inj, (inj pretty) in Hi. apply app_inv_tail, py_inj in Hl. done.
Qed.

Lemma clip_path_not_shared temp_dir i lang name :
  startswith [slash] name = false → head name ≠ Some 119%N →
  clip_path temp_dir i lang ≠ path_join temp_dir name.
Proof.
  intros Hs Hname H. unfold clip_path in H.
  apply path_join_inj in H; [|done..]. by rewrite <- H in Hname.
Qed.

(** Writing the clip of an entry that is not among [done] leaves the files
    of [done] and the shared silences as they are. *)
Lemma slot_files_insert temp_dir done w w' i lang f :
  i ∉ done.*1 →
  fs w' = <[clip_path temp_dir i lang := f]> (fs w) →
  slot_files temp_dir done w → slot_files temp_dir done w'.
Proof.
  intros Hi Hfs (Hsil & Hshort & Hdone). unfold slot_files. rewrite Hfs.
  split; [|split].
  - rewrite lookup_insert_ne; [done|]. by apply clip_path_not_shared.
  - rewrite lookup_insert_ne; [done|]. by apply clip_path_not_shared.
  - intros j e Hje. destruct (Hdone j e Hje) as [Hzh Hen].
    assert (i ≠ j) as Hij.
    { intros ->. apply Hi. by apply (list_elem_of_fmap_2 fst) in Hje. }
    split.
    + rewrite lookup_insert_ne; [done|]. by intros [? _]%clip_path_inj.
    + destruct e.2; [|done].
      rewrite lookup_insert_ne; [done|]. by intros [? _]%clip_path_inj.
Qed.

Lemma text_to_speech_fills sv text voice o w :
  match run (text_to_speech sv text voice o) w with
  | (Ok _, w') =>
      ∃ f, fs w' = <[o := f]> (fs w) ∧ fills (Some f) (Spoken text voice)
  | (Raise _, _) => True
  end.
Proof.
  pose proof (text_to_speech_fs sv text voice o w) as H. cbv zeta in H.
  destruct (run (text_to_speech sv text voice o) w) as [[[|]|e] w1];
    cbn [fst snd] in H; [| |done].
  - exists (Speech text voice RATE). split; [done | by left].
  - exists (Silence 100). split; [done | by right].
Qed.

(** One round of the word loop puts the clips of its entry in place. *)
Lemma word_loop_fills sv temp_dir sil short n items :
  ∀ done acc,
    NoDup (done.*1 ++ items.*1) →
    hoare (slot_files temp_dir done)
      (word_loop sv temp_dir sil short n items acc)
      (λ _, slot_files temp_dir (done ++ items)) (λ _ _, True).
Proof.
  induction items as [|[i [chinese english]] rest IH]; intros done acc Hnd.
  - apply hoare_ret. intros w Hw. by rewrite app_nil_r.
  - cbn [word_loop]. rewrite fmap_cons in Hnd. cbn [fst] in Hnd.
    assert (i ∉ done.*1) as Hi.
    { apply NoDup_app in Hnd as (_ & Hd & _). intros Hin. apply (Hd _ Hin). left. }
    eapply hoare_bind with
      (Q := λ _, slot_files temp_dir (done ++ [(i, (chinese, english))])).
    + intros w Hw. rewrite !word_file_clip_path.
      destruct english as [english|]; run_simpl.
      * pose proof (text_to_speech_fills sv chinese CHINESE_VOICE
                      (clip_path temp_dir i "zh")
                      (add_log (Print (MsgEntry (i + 1) n chinese (Some english))) w))
          as H1.
        destruct (run (text_to_speech sv chinese CHINESE_VOICE _) _)
          as [[b1|e1] w1]; [|done].
        destruct H1 as (f1 & Hfs1 & Hf1). cbv beta iota. run_simpl.
        pose proof (text_to_speech_fills sv english ENGLISH_VOICE
                      (clip_path temp_dir i "en") w1) as H2.
        destruct (run (text_to_speech sv english ENGLISH_VOICE _) _)
          as [[b2|e2] w2]; [|done].
        destruct H2 as (f2 & Hfs2 & Hf2). cbv beta iota. run_simpl.
        assert (slot_files temp_dir done w2) as (Hsil & Hshort & Hdone).
        { eapply slot_files_insert; [done | exact Hfs2|].
          eapply slot_files_insert; [done | exact Hfs1|]. exact Hw. }
        split; [done|]. split; [done|].
        intros j e [Hje|Hje%list_elem_of_singleton]%elem_of_app; [by apply Hdone|].
        injection Hje as -> ->. cbn [fst snd]. split.
        -- rewrite Hfs2, lookup_insert_ne, Hfs1, lookup_insert_eq; [done|].
           by intros [_ [=]]%clip_path_inj.
        -- by rewrite Hfs2, lookup_insert_eq.
      * pose proof (text_to_speech_fills sv chinese CHINESE_VOICE
                      (clip_path temp_dir i "zh")
                      (add_log (Print (MsgEntry (i + 1) n chinese None)) w)) as H1.
        destruct (run (text_to_speech sv chinese CHINESE_VOICE _) _)
          as [[b1|e1] w1]; [|done].
        destruct H1 as (f1 & Hfs1 & Hf1). cbv beta iota. run_simpl.
        assert (slot_files temp_dir done w1) as (Hsil & Hshort & Hdone).
        { eapply slot_files_insert; [done | exact Hfs1|]. exact Hw. }
        split; [done|]. split; [done|].
        intros j e [Hje|Hje%list_elem_of_singleton]%elem_of_app; [by apply Hdone|].
        injection Hje as -> ->. cbn [fst snd]. split; [|done].
        by rewrite Hfs1, lookup_insert_eq.
    + intros fr. eapply hoare_weaken; [apply IH | done | | done].
      * rewrite fmap_app, <- app_assoc. done.
      * intros ? w Hw. cbv beta. by rewrite <- app_assoc in Hw.
Qed.

Lemma elem_of_enumerate {A} (l : list A) j x :
  l !! j = Some x → (j, x) ∈ enumerate l.
Proof.
  intros Hj. unfold enumerate. apply list_elem_of_lookup. exists j.
  apply lookup_zip_with_Some. exists j, x. split; [done|]. split; [|done].
  apply lookup_seq. split; [done|]. by apply lookup_lt_Some in Hj.
Qed.

Lemma Forall2_join {A B} (P : A → B → Prop) a b xs ys :
  P a b → Forall2 (Forall2 P) xs ys → Forall2 P (join [a] xs) (join [b] ys).
Proof.
  intros Hab H. induction H as [|x y xs ys Hxy Hrest IH]; [constructor|].
  rewrite !join_cons. destruct Hrest as [|x' y' xs' ys' Hxy' Hrest].
  - by rewrite !app_nil_r.
  - apply Forall2_app; [done|]. by constructor.
Qed.

(** With the files in place, every fragment fills its slot. *)
Lemma slot_files_fragments temp_dir words w :
  slot_files temp_dir (enumerate words) w →
  Forall2 (λ p s, p ≠ path_join temp_dir (py "filelist.txt") ∧
                  fills (fs w !! p) s)
    (fragments temp_dir words) (slots words).
Proof.
  intros (Hsil & Hshort & Hdone). unfold fragments, slots.
  assert (path_join temp_dir (py "silence.mp3")
          ≠ path_join temp_dir (py "filelist.txt")) as Hlf1.
  { intros H. apply path_join_inj in H; [|done..]. discriminate H. }
  assert (path_join temp_dir (py "short_silence.mp3")
          ≠ path_join temp_dir (py "filelist.txt")) as Hlf2.
  { intros H. apply path_join_inj in H; [|done..]. discriminate H. }
  apply Forall2_join; [by split|].
  assert (∀ ws k,
    (∀ j e, ws !! j = Some e → (k + j, e) ∈ enumerate words) →
    Forall2 (Forall2 (λ p s, p ≠ path_join temp_dir (py "filelist.txt") ∧
                             fills (fs w !! p) s))
      (imap (λ j, entry_fragments temp_dir (k + j)) ws) (entry_slots <$> ws)) as H.
  { induction ws as [|e ws IH]; intros k Hk; [constructor|].
    rewrite imap_cons, fmap_cons. constructor.
    - destruct (Hdone (k + 0) e (Hk 0 e eq_refl)) as [Hzh Hen].
      unfold entry_fragments, entry_slots. destruct e.2 as [english|].
      + constructor; [split; [by apply clip_path_not_shared | done]|].
        constructor; [by split|].
        constructor; [split; [by apply clip_path_not_shared | done]|].
        constructor.
      + constructor; [split; [by apply clip_path_not_shared | done]|].
        constructor.
    - assert (imap ((λ j, entry_fragments temp_dir (k + j)) ∘ S) ws
              = imap (λ j, entry_fragments temp_dir (S k + j)) ws) as ->.
      { apply imap_ext. intros j e' _. simpl. f_equal. lia. }
      apply IH. intros j e' Hj.
      replace (S k + j) with (k + S j) by lia. by apply Hk. }
  apply (H words 0). intros j e. apply elem_of_enumerate.
Qed.

(** The body of the [with] block: when it returns, ffmpeg was handed the
    listing of the fragments and every fragment fills its slot. *)
Lemma assemble_fills sv words out temp_dir w :
  let r := run (assemble sv words out temp_dir) w in
  r.1 = Ok () →
  concat_reads (new_events w r.2) = [Some (listing (fragments temp_dir words))]
  ∧ Forall2 (λ p s, p = out ∨ fills (fs r.2 !! p) s)
      (fragments temp_dir words) (slots words).
Proof.
  intros r Hok. split.
  { destruct (assemble_handed sv words out temp_dir w) as (evs & Hlog & Hh).
    cbv zeta in Hlog, Hh. fold r in Hlog, Hh. rewrite Hok in Hh.
    by rewrite (new_events_app _ _ _ Hlog). }
  set (lf := path_join temp_dir (py "filelist.txt")).
  set (sil := path_join temp_dir (py "silence.mp3")).
  set (short := path_join temp_dir (py "short_silence.mp3")).
  assert (sil ≠ short) as Hss.
  { intros H. apply path_join_inj in H; [|done..]. discriminate H. }
  enough (hoare (λ w1, w1 = w) (assemble sv words out temp_dir)
            (λ _ w', Forall2 (λ p s, p = out ∨ fills (fs w' !! p) s)
                       (fragments temp_dir words) (slots words))
            (λ _ _, True)) as H.
  { specialize (H w eq_refl). subst r.
    destruct (run (assemble sv words out temp_dir) w) as [[[]|e] w']; [done|].
    discriminate Hok. }
  unfold assemble. cbv zeta. fold sil short.
  eapply hoare_bind with (Q := λ _ w1, fs w1 !! sil = Some (Silence 800)).
  { intros w1 _. rewrite run_generate_silence. cbv zeta.
    destruct (ffmpeg_exit sv (ffmpeg_calls w1) _); [|done].
    world_norm. apply lookup_insert_eq. }
  intros ?; cbv beta.
  eapply hoare_bind with (Q := λ _, slot_files temp_dir []).
  { intros w1 Hsil. rewrite run_generate_silence. cbv zeta.
    destruct (ffmpeg_exit sv (ffmpeg_calls w1) _); [|done].
    unfold slot_files. world_norm. fold sil short. split; [|split].
    - by rewrite lookup_insert_ne.
    - apply lookup_insert_eq.
    - intros j e Hje. by apply elem_of_nil in Hje. }
  intros ?; cbv beta.
  eapply hoare_bind with (Q := λ fr w1,
    fr = fragments temp_dir words ∧ slot_files temp_dir (enumerate words) w1).
  { intros w1 Hw1.
    pose proof (word_loop_fills sv temp_dir sil short (length words)
                  (enumerate words) [] []) as Hfill.
    pose proof (word_loop_value sv temp_dir (length words) words 0 [] w1) as Hval.
    fold sil short in Hval. unfold enumerate in Hval.
    specialize (Hfill
      ltac:(cbn [fmap list_fmap app]; unfold enumerate;
            rewrite fst_zip by (rewrite length_seq; lia); apply NoDup_seq)
      w1 Hw1).
    unfold enumerate in *.
    destruct (run (word_loop sv temp_dir sil short (length words)
                     (zip (seq 0 (length words)) words) []) w1) as [[fr|e] w2];
      [|done].
    split; [by apply (Hval fr w2) | done]. }
  intros fr. apply hoare_print; [by intros w1 Hw1|].
  intros w1 [-> Hfiles]. rewrite run_merge_audio_files. cbv zeta. fold lf.
  destruct (ffmpeg_exit sv (ffmpeg_calls w1) _); [|done].
  world_norm. eapply Forall2_impl; [by apply slot_files_fragments|].
  intros p s [Hlf Hfill]. cbv beta in *.
  destruct (decide (p = out)) as [->|Hout]; [by left | right].
  by rewrite !lookup_insert_ne.
Qed.

(** [C1] What a job hands to ffmpeg's concat, for a readable word list.  It
    hands over at most one list file, exactly one when it completes, and it
    completes whenever ffmpeg does not fail; the list names the fragments of
    the entries in document order, one line [file '<path>'] each: for each
    entry its primary clip and, for a bilingual entry, the inter-language
    silence and the secondary clip after it, with the inter-word silence
    between consecutive entries and none after the last.  There is one
    fragment per slot: one or three per entry plus [N-1] silences, that is
    [3N + (N-1)] when every entry is bilingual.  When the body of the job's
    [with] block returns, the list has been handed over and every fragment
    holds what its slot asks for: the entry's primary text in the Chinese
    voice, the 500 ms silence, the entry's secondary text in the English
    voice, the 800 ms silence, where a text the backend could not speak is
    replaced by the 100 ms silence and no slot is dropped. *)
Theorem fragment_sequence_in_document_order
    sv input_file output_file content w :
  fs w !! input_file = Some (Text content) →
  let words := parse_lines (readlines content) in
  let temp_dir := mkdtemp sv (tmp_dirs w) in
  let out := output_path input_file output_file in
  let paths := fragments temp_dir words in
  let r := run (convert_file_to_mp3 sv input_file output_file) w in
  let handed := concat_reads (new_events w r.2) in
  (r.1 = Ok true → handed = [Some (listing paths)])
  ∧ (handed = [] ∨ handed = [Some (listing paths)])
  ∧ ((∀ k cmd, ffmpeg_exit sv k cmd = true) → words ≠ [] → r.1 = Ok true)
  ∧ length paths = length (slots words)
  ∧ length paths = sum_list (entry_size <$> words) + (length words - 1)
  ∧ (Forall bilingual words →
     length paths = 3 * length words + (length words - 1))
  ∧ (∀ w1,
       let body := run (assemble sv words out temp_dir) w1 in
       body.1 = Ok () →
       concat_reads (new_events w1 body.2) = [Some (listing paths)]
       ∧ Forall2 (λ p s, p = out ∨ fills (fs body.2 !! p) s) paths (slots words)).
Proof.
  intros Hf words temp_dir out paths r handed.
  destruct (convert_file_to_mp3_handed sv _ output_file _ _ Hf)
    as (evs & Hlog & Hok & Hany).
  subst handed paths. fold r words temp_dir in Hlog, Hok, Hany.
  rewrite (new_events_app _ _ _ Hlog). rewrite playlist_listing in Hok, Hany.
  split; [done|]. split; [done|]. split; [|split; [|split; [|split]]].
  - intros Hff Hne. subst r. rewrite (convert_file_to_mp3_run sv _ _ _ _ Hf).
    cbv zeta. fold words. destruct words; [done|].
    by rewrite assemble_total.
  - unfold fragments, slots. rewrite !length_join_singleton, length_imap, length_fmap.
    f_equal. rewrite imap_entry_sizes by apply entry_fragments_length.
    f_equal. rewrite <- list_fmap_compose. apply list_fmap_ext.
    intros ? e _. unfold entry_slots, entry_size. simpl. by destruct e.2.
  - apply fragments_length.
  - apply fragments_length_bilingual.
  - intros w1 body Hbody. by apply assemble_fills.
Qed.

(** ** How often the collaborators are called *)

Lemma texts_cons e words :
  texts (e :: words) = match e.2 with None => 1 | Some _ => 2 end + texts words.
Proof. reflexivity. Qed.

Lemma calls_within_ret {A} (a : A) : calls_within 0 0 (mret a).
Proof. intros w. rewrite run_ret. cbn [snd]. lia. Qed.

Lemma calls_within_bind {A B} a1 b1 a2 b2 (m : M A) (f : A → M B) :
  calls_within a1 b1 m → (∀ x, calls_within a2 b2 (f x)) →
  calls_within (a1 + a2) (b1 + b2) (m ≫= f).
Proof.
  intros Hm Hf w. rewrite run_bind. specialize (Hm w).
  destruct (run m w) as [[x|e] w1]; cbn [snd] in *; [|lia].
  specialize (Hf x w1). lia.
Qed.

Lemma calls_within_weaken {A} a b a' b' (m : M A) :
  calls_within a b m → a ≤ a' → b ≤ b' → calls_within a' b' m.
Proof. intros Hm Ha Hb w. specialize (Hm w). lia. Qed.

Lemma calls_within_emit e : calls_within 0 0 (emit e).
Proof. intros w. unfold run, emit. world_norm. lia. Qed.

Lemma calls_within_ffmpeg sv cmd : calls_within 0 1 (run_ffmpeg sv cmd).
Proof.
  intros w. unfold run, run_ffmpeg. cbv zeta.
  destruct (ffmpeg_exit sv (ffmpeg_calls w) cmd); [destruct cmd|]; world_norm; lia.
Qed.

Lemma calls_within_communicate sv text voice o :
  calls_within 1 0 (communicate_save sv text voice o).
Proof.
  intros w. rewrite run_communicate_save.
  destruct (tts_backend sv (tts_calls w) text voice RATE); world_norm; lia.
Qed.

Lemma calls_within_loop sv attempts text voice o :
  calls_within (length attempts) 1 (text_to_speech_loop sv attempts text voice o).
Proof.
  induction attempts as [|attempt rest IH]; cbn [text_to_speech_loop length].
  - eapply calls_within_weaken; [apply calls_within_ret | lia..].
  - apply (calls_within_bind 1 0 (length rest) 1); [apply calls_within_communicate|].
    intros [|].
    { eapply calls_within_weaken; [apply calls_within_ret | lia..]. }
    destruct (attempt <? MAX_RETRIES - 1).
    + apply (calls_within_bind 0 0 (length rest) 1); [apply calls_within_emit|].
      intros _.
      apply (calls_within_bind 0 0 (length rest) 1); [apply calls_within_emit|].
      intros _. exact IH.
    + eapply calls_within_weaken with (a := 0) (b := 1); [|lia..].
      apply (calls_within_bind 0 0 0 1); [apply calls_within_emit|]. intros _.
      apply (calls_within_bind 0 1 0 0); [apply calls_within_ffmpeg|]. intros _.
      apply calls_within_ret.
Qed.

Lemma calls_within_text_to_speech sv text voice o :
  calls_within 3 1 (text_to_speech sv text voice o).
Proof. apply (calls_within_loop sv (seq 0 MAX_RETRIES)). Qed.

Lemma calls_within_word_loop sv temp_dir sil short n items acc :
  calls_within (3 * texts items.*2) (texts items.*2)
    (word_loop sv temp_dir sil short n items acc).
Proof.
  revert acc. induction items as [|[i [chinese english]] rest IH]; intros acc.
  - apply calls_within_ret.
  - cbn [word_loop]. destruct english as [english|].
    + eapply calls_within_weaken with (a := 6 + 3 * texts rest.*2)
                                       (b := 2 + texts rest.*2).
      2,3: rewrite fmap_cons, texts_cons; cbn [snd]; lia.
      apply calls_within_bind; [|intros fr; apply IH].
      apply (calls_within_bind 0 0 6 2); [apply calls_within_emit|]. intros _.
      apply (calls_within_bind 3 1 3 1); [apply calls_within_text_to_speech|].
      intros _.
      apply (calls_within_bind 3 1 0 0); [apply calls_within_text_to_speech|].
      intros _. apply calls_within_ret.
    + eapply calls_within_weaken with (a := 3 + 3 * texts rest.*2)
                                       (b := 1 + texts rest.*2).
      2,3: rewrite fmap_cons, texts_cons; cbn [snd]; lia.
      apply calls_within_bind; [|intros fr; apply IH].
      apply (calls_within_bind 0 0 3 1); [apply calls_within_emit|]. intros _.
      apply (calls_within_bind 3 1 0 0); [apply calls_within_text_to_speech|].
      intros _. apply calls_within_ret.
Qed.

Lemma calls_within_merge sv audio_files out temp_dir :
  calls_within 0 1 (merge_audio_files sv audio_files out temp_dir).
Proof.
  intros w. rewrite run_merge_audio_files. cbv zeta.
  destruct (ffmpeg_exit sv (ffmpeg_calls w) _); world_norm; lia.
Qed.

Lemma enumerate_snd {A} (l : list A) : (enumerate l).*2 = l.
Proof. unfold enumerate. apply snd_zip. by rewrite length_seq. Qed.

Lemma calls_within_assemble sv words out temp_dir :
  calls_within (3 * texts words) (texts words + 3) (assemble sv words out temp_dir).
Proof.
  unfold assemble. cbv zeta.
  eapply calls_within_weaken with (a := 0 + (0 + (3 * texts words + (0 + 0))))
                                   (b := 1 + (1 + (texts words + (0 + 1)))).
  2,3: lia.
  apply calls_within_bind; [apply calls_within_ffmpeg|]. intros _.
  apply calls_within_bind; [apply calls_within_ffmpeg|]. intros _.
  apply calls_within_bind.
  { pose proof (calls_within_word_loop sv temp_dir
                  (path_join temp_dir (py "silence.mp3"))
                  (path_join temp_dir (py "short_silence.mp3"))
                  (length words) (enumerate words) []) as H.
    by rewrite enumerate_snd in H. }
  intros fr.
  apply calls_within_bind; [apply calls_within_emit|]. intros _.
  apply calls_within_merge.
Qed.

(** With a voice backend that never fails, a request is one call. *)
Lemma text_to_speech_first_try sv text voice o w :
  (∀ n t v r, tts_backend sv n t v r = true) →
  run (text_to_speech sv text voice o) w
  = (Ok true,
     set_fs (insert o (Speech text voice RATE))
       (add_log (TtsCall text voice RATE o true) (tick_tts w))).
Proof.
  intros Hok. unfold text_to_speech. change (seq 0 MAX_RETRIES) with [0; 1; 2].
  cbn [text_to_speech_loop]. rewrite run_bind, run_communicate_save, Hok.
  by rewrite run_ret.
Qed.

Lemma word_loop_exact sv temp_dir sil short n items :
  (∀ n t v r, tts_backend sv n t v r = true) →
  ∀ acc c k,
    hoare (counters c k) (word_loop sv temp_dir sil short n items acc)
      (λ _, counters (c + texts items.*2) k) (λ _ _, False).
Proof.
  intros Hok. induction items as [|[i [chinese english]] rest IH]; intros acc c k.
  - apply hoare_ret. intros w [? ?]. unfold texts. cbn. split; [lia|done].
  - cbn [word_loop]. destruct english as [english|].
    + eapply hoare_bind with (Q := λ _, counters (c + 2) k).
      * intros w [Hc Hk]. run_simpl.
        rewrite text_to_speech_first_try by done. cbv beta iota. run_simpl.
        rewrite text_to_speech_first_try by done. cbv beta iota. run_simpl.
        unfold counters. world_norm. split; [lia|done].
      * intros fr. eapply hoare_weaken; [apply IH | done | | done].
        intros _ w [Hc Hk]. split; [|done]. rewrite Hc.
        rewrite fmap_cons, texts_cons. cbn [snd]. lia.
    + eapply hoare_bind with (Q := λ _, counters (c + 1) k).
      * intros w [Hc Hk]. run_simpl.
        rewrite text_to_speech_first_try by done. cbv beta iota. run_simpl.
        unfold counters. world_norm. split; [lia|done].
      * intros fr. eapply hoare_weaken; [apply IH | done | | done].
        intros _ w [Hc Hk]. split; [|done]. rewrite Hc.
        rewrite fmap_cons, texts_cons. cbn [snd]. lia.
Qed.

Lemma assemble_exact sv words out temp_dir c k :
  (∀ n t v r, tts_backend sv n t v r = true) →
  hoare (counters c k) (assemble sv words out temp_dir)
    (λ _, counters (c + texts words) (k + 3)) (λ _ _, True).
Proof.
  intros Hok. unfold assemble. cbv zeta.
  eapply hoare_bind with (Q := λ _, counters c (k + 1)).
  { intros w [Hc Hk]. rewrite run_generate_silence. cbv zeta.
    destruct (ffmpeg_exit sv (ffmpeg_calls w) _); [|done].
    unfold counters. world_norm. split; [done|lia]. }
  intros ?; cbv beta.
  eapply hoare_bind with (Q := λ _, counters c (k + 2)).
  { intros w [Hc Hk]. rewrite run_generate_silence. cbv zeta.
    destruct (ffmpeg_exit sv (ffmpeg_calls w) _); [|done].
    unfold counters. world_norm. split; [done|lia]. }
  intros ?; cbv beta.
  eapply hoare_bind with (Q := λ _, counters (c + texts words) (k + 2)).
  { eapply hoare_weaken; [by apply word_loop_exact | done | | done].
    intros ? w. cbv beta. by rewrite enumerate_snd. }
  intros fr. apply hoare_print; [by intros w Hw|].
  intros w [Hc Hk]. rewrite run_merge_audio_files. cbv zeta.
  destruct (ffmpeg_exit sv (ffmpeg_calls w) _); [|done].
  unfold counters. world_norm. split; [done|lia].
Qed.

(** [X8] A job over a readable word list calls the voice backend at most
    three times per text (one text for a title line, two for a bilingual
    entry) and runs ffmpeg at most once per text and three times more.
    With a voice backend that never fails, a job that returns [True] has
    made exactly one backend call per text and exactly three ffmpeg runs,
    however long the list is: the two silences are generated once. *)
Theorem conversion_call_budget sv input_file output_file content w :
  fs w !! input_file = Some (Text content) →
  let words := parse_lines (readlines content) in
  let r := run (convert_file_to_mp3 sv input_file output_file) w in
  tts_calls w ≤ tts_calls r.2 ≤ tts_calls w + 3 * texts words ∧
  ffmpeg_calls w ≤ ffmpeg_calls r.2 ≤ ffmpeg_calls w + texts words + 3 ∧
  ((∀ n t v ra, tts_backend sv n t v ra = true) →
   r.1 = Ok true →
   tts_calls r.2 = tts_calls w + texts words ∧
   ffmpeg_calls r.2 = ffmpeg_calls w + 3).
Proof.
  intros Hf words. cbv zeta.
  rewrite (convert_file_to_mp3_run sv _ output_file _ _ Hf). cbv zeta.
  fold words.
  destruct words as [|e ws] eqn:Hw.
  { world_norm. split; [lia|]. split; [lia|]. intros _ [=]. }
  rewrite <- Hw. clear Hw.
  match goal with
  | |- context [run (assemble sv words ?out ?td) ?w0] =>
      pose proof (calls_within_assemble sv words out td w0) as Hb;
      pose proof (λ H, assemble_exact sv words out td
                         (tts_calls w) (ffmpeg_calls w) H w0) as He;
      destruct (run (assemble sv words out td) w0) as [[[]|e'] w1]
  end; world_norm; cbn [fst snd tts_calls ffmpeg_calls tick_tmp add_log] in *;
    world_norm.
  - split; [lia|]. split; [lia|]. intros Hok _. by apply He.
  - split; [lia|]. split; [lia|]. intros _ [=].
Qed.

(** ** An input that cannot be opened *)

(** [X9] When the input file does not exist, the job raises
    [FileNotFoundError] right after announcing its input and output paths:
    it calls neither the voice backend nor ffmpeg and writes nothing.
    Unlike a file without entries, such a file ends a directory run: the
    files listed after it are not processed. *)
Theorem missing_input_is_fatal sv input_file output_file rest w :
  fs w !! input_file = None →
  let announced o :=
    add_log (Print (MsgOutput (output_path input_file o)))
      (add_log (Print (MsgProcessing input_file)) w) in
  run (convert_file_to_mp3 sv input_file output_file) w
  = (Raise (FileNotFoundError input_file), announced output_file) ∧
  run (process_files sv (input_file :: rest)) w
  = (Raise (FileNotFoundError input_file), announced None).
Proof.
  intros Hf announced.
  assert (∀ o, run (convert_file_to_mp3 sv input_file o) w
               = (Raise (FileNotFoundError input_file), announced o)) as H.
  { intros o. unfold convert_file_to_mp3. cbv zeta. run_simpl.
    unfold run at 1, parse_word_file. world_norm. by rewrite Hf. }
  split; [apply H|].
  cbn [process_files]. by rewrite run_bind, H.
Qed.

(** ** The default output path *)

Lemma rfind_None c s : c ∉ s → rfind c s = None.
Proof.
  induction s as [|d s IH]; [done|]. intros Hc.
  apply not_elem_of_cons in Hc as [Hne Hc]. cbn [rfind]. rewrite IH by done.
  destruct (N.eqb_spec d c); congruence.
Qed.

Lemma rfind_last c l e : c ∉ e → rfind c (l ++ c :: e) = Some (length l).
Proof.
  intros Hc. induction l as [|d l IH].
  - cbn [app rfind length]. by rewrite rfind_None, N.eqb_refl.
  - cbn [app rfind length]. by rewrite IH.
Qed.

Lemma rfind_Some_lt c l e i : c ∉ e → rfind c (l ++ e) = Some i → i < length l.
Proof.
  intros Hc. revert i. induction l as [|d l IH]; intros i.
  - cbn [app]. by rewrite rfind_None.
  - cbn [app rfind length]. destruct (rfind c (l ++ e)) as [j|] eqn:Hj.
    + intros [= <-]. specialize (IH j eq_refl). lia.
    + destruct (d =? c)%N; [|done]. intros [= <-]. lia.
Qed.

Lemma take_1_drop (l : pystr) i c : l !! i = Some c → take 1 (drop i l) = [c].
Proof.
  revert i. induction l as [|d l IH]; intros [|i]; try done.
  - by intros [= ->].
  - cbn [drop lookup]. apply IH.
Qed.

Lemma splitext_scan_found p dotIndex indices i c :
  i ∈ indices → p !! i = Some c → c ≠ dot →
  splitext_scan p dotIndex indices = Some (take dotIndex p).
Proof.
  intros Hi Hp Hc. induction indices as [|j indices IH]; [by apply elem_of_nil in Hi|].
  cbn [splitext_scan]. case_bool_decide as Hj; [done|].
  apply elem_of_cons in Hi as [->|Hi]; [|by apply IH].
  rewrite (take_1_drop p _ c Hp) in Hj. congruence.
Qed.

Lemma splitext_scan_dots p dotIndex indices :
  (∀ i, i ∈ indices → p !! i = Some dot) →
  splitext_scan p dotIndex indices = None.
Proof.
  intros H. induction indices as [|j indices IH]; [done|].
  cbn [splitext_scan]. rewrite (take_1_drop p j dot) by (apply H; left).
  rewrite bool_decide_eq_false_2 by (by intros ?).
  apply IH. intros i Hi. apply H. by right.
Qed.

(** The start of the file name in a path made of a directory part and a
    name without slash. *)
Lemma basename_start dir name :
  dir = [] ∨ (∃ d, dir = d ++ [slash]) → slash ∉ name →
  match rfind slash (dir ++ name) with Some i => S i | None => 0 end = length dir.
Proof.
  intros [->|[d ->]] Hname.
  - cbn [app length]. by rewrite rfind_None.
  - rewrite <- app_assoc. cbn [app]. rewrite rfind_last by done.
    rewrite length_app. cbn [length]. lia.
Qed.

(** [X10] The output path when none is given, for an input path made of a
    directory part, a base name and an extension without dot: the extension
    is replaced by [.mp3] when the base name has a character other than a
    dot; it is kept, and [.mp3] appended, when the base name is empty or all
    dots (as in [.txt]); and [.mp3] is appended to a name without dot, also
    when a directory of the path has one.  A given output path is used as
    it is. *)
Theorem default_output_path dir base ext :
  dir = [] ∨ (∃ d, dir = d ++ [slash]) →
  slash ∉ base → slash ∉ ext → dot ∉ ext →
  ((∃ c, c ∈ base ∧ c ≠ dot) →
   output_path (dir ++ base ++ dot :: ext) None = dir ++ base ++ py ".mp3") ∧
  (Forall (λ c, c = dot) base →
   output_path (dir ++ base ++ dot :: ext) None
   = dir ++ base ++ dot :: ext ++ py ".mp3") ∧
  (dot ∉ base → output_path (dir ++ base) None = dir ++ base ++ py ".mp3") ∧
  (∀ input_file o, output_path input_file (Some o) = o).
Proof.
  intros Hdir Hbase Hext Hdot.
  assert (slash ∉ base ++ dot :: ext) as Hname.
  { rewrite elem_of_app, elem_of_cons. intros [?|[?|?]]; done. }
  assert (rfind dot (dir ++ base ++ dot :: ext) = Some (length (dir ++ base))) as Hd.
  { rewrite app_assoc. by apply rfind_last. }
  pose proof (basename_start dir _ Hdir Hname) as Hs.
  split; [|split; [|split; [|done]]].
  - intros (c & Hc & Hne). unfold output_path, splitext_root.
    rewrite Hd, Hs, length_app.
    rewrite (proj2 (Nat.leb_le _ _)) by lia.
    replace (length dir + length base - length dir) with (length base) by lia.
    apply list_elem_of_lookup in Hc as [j Hj].
    rewrite (splitext_scan_found _ _ _ (length dir + j) c); [|..|done].
    + rewrite <- length_app, app_assoc, take_app_length. by rewrite <- app_assoc.
    + apply elem_of_seq. apply lookup_lt_Some in Hj. lia.
    + rewrite lookup_app_r by lia.
      replace (length dir + j - length dir) with j by lia.
      by apply lookup_app_l_Some.
  - intros Hall. unfold output_path, splitext_root.
    rewrite Hd, Hs, length_app.
    rewrite (proj2 (Nat.leb_le _ _)) by lia.
    replace (length dir + length base - length dir) with (length base) by lia.
    rewrite splitext_scan_dots; [by rewrite <- !app_assoc|].
    intros i [Hi1 Hi2]%elem_of_seq.
    rewrite lookup_app_r by lia. rewrite lookup_app_l by lia.
    destruct (lookup_lt_is_Some_2 base (i - length dir)) as [c Hc]; [lia|].
    rewrite Hc. f_equal. eapply (Forall_lookup_1 _ _ _ _ Hall Hc).
  - intros Hnodot. unfold output_path, splitext_root.
    destruct (rfind dot (dir ++ base)) as [i|] eqn:Hi; [|by rewrite <- app_assoc].
    apply rfind_Some_lt in Hi; [|done].
    rewrite (basename_start dir base Hdir Hbase).
    rewrite (proj2 (Nat.leb_gt _ _)) by lia. by rewrite <- app_assoc.
Qed.

(** * Further properties of categorize_words.py *)

(** ** Loading the word list *)

Lemma strip_trimmed line : strip line ≠ [] → trimmed (strip line).
Proof.
  intros Hne. destruct (strip_ends line) as [?|(c & t & d & u & Hc & ? & Hu & ?)];
    [done|].
  split; [by exists c, t | by exists u, d].
Qed.

Lemma load_line_cases words line :
  (strip line ≠ [] ∧ (strip line ∉ words) ∧
   load_line words line = words ++ [strip line]) ∨
  ((strip line = [] ∨ strip line ∈ words) ∧ load_line words line = words).
Proof.
  unfold load_line. cbv zeta.
  destruct (decide (strip line = [])) as [Hnil|Hne].
  { right. split; [by left|]. by rewrite (bool_decide_eq_true_2 _ Hnil). }
  rewrite (bool_decide_eq_false_2 _ Hne).
  destruct (decide (strip line ∈ words)) as [Hin|Hnin].
  - right. split; [by right|]. by rewrite (bool_decide_eq_true_2 _ Hin).
  - left. by rewrite (bool_decide_eq_false_2 _ Hnin).
Qed.

Lemma load_lines_prefix lines :
  ∀ acc, acc `prefix_of` foldl load_line acc lines.
Proof.
  induction lines as [|line lines IH]; intros acc; [done|].
  cbn [foldl]. etrans; [|apply IH].
  destruct (load_line_cases acc line) as [(_ & _ & ->)|[_ ->]]; [|done].
  by apply prefix_app_r.
Qed.

Lemma load_lines_good lines :
  ∀ acc, NoDup acc → Forall trimmed acc →
    NoDup (foldl load_line acc lines) ∧ Forall trimmed (foldl load_line acc lines).
Proof.
  induction lines as [|line lines IH]; intros acc Hnd Htr; [done|].
  cbn [foldl]. destruct (load_line_cases acc line) as [(Hne & Hnin & ->)|[_ ->]].
  - apply IH.
    + apply NoDup_app. split; [done|]. split; [|apply NoDup_singleton].
      by intros x Hx ->%list_elem_of_singleton.
    + apply Forall_app. split; [done|]. constructor; [|done].
      by apply strip_trimmed.
  - by apply IH.
Qed.

Lemma load_lines_elem_of lines x :
  ∀ acc, x ∈ foldl load_line acc lines ↔ x ∈ acc ∨ (x ≠ [] ∧ x ∈ strip <$> lines).
Proof.
  induction lines as [|line lines IH]; intros acc.
  - cbn [foldl fmap list_fmap]. split; [by left|].
    intros [?|[_ ?%elem_of_nil]]; done.
  - cbn [foldl]. rewrite IH, fmap_cons, elem_of_cons.
    destruct (load_line_cases acc line) as [(Hne & Hnin & ->)|[Hc ->]].
    + rewrite elem_of_app, list_elem_of_singleton. split.
      * intros [[?| ->] | [? ?]]; auto.
      * intros [?|[? [ -> | ?]]]; auto.
    + split.
      * intros [?|[? ?]]; auto.
      * intros [?|[? [ -> | ?]]]; auto. destruct Hc; [done|auto].
Qed.

Lemma load_lines_render ws :
  ∀ acc, NoDup (acc ++ ws) → Forall trimmed ws →
    foldl load_line acc ((λ x, x ++ [newline]) <$> ws) = acc ++ ws.
Proof.
  induction ws as [|x ws IH]; intros acc Hnd Htr.
  - by rewrite app_nil_r.
  - rewrite fmap_cons. cbn [foldl].
    apply Forall_cons in Htr as [[(c & rest & Hx & Hc) (front & d & Hx' & Hd)] Htr].
    assert (strip (x ++ [newline]) = x) as Hs by (by eapply strip_line).
    destruct (load_line_cases acc (x ++ [newline])) as [(_ & _ & ->)|[Hcase _]].
    + rewrite Hs, IH; [by rewrite <- app_assoc | by rewrite <- app_assoc | done].
    + rewrite Hs in Hcase. destruct Hcase as [->|Hin]; [done|].
      apply NoDup_app in Hnd as (_ & Hdisj & _). destruct (Hdisj x Hin). left.
Qed.

(** [X11] The words [load_words] returns are pairwise distinct and each is
    a non-empty string without whitespace at either end; a string is among
    them exactly when it is not empty and is some line of the file
    stripped.  The list only grows as lines are read, so the words come in
    the order of their first occurrence; and a file of distinct trimmed
    words, one per line, loads to that very list.  When the path holds no
    text file, nothing is loaded. *)
Theorem load_words_distinct filepath w :
  match load_words filepath w with
  | Some words =>
      NoDup words ∧ Forall trimmed words ∧
      (∀ x, x ∈ words ↔ x ≠ [] ∧ x ∈ strip <$> lines_of filepath w)
  | None => ∀ content, docs w !! filepath ≠ Some (Plain content)
  end ∧
  (∀ l1 l2, foldl load_line [] l1 `prefix_of` foldl load_line [] (l1 ++ l2)) ∧
  (∀ ws, NoDup ws → Forall trimmed ws →
         foldl load_line [] ((λ x, x ++ [newline]) <$> ws) = ws).
Proof.
  split; [|split].
  - unfold load_words, lines_of.
    destruct (docs w !! filepath) as [[content|]|]; [|done..].
    set (lines := readlines match content with
                            | [] => []
                            | c :: rest => if (c =? 65279)%N then rest else content
                            end).
    assert (lines = match content with
                    | [] => []
                    | c :: rest =>
                        readlines (if (c =? 65279)%N then rest else c :: rest)
                    end) as Hlines.
    { subst lines. by destruct content. }
    rewrite <- Hlines.
    destruct (load_lines_good lines [] (NoDup_nil_2) (Forall_nil_2 _)) as [Hnd Htr].
    split; [done|]. split; [done|]. intros x.
    rewrite load_lines_elem_of. split; [|by right].
    by intros [?%elem_of_nil|?].
  - intros l1 l2. rewrite foldl_app. apply load_lines_prefix.
  - intros ws Hnd Htr. by apply (load_lines_render ws []).
Qed.

(** ** The category of a word *)

Lemma get_word_category_cases L word :
  match get_word_category L word with
  | Some name => name ∈ category_names
  | None =>
      synsets L (replace_char 32 [underscore] word) = [] ∧
      synsets L (replace_char 32 [] word) = []
  end.
Proof.
  assert (Forall (λ v, is_Some (dict_get CATEGORY_MERGE v)) LEXNAME_TO_CHINESE.*2)
    as Hall by (refine (bool_decide_unpack _ _); vm_compute; exact I).
  assert (dict_get CATEGORY_MERGE OTHER = None) as Hother by (vm_compute; reflexivity).
  rewrite Forall_forall in Hall.
  unfold get_word_category. cbv zeta.
  destruct (synsets L (replace_char 32 [underscore] word)) as [|lexname rest] eqn:H1.
  - destruct (synsets L (replace_char 32 [] word)) as [|lexname rest] eqn:H2; [done|].
    destruct (dict_get LEXNAME_TO_CHINESE lexname) as [chinese|] eqn:Hl; cbn [default from_option id].
    + destruct (Hall chinese) as [merged Hm]; [by eapply dict_get_value|].
      rewrite Hm. cbn [default from_option id]. right. by eapply dict_get_value.
    + rewrite Hother. left.
  - destruct (dict_get LEXNAME_TO_CHINESE lexname) as [chinese|] eqn:Hl; cbn [default from_option id].
    + destruct (Hall chinese) as [merged Hm]; [by eapply dict_get_value|].
      rewrite Hm. cbn [default from_option id]. right. by eapply dict_get_value.
    + rewrite Hother. left.
Qed.

Lemma category_names_good :
  Forall (λ name, name ≠ [] ∧ name ≠ UNCATEGORIZED ∧ underscore ∉ name)
    category_names.
Proof. refine (bool_decide_unpack _ _). vm_compute. exact I. Qed.

Lemma get_word_category_nonempty L word : get_word_category L word ≠ Some [].
Proof.
  intros H. pose proof (get_word_category_cases L word) as Hc. rewrite H in Hc.
  pose proof category_names_good as Hg. rewrite Forall_forall in Hg.
  by destruct (Hg _ Hc) as [? _].
Qed.

(** [X12] The category of a word is one of the merged category names of
    the table or the fallback name for an unknown lexicographer file; it is
    never empty, never holds an underscore and is never the name kept for
    uncategorized words.  A word has no category exactly when WordNet has
    no synset for it, neither with its spaces replaced by underscores nor
    with its spaces removed. *)
Theorem get_word_category_range L word :
  (∀ name, get_word_category L word = Some name →
           name ∈ category_names ∧ name ≠ [] ∧ name ≠ UNCATEGORIZED ∧
           underscore ∉ name) ∧
  (get_word_category L word = None ↔
   synsets L (replace_char 32 [underscore] word) = [] ∧
   synsets L (replace_char 32 [] word) = []).
Proof.
  pose proof (get_word_category_cases L word) as Hc.
  pose proof category_names_good as Hg. rewrite Forall_forall in Hg.
  split.
  - intros name Hname. rewrite Hname in Hc. split; [done|]. by apply Hg.
  - split.
    + intros Hnone. by rewrite Hnone in Hc.
    + intros [H1 H2]. unfold get_word_category. cbv zeta. by rewrite H1, H2.
Qed.

(** ** Sorting words into categories *)

Lemma words_of_snoc L category words x :
  words_of L category (words ++ [x])
  = words_of L category words ++
    (if decide (get_word_category L x = category) then [x] else []).
Proof.
  unfold words_of. rewrite filter_app. f_equal.
Qed.

Lemma categorize_word_step L seen st word :
  st.2 = words_of L None seen →
  (∀ name, dict_get st.1 name = bucket (words_of L (Some name) seen)) →
  (categorize_word L st word).2 = words_of L None (seen ++ [word]) ∧
  (∀ name, dict_get (categorize_word L st word).1 name
           = bucket (words_of L (Some name) (seen ++ [word]))).
Proof.
  destruct st as [categories uncategorized]. cbn [fst snd]. intros Hu Hc.
  pose proof (get_word_category_nonempty L word) as Hne.
  unfold categorize_word.
  destruct (get_word_category L word) as [[|c k]|] eqn:Hcat; [done| |]; cbn [fst snd].
  - split.
    + rewrite words_of_snoc, Hcat. rewrite decide_False by done.
      by rewrite app_nil_r.
    + intros name. rewrite dict_get_set, words_of_snoc, Hcat.
      destruct (decide (c :: k = name)) as [<-|Hne'].
      * rewrite decide_True by done. rewrite Hc.
        destruct (words_of L (Some (c :: k)) seen); done.
      * rewrite decide_False by congruence. by rewrite app_nil_r.
  - split.
    + rewrite words_of_snoc, Hcat. rewrite decide_True by done. by rewrite Hu.
    + intros name. rewrite words_of_snoc, Hcat. rewrite decide_False by done.
      by rewrite app_nil_r.
Qed.

Lemma categorize_fold L words :
  ∀ seen st,
    st.2 = words_of L None seen →
    (∀ name, dict_get st.1 name = bucket (words_of L (Some name) seen)) →
    (foldl (categorize_word L) st words).2 = words_of L None (seen ++ words) ∧
    (∀ name, dict_get (foldl (categorize_word L) st words).1 name
             = bucket (words_of L (Some name) (seen ++ words))).
Proof.
  induction words as [|word words IH]; intros seen st Hu Hc.
  - by rewrite app_nil_r.
  - cbn [foldl]. rewrite (assoc_L _ seen [word] words : seen ++ word :: words = _).
    destruct (categorize_word_step L seen st word Hu Hc) as [Hu' Hc'].
    by apply IH.
Qed.

Lemma concat_dict_append (d : dict (list pystr)) k x :
  concat (dict_set k (default [] (dict_get d k) ++ [x]) d).*2 ≡ₚ x :: concat d.*2.
Proof.
  induction d as [|[k0 v0] d IH]; cbn [dict_set dict_get]; [done|].
  destruct (decide (k0 = k)) as [->|Hne].
  - rewrite !fmap_cons. cbn [snd concat default from_option id].
    rewrite <- app_assoc. cbn [app]. by rewrite <- Permutation_middle.
  - rewrite !fmap_cons. cbn [snd concat]. rewrite IH.
    by rewrite <- Permutation_middle.
Qed.

Lemma categorize_fold_perm L words :
  ∀ st, concat (foldl (categorize_word L) st words).1.*2 ++
        (foldl (categorize_word L) st words).2
        ≡ₚ concat st.1.*2 ++ st.2 ++ words.
Proof.
  induction words as [|word words IH]; intros [categories uncategorized].
  - cbn [foldl fst snd]. by rewrite app_nil_r.
  - cbn [foldl]. rewrite IH. unfold categorize_word.
    destruct (get_word_category L word) as [[|c k]|]; cbn [fst snd].
    + by rewrite <- !app_assoc.
    + rewrite concat_dict_append. cbn [app].
      rewrite <- !Permutation_middle. done.
    + by rewrite <- !app_assoc.
Qed.

Lemma dict_get_key {V} (d : dict V) k : k ∈ d.*1 → is_Some (dict_get d k).
Proof.
  induction d as [|[k0 v0] d IH]; [by intros ?%elem_of_nil|].
  rewrite fmap_cons. cbn [fst dict_get]. intros Hk.
  destruct (decide (k0 = k)); [done|].
  apply elem_of_cons in Hk as [->|Hk]; [done|]. by apply IH.
Qed.

(** [X13] [categorize_words] sorts the words without losing or repeating
    any: the uncategorized list is the words without category, in input
    order; each category of the result holds exactly the words of that
    category, in input order, and a category exists only if it has a word;
    the categories and the uncategorized list together are a permutation of
    the input.  However many words there are, there are at most 31
    categories. *)
Theorem categorize_words_partition L words :
  let r := categorize_words L words in
  r.2 = words_of L None words ∧
  (∀ name, dict_get r.1 name = bucket (words_of L (Some name) words)) ∧
  NoDup r.1.*1 ∧
  concat r.1.*2 ++ r.2 ≡ₚ words ∧
  length r.1 ≤ 31.
Proof.
  cbv zeta.
  destruct (categorize_fold L words [] ([], []) eq_refl (λ _, eq_refl)) as [Hu Hc].
  cbn [app] in Hu, Hc. fold (categorize_words L words) in Hu, Hc.
  pose proof (categorize_words_keys L words) as [Hnd _].
  split; [done|]. split; [done|]. split; [done|]. split.
  - unfold categorize_words. by rewrite categorize_fold_perm.
  - assert (length (remove_dups category_names) = 31) as <-
      by (vm_compute; reflexivity).
    rewrite <- (length_fmap fst). apply submseteq_length, NoDup_submseteq; [done|].
    intros name Hname. apply elem_of_remove_dups.
    destruct (dict_get_key _ _ Hname) as [ws Hws]. rewrite Hc in Hws.
    destruct (words_of L (Some name) words) as [|x xs] eqn:Hx; [done|].
    assert (x ∈ words_of L (Some name) words) as Hin by (rewrite Hx; left).
    apply list_elem_of_filter in Hin as [Hcat _].
    pose proof (get_word_category_cases L x) as Hcases. by rewrite Hcat in Hcases.
Qed.

(** ** Splitting with any limit *)

Lemma split_part_small max_size n cat_name words result i :
  Forall (λ kv : pystr * list pystr, length kv.2 ≤ max_size) result →
  Forall (λ kv : pystr * list pystr, length kv.2 ≤ max_size)
    (split_part max_size n cat_name words result i).
Proof.
  intros Hr. unfold split_part. cbv zeta.
  apply (dict_set_Forall (λ v, length v ≤ max_size)); [done|].
  rewrite length_slice. nia.
Qed.

Lemma split_category_small max_size result item :
  0 < max_size →
  Forall (λ kv : pystr * list pystr, length kv.2 ≤ max_size) result →
  ∃ r, split_category max_size result item = Some r ∧
       Forall (λ kv : pystr * list pystr, length kv.2 ≤ max_size) r.
Proof.
  intros Hm Hr. destruct item as [cat_name words]. unfold split_category.
  destruct (length words <=? max_size) eqn:Hle.
  - eexists. split; [done|]. apply Nat.leb_le in Hle.
    by apply (dict_set_Forall (λ v, length v ≤ max_size)).
  - destruct max_size as [|m]; [lia|]. eexists. split; [done|].
    generalize (seq 0 ((length words + S m - 1) / S m)). intros parts.
    revert result Hr. induction parts as [|i parts IH]; intros result Hr; [done|].
    cbn [foldl]. apply IH. by apply split_part_small.
Qed.

Lemma split_loop_small max_size categories :
  0 < max_size →
  ∀ result,
    Forall (λ kv : pystr * list pystr, length kv.2 ≤ max_size) result →
    ∃ r, split_loop max_size categories result = Some r ∧
         Forall (λ kv : pystr * list pystr, length kv.2 ≤ max_size) r.
Proof.
  intros Hm. induction categories as [|item rest IH]; intros result Hr.
  - by exists result.
  - cbn [split_loop].
    destruct (split_category_small max_size result item Hm Hr) as (r & -> & Hs).
    by apply IH.
Qed.

Lemma split_loop_zero categories :
  ∀ result,
    split_loop 0 categories result = None ↔
    Exists (λ kv : pystr * list pystr, kv.2 ≠ []) categories.
Proof.
  induction categories as [|[cat_name words] rest IH]; intros result.
  - cbn [split_loop]. split; [done|]. by intros ?%Exists_nil.
  - cbn [split_loop split_category]. rewrite Exists_cons. cbn [snd].
    destruct words as [|x words]; cbn [length Nat.leb].
    + rewrite IH. split; [by right|]. by intros [?|?].
    + split; [|done]. intros _. by left.
Qed.

Lemma dict_set_fresh {V} (d : dict V) k v : k ∉ d.*1 → dict_set k v d = d ++ [(k, v)].
Proof.
  induction d as [|[k0 v0] d IH]; [done|].
  rewrite fmap_cons. cbn [fst]. intros [Hne Hk]%not_elem_of_cons.
  cbn [dict_set]. rewrite decide_False by done. by rewrite IH.
Qed.

Lemma split_loop_small_categories max_size categories :
  ∀ result,
    NoDup (result.*1 ++ categories.*1) →
    Forall (λ kv : pystr * list pystr, length kv.2 ≤ max_size) categories →
    split_loop max_size categories result = Some (result ++ categories).
Proof.
  induction categories as [|[cat_name words] rest IH]; intros result Hnd Hs.
  - by rewrite app_nil_r.
  - apply Forall_cons in Hs as [Hle Hs]. cbn [snd] in Hle.
    cbn [split_loop split_category]. rewrite (proj2 (Nat.leb_le _ _) Hle).
    rewrite fmap_cons in Hnd. cbn [fst] in Hnd.
    rewrite dict_set_fresh.
    2: { apply NoDup_app in Hnd as (_ & Hd & _). intros Hin.
         apply (Hd _ Hin). left. }
    rewrite IH; [by rewrite <- app_assoc | | done].
    rewrite fmap_app, <- app_assoc. done.
Qed.

(** [X14] [split_large_categories] with any limit.  With a positive limit
    it returns, and no category of the result holds more words than the
    limit.  With the limit 0 it fails with a division by zero exactly when
    some category holds a word.  When no category holds more words than the
    limit, the result is the input: same names, same words, same order. *)
Theorem split_large_categories_limit categories max_size :
  (0 < max_size →
   ∃ result,
     split_large_categories categories max_size = Some result ∧
     Forall (λ kv : pystr * list pystr, length kv.2 ≤ max_size) result) ∧
  (max_size = 0 →
   (split_large_categories categories max_size = None ↔
    Exists (λ kv : pystr * list pystr, kv.2 ≠ []) categories)) ∧
  (NoDup categories.*1 →
   Forall (λ kv : pystr * list pystr, length kv.2 ≤ max_size) categories →
   split_large_categories categories max_size = Some categories).
Proof.
  unfold split_large_categories. split; [|split].
  - intros Hm. by apply split_loop_small.
  - intros ->. apply split_loop_zero.
  - intros Hnd Hs. by rewrite split_loop_small_categories.
Qed.

(** ** A batch that the backend translates *)

Lemma zip_assign_get (batch : list pystr) :
  ∀ (translated : list pystr) tr j word,
    NoDup batch → batch !! j = Some word →
    dict_get (foldl (λ tr (wt : pystr * pystr), dict_set wt.1 (strip wt.2) tr)
                tr (zip batch translated)) word
    = match translated !! j with
      | Some line => Some (strip line)
      | None => dict_get tr word
      end.
Proof.
  induction batch as [|word0 batch IH]; intros translated tr j word Hnd Hj; [done|].
  apply NoDup_cons in Hnd as [Hnin Hnd].
  destruct translated as [|t ts]; [done|].
  cbn [zip zip_with foldl fst snd].
  destruct j as [|j].
  - injection Hj as ->. cbn [lookup list_lookup].
    rewrite zip_assign_frame by done. apply dict_get_set_eq.
  - cbn [lookup list_lookup] in *. rewrite (IH ts _ j word Hnd Hj).
    destruct (ts !! j); [done|]. apply dict_get_set_ne.
    intros ->. apply Hnin. by eapply list_elem_of_lookup_2.
Qed.

(** [X15] A batch the backend answers costs one call.  The answer is cut
    into lines; the [j]-th word of the batch is mapped to the [j]-th line,
    stripped.  When the answer has fewer lines than the batch has words, the
    words beyond the last line get no translation: they keep the entry they
    had, if any.  Lines beyond the last word are ignored. *)
Theorem translate_batch_answered L todo tr w i result :
  let batch := slice todo i (i + batch_size) in
  let r := translate_batch L todo (tr, w) i in
  translator L (translator_calls w) (join [newline] batch) = Some result →
  NoDup batch →
  translator_calls r.2 = S (translator_calls w) ∧
  docs r.2 = docs w ∧
  (∀ j word,
     batch !! j = Some word →
     dict_get r.1 word
     = match split_on newline result !! j with
       | Some line => Some (strip line)
       | None => dict_get tr word
       end) ∧
  (∀ k, k ∉ batch → dict_get r.1 k = dict_get tr k).
Proof.
  intros batch r Hres Hnd. subst r. unfold translate_batch, translate.
  cbv beta iota zeta. fold batch. rewrite Hres. cbv beta iota.
  cbn [fst snd]. split; [|split; [|split]].
  - by destruct (_ =? 0).
  - by destruct (_ =? 0).
  - intros j word Hj. by apply zip_assign_get.
  - intros k Hk. by apply zip_assign_frame.
Qed.

(** ** What a translation run costs and writes *)

Lemma translate_word_fold_calls L batch :
  ∀ tr w,
    translator_calls (foldl (translate_word L) (tr, w) batch).2
    = translator_calls w + length batch.
Proof.
  induction batch as [|word batch IH]; intros tr w; [cbn; lia|].
  cbn [foldl length].
  destruct (translate_word L (tr, w) word) as [tr1 w1] eqn:Hstep.
  rewrite IH.
  assert (translator_calls w1 = S (translator_calls w)) as ->; [|lia].
  unfold translate_word, translate in Hstep. cbv beta iota zeta in Hstep.
  destruct (translator L (translator_calls w) word);
    injection Hstep as _ <-; done.
Qed.

Lemma translate_batch_calls L todo tr w i :
  let batch := slice todo i (i + batch_size) in
  translator_calls (translate_batch L todo (tr, w) i).2
  = translator_calls w + 1 +
    match translator L (translator_calls w) (join [newline] batch) with
    | Some _ => 0
    | None => length batch
    end.
Proof.
  intros batch. unfold translate_batch, translate. cbv beta iota zeta. fold batch.
  destruct (translator L (translator_calls w) (join [newline] batch)).
  - cbn [snd]. destruct (_ =? 0); cbn [translator_calls say record]; lia.
  - rewrite translate_word_fold_calls. cbn [translator_calls say record]. lia.
Qed.

Lemma translate_batches_calls L todo indices :
  ∀ tr w,
    let batches := (λ i, slice todo i (i + batch_size)) <$> indices in
    let r := foldl (translate_batch L todo) (tr, w) indices in
    translator_calls w + length indices ≤ translator_calls r.2
    ≤ translator_calls w + length indices + length (concat batches).
Proof.
  induction indices as [|i indices IH]; intros tr w; cbv zeta.
  - cbn. lia.
  - cbn [foldl]. rewrite fmap_cons. cbn [concat length]. rewrite length_app.
    pose proof (translate_batch_calls L todo tr w i) as Hc. cbv zeta in Hc.
    destruct (translate_batch L todo (tr, w) i) as [tr1 w1]. cbn [snd] in Hc.
    specialize (IH tr1 w1). cbv zeta in IH.
    destruct (translator L (translator_calls w) _); lia.
Qed.

Lemma translate_missing_cost L words cache_file cache w :
  let todo := List.filter (λ x, negb (dict_in x cache)) words in
  let r := translate_missing L words cache_file cache w in
  let batches := (length todo + batch_size - 1) / batch_size in
  translator_calls w + batches ≤ translator_calls r.2
  ≤ translator_calls w + batches + length todo ∧
  (todo = [] → translator_calls r.2 = translator_calls w) ∧
  docs r.2
  = match todo, cache_file with
    | _ :: _, Some (c :: p) => <[c :: p := Json (JObject r.1)]> (docs w)
    | _, _ => docs w
    end.
Proof.
  intros todo r batches. subst r batches. unfold translate_missing.
  cbv zeta. fold todo.
  destruct todo as [|x0 todo'] eqn:Htodo.
  { cbn [fst snd length].
    change ((0 + batch_size - 1) / batch_size) with 0.
    split; [lia|]. split; [done|]. by destruct cache_file as [[|]|]. }
  rewrite <- Htodo.
  destruct (translate_batches_fold L todo (py_range (length todo) batch_size)
              cache (say (Translating (length todo)) w))
    as (evs & _ & Hd & _).
  pose proof (translate_batches_calls L todo (py_range (length todo) batch_size)
                cache (say (Translating (length todo)) w)) as Hc.
  cbv zeta in Hd, Hc. rewrite py_range_batches in Hc.
  assert (length (py_range (length todo) batch_size)
          = (length todo + batch_size - 1) / batch_size) as Hlen.
  { unfold py_range. by rewrite length_fmap, length_seq. }
  rewrite Hlen in Hc.
  destruct (foldl (translate_batch L todo) _ _) as [tr1 w1]. cbn [fst snd] in *.
  cbn [translator_calls say record docs] in Hc, Hd.
  rewrite Htodo. rewrite Htodo in Hc.
  destruct cache_file as [[|c p]|]; cbn [fst snd];
    cbn [translator_calls docs say record write_doc];
    (split; [exact Hc|]); (split; [done|]); by rewrite ?Hd.
Qed.

Lemma translate_unassignable_cost L todo loaded w :
  let r := translate_unassignable L todo loaded w in
  docs r.2 = docs w ∧
  match todo with
  | [] => r.1 = Done loaded ∧ translator_calls r.2 = translator_calls w
  | _ => r.1 = Failed TypeError ∧ translator_calls r.2 = translator_calls w + 2
  end.
Proof.
  cbv zeta. unfold translate_unassignable, translate. destruct todo as [|word todo];
    [done|].
  cbv beta iota zeta. cbn [fst snd docs translator_calls say record].
  split; [done|]. split; [done|]. lia.
Qed.

(** What [translate_words] comes to when what the cache gave is a dict. *)
Lemma translate_words_dict L words cache_file w cache :
  loads_dict cache_file w cache →
  let r := translate_missing L words cache_file cache (load_cache cache_file w).2 in
  translate_words L words cache_file w = (Done (JObject r.1), r.2).
Proof.
  unfold loads_dict. intros Hcache. cbv zeta. unfold translate_words.
  destruct (load_cache cache_file w) as [loaded w0]. cbn [fst snd] in *. subst loaded.
  by destruct (translate_missing L words cache_file cache w0).
Qed.

(** [X16] What a translation run costs and writes.  When what is loaded
    from the cache is a dict, the run returns a dict; it calls the backend
    at least once per batch of 50 missing words and at most once more per
    missing word, and not at all when the cache has every word; it writes
    no file other than the cache file, and writes the cache file, with the
    mapping it returns, exactly when some word was missing and a cache file
    name was given.  When the cache file holds JSON of another type, the
    run writes nothing: it returns what it loaded without a call, or raises
    [TypeError] after at most two calls. *)
Theorem translate_words_effects L words cache_file w :
  let r := translate_words L words cache_file w in
  match (load_cache cache_file w).1 with
  | JObject cache =>
      let todo := List.filter (λ x, negb (dict_in x cache)) words in
      let batches := (length todo + batch_size - 1) / batch_size in
      ∃ mapping,
        r.1 = Done (JObject mapping) ∧
        translator_calls w + batches ≤ translator_calls r.2
        ≤ translator_calls w + batches + length todo ∧
        (todo = [] → translator_calls r.2 = translator_calls w) ∧
        docs r.2
        = match todo, cache_file with
          | _ :: _, Some (c :: p) => <[c :: p := Json (JObject mapping)]> (docs w)
          | _, _ => docs w
          end
  | loaded =>
      docs r.2 = docs w ∧
      (r.1 = Done loaded ∧ translator_calls r.2 = translator_calls w ∨
       r.1 = Failed TypeError ∧ translator_calls r.2 ≤ translator_calls w + 2)
  end.
Proof.
  cbv zeta.
  destruct (load_cache_world cache_file w) as (Hd0 & Hc0 & _).
  destruct ((load_cache cache_file w).1) as [cache|items|s|] eqn:Hload.
  - rewrite (translate_words_dict L words cache_file w cache Hload). cbn [fst snd].
    destruct (translate_missing_cost L words cache_file cache
                (load_cache cache_file w).2) as (Hc & Hnil & Hdocs).
    cbv zeta in Hc, Hnil, Hdocs. rewrite Hc0 in Hc, Hnil. rewrite Hd0 in Hdocs.
    eexists. split; [done|]. split; [exact Hc|]. split; [exact Hnil|]. exact Hdocs.
  - unfold translate_words. destruct (load_cache cache_file w) as [loaded w0].
    cbn [fst snd] in *. subst loaded.
    match goal with
    | |- context [translate_unassignable L ?t ?v w0] =>
        destruct (translate_unassignable_cost L t v w0) as [Hd Hr];
        cbv zeta in Hd, Hr; destruct t
    end.
    + destruct Hr as [-> ->]. split; [congruence|]. left. by split.
    + destruct Hr as [-> ->]. split; [congruence|]. right. split; [done|lia].
  - unfold translate_words. destruct (load_cache cache_file w) as [loaded w0].
    cbn [fst snd] in *. subst loaded.
    match goal with
    | |- context [translate_unassignable L ?t ?v w0] =>
        destruct (translate_unassignable_cost L t v w0) as [Hd Hr];
        cbv zeta in Hd, Hr; destruct t
    end.
    + destruct Hr as [-> ->]. split; [congruence|]. left. by split.
    + destruct Hr as [-> ->]. split; [congruence|]. right. split; [done|lia].
  - unfold translate_words. destruct (load_cache cache_file w) as [loaded w0].
    cbn [fst snd] in *. subst loaded.
    destruct words; cbn [fst snd]; (split; [done|]); [left | right];
      (split; [done|]); [done | lia].
Qed.

(** ** From the word list to the category files *)



















(** ** A word whose translation fails twice *)




(** * Further concrete runs *)

Lemma playlist_names_clips_example :
  let words := [(py "a", Some (py "b"))] in
  let r := run (assemble (demo_services false true) words (py "out.mp3")
                  (py "/tmp/t")) demo_world in
  py "/tmp/t" ≠ []
  ∧ fs r.2 !! py "out.mp3"
    = Some (Merged (Some (playlist (fragments (py "/tmp/t") words)))).
Proof.
  intros words r.
  assert (py "/tmp/t" ≠ []) as H by done.
  split; [exact H|].
  pose proof (playlist_names_clips (demo_services false true) words (py "out.mp3")
                (py "/tmp/t") demo_world H) as Hp.
  cbv zeta in Hp. fold r in Hp.
  assert (r.1 = Ok ()) as Hr by (by apply assemble_total).
  rewrite Hr in Hp. apply Hp.
Defined.

Lemma conversion_leaves_only_output_example :
  let r := run (convert_file_to_mp3 (demo_services true true)
                  (py "lists/words.txt") None) demo_world in
  fs demo_world !! py "lists/words.txt" = Some (Text example_words)
  ∧ mkdtemp (demo_services true true) (tmp_dirs demo_world) ≠ []
  ∧ fs r.2 !! path_join (py "/tmp/tmp0") (py "silence.mp3") = None
  ∧ fs r.2 !! py "lists/empty.txt" = fs demo_world !! py "lists/empty.txt".
Proof.
  intros r.
  assert (fs demo_world !! py "lists/words.txt" = Some (Text example_words)) as H
    by (vm_compute; reflexivity).
  assert (mkdtemp (demo_services true true) (tmp_dirs demo_world) ≠ []) as Hd
    by done.
  split; [exact H|]. split; [exact Hd|].
  destruct (conversion_leaves_only_output (demo_services true true)
              (py "lists/words.txt") None example_words demo_world H Hd)
    as (Hframe & Hgone & _).
  fold r in Hframe, Hgone. split.
  - apply Hgone; [by vm_compute | by vm_compute].
  - apply Hframe; [by vm_compute | by vm_compute].
Defined.

Lemma conversion_call_budget_example :
  let r := run (convert_file_to_mp3 (demo_services false true)
                  (py "lists/words.txt") None) demo_world in
  fs demo_world !! py "lists/words.txt" = Some (Text example_words)
  ∧ tts_calls r.2 ≤ 12 ∧ ffmpeg_calls r.2 ≤ 7.
Proof.
  intros r.
  assert (fs demo_world !! py "lists/words.txt" = Some (Text example_words)) as H
    by (vm_compute; reflexivity).
  split; [exact H|].
  destruct (conversion_call_budget (demo_services false true)
              (py "lists/words.txt") None example_words demo_world H)
    as ([_ Htts] & [_ Hff] & _).
  fold r in Htts, Hff. split; [exact Htts | exact Hff].
Defined.

Lemma missing_input_is_fatal_example :
  fs demo_world !! py "lists/nothing.txt" = None
  ∧ (run (process_files (demo_services true true)
            [py "lists/nothing.txt"; py "lists/words.txt"]) demo_world).1
    = Raise (FileNotFoundError (py "lists/nothing.txt")).
Proof.
  assert (fs demo_world !! py "lists/nothing.txt" = None) as H
    by (vm_compute; reflexivity).
  split; [exact H|].
  destruct (missing_input_is_fatal (demo_services true true)
              (py "lists/nothing.txt") None [py "lists/words.txt"] demo_world H)
    as [_ Hrun].
  by rewrite Hrun.
Defined.

Lemma default_output_path_example :
  output_path (py "lists/words.txt") None = py "lists/words.mp3"
  ∧ output_path (py "lists/.txt") None = py "lists/.txt.mp3".
Proof.
  assert (py "lists/" = [] ∨ ∃ d, py "lists/" = d ++ [slash]) as Hdir
    by (right; by exists (py "lists")).
  assert (slash ∉ py "txt") as Hext
    by (refine (bool_decide_unpack _ _); vm_compute; exact I).
  assert (dot ∉ py "txt") as Hdot
    by (refine (bool_decide_unpack _ _); vm_compute; exact I).
  split.
  - assert (slash ∉ py "words") as Hbase
      by (refine (bool_decide_unpack _ _); vm_compute; exact I).
    destruct (default_output_path (py "lists/") (py "words") (py "txt")
                Hdir Hbase Hext Hdot) as (Hreplace & _).
    apply Hreplace. exists 119%N. split; [left | done].
  - assert (slash ∉ @nil N) as Hbase by apply not_elem_of_nil.
    destruct (default_output_path (py "lists/") [] (py "txt")
                Hdir Hbase Hext Hdot) as (_ & Hkeep & _).
    apply Hkeep. constructor.
Defined.

Lemma translate_batch_answered_example :
  let r := translate_batch demo_translator [py "cat"; py "dog"; py "eel"]
             ([(py "eel", py "man")], demo_cat_world) 0 in
  dict_get r.1 (py "cat") = Some (py "mao")
  ∧ dict_get r.1 (py "dog") = Some (py "gou")
  ∧ dict_get r.1 (py "eel") = Some (py "man").
Proof.
  intros r.
  destruct (translate_batch_answered demo_translator [py "cat"; py "dog"; py "eel"]
              [(py "eel", py "man")] demo_cat_world 0
              (py "mao" ++ [newline] ++ py " gou ")) as (_ & _ & Hget & _).
  - reflexivity.
  - refine (bool_decide_unpack _ _). vm_compute. exact I.
  - split; [|split].
    + exact (Hget 0 (py "cat") eq_refl).
    + exact (Hget 1 (py "dog") eq_refl).
    + exact (Hget 2 (py "eel") eq_refl).
Defined.


Lemma translate_words_cache_example :
  let r := translate_words demo_translator [py "cat"; py "dog"]
             (Some (py "c.json")) demo_cache in
  loads_dict (Some (py "c.json")) demo_cache [(py "cat", py "mao")]
  ∧ concat (batches_sent (new_journal demo_cache r.2)) = [py "dog"]
  ∧ ∃ result, r.1 = Done (JObject result)
              ∧ dict_get result (py "cat") = Some (py "mao").
Proof.
  intros r.
  assert (loads_dict (Some (py "c.json")) demo_cache [(py "cat", py "mao")]) as H
    by (vm_compute; reflexivity).
  split; [exact H|].
  destruct (translate_words_cache demo_translator [py "cat"; py "dog"]
              (Some (py "c.json")) demo_cache [(py "cat", py "mao")] H)
    as (result & Hr & Hb & _ & _ & Hkeep & _).
  fold r in Hr, Hb. split.
  - rewrite Hb. vm_compute. reflexivity.
  - exists result. split; [exact Hr|]. apply Hkeep. vm_compute. reflexivity.
Defined.



Lemma fragment_sequence_example :
  let r := run (convert_file_to_mp3 (demo_services false true)
                  (py "lists/words.txt") None) demo_world in
  let words := parse_lines (readlines example_words) in
  fs demo_world !! py "lists/words.txt" = Some (Text example_words)
  ∧ r.1 = Ok true
  ∧ concat_reads (new_events demo_world r.2)
    = [Some (listing (fragments (py "/tmp/tmp0") words))]
  ∧ length (fragments (py "/tmp/tmp0") words) = 7.
Proof.
  assert (fs demo_world !! py "lists/words.txt" = Some (Text example_words)) as H
    by (vm_compute; reflexivity).
  destruct (fragment_sequence_in_document_order (demo_services false true)
              (py "lists/words.txt") None example_words demo_world H)
    as (Hhanded & _ & Hok & _ & _).
  assert ((run (convert_file_to_mp3 (demo_services false true)
                  (py "lists/words.txt") None) demo_world).1 = Ok true) as Hrun.
  { apply Hok; [done|]. by vm_compute. }
  split; [exact H|]. split; [exact Hrun|]. split; [by apply Hhanded|].
  vm_compute. reflexivity.
Defined.
